(** * ndzip: SYCL device-side scan helpers ([src/ndzip/sycl_bits.hh])

    A shallow embedding of the profiling wrappers, the work distribution
    primitive [known_size_group::distribute_for], the group-local inclusive
    scan with its local-memory layout, the multi-level hierarchical scan and
    the conversion [extent_cast], together with the properties the
    specification states about them and further properties of the code.

    Conventions.
    - [index_type] values are natural numbers.  The type itself, [warp_size],
      [hierarchical_inclusive_scan_granularity], [div_ceil], [ceil],
      [kernel_duration] and [verbose()] are declared in [gpu_common.hh], which
      is not part of the examined sources; the constants are section
      variables, the two arithmetic helpers are modelled from the
      specification.
    - Device timestamps are [uint64_t]: integers in [Z] with the wrap-around
      written out.
    - Buffers and arrays are lists; every element access is bounds checked and
      an access outside the array makes the computation fail ([None]).
    - A work-group executes in lock step; the lanes of one iteration are run
      in the order of their local id, sub-group by sub-group. *)

From stdpp Require Import base numbers option list gmap strings pretty.


(** ** Integer helpers of [gpu_common.hh] *)

(** Modelled from the spec: [div_ceil] is declared in [gpu_common.hh], which is
    not among the sources; the specification writes it [ceil(N/G)], the
    quotient rounded up. *)
Definition div_ceil (p q : nat) : nat := (p + q - 1) / q.

(** Modelled from the spec: [ceil] is declared in [gpu_common.hh], which is not
    among the sources; the specification describes it as the count
    "rounded up to a multiple of" its second argument. *)
Definition ceil (x multiple : nat) : nat := div_ceil x multiple * multiple.

(** ** Fallible folds *)

Fixpoint foldM {A B : Type} (f : B → A → option B) (b : B) (l : list A) : option B :=
  match l with
  | [] => Some b
  | x :: l' => b' ← f b x; foldM f b' l'
  end.

(** [a[i] = v] on an array of fixed size. *)
Definition store {A : Type} (a : list A) (i : nat) (v : A) : option (list A) :=
  if decide (i < length a) then Some (<[i:=v]> a) else None.

(** ** Kernel timing and submission *)

Module Profiling.

Definition UINT64_MAX : Z := 2 ^ 64 - 1.

(** Arithmetic on [uint64_t] is modulo [2^64]. *)
Definition wrap64 (z : Z) : Z := z `mod` 2 ^ 64.

(** The two profiling timestamps a [sycl::event] reports. *)
Record event := Event { command_start : Z; command_end : Z }.

(** Modelled from the spec: [kernel_duration] is declared in [gpu_common.hh],
    which is not among the sources; the specification describes it as a time
    interval computed from the device timestamps.  It is constructed from the
    [uint64_t] difference of two timestamps and gives that count back;
    [submit_and_profile] prints [count() * 1e-6] as milliseconds, so the count
    is in nanoseconds. *)
Record kernel_duration := KernelDuration { count : Z }.

(** The two overloads of [earliest_event_start] and [latest_event_end] take
    one event or a vector of events. *)
Inductive events :=
| one_event (evt : event)
| event_vector (evts : list event).

Definition earliest_event_start (e : events) : Z :=
  match e with
  | one_event evt => command_start evt
  | event_vector evts =>
      foldl (λ start evt, Z.min start (command_start evt)) UINT64_MAX evts
  end.

Definition latest_event_end (e : events) : Z :=
  match e with
  | one_event evt => command_end evt
  | event_vector evts =>
      foldl (λ end_ evt, Z.max end_ (command_end evt)) 0%Z evts
  end.

(** [measure_duration(events...)]: the pack has at least one member, as
    [std::min] of an empty initializer list has no value. *)
Definition measure_duration (e : events) (es : list events) : Z * Z * kernel_duration :=
  let early := foldl Z.min (earliest_event_start e) (earliest_event_start <$> es) in
  let late := foldl Z.max (latest_event_end e) (latest_event_end <$> es) in
  (early, late, KernelDuration (wrap64 (late - early))).

(** One line of the diagnostic stream: the arguments handed to [printf];
    the rendering of the duration in milliseconds is not modelled. *)
Record profile_line := ProfileLine {
  line_early : Z;
  line_late : Z;
  line_label : string;
  line_duration : kernel_duration;
}.

Section Submit.
(** The command group functions handed to the queue. *)
Context {CGF : Type}.

(** A [sycl::queue]: whether it was created with [enable_profiling], the
    command groups submitted so far, and the event the runtime reports for
    the n-th submission. *)
Record queue := Queue {
  enable_profiling : bool;
  submitted : list CGF;
  runtime_event : nat → event;
}.

(** [q.submit(cgf)] *)
Definition submit (q : queue) (cgf : CGF) : event * queue :=
  (runtime_event q (length (submitted q)),
   Queue (enable_profiling q) (submitted q ++ [cgf]) (runtime_event q)).

(** [submit_and_profile(q, label, cgf)]; [verbose] is the value of
    [verbose()], [out] the diagnostic stream. *)
Definition submit_and_profile (verbose : bool) (q : queue) (out : list profile_line)
    (label : string) (cgf : CGF) : event * queue * list profile_line :=
  if verbose && enable_profiling q then
    let '(evt, q') := submit q cgf in
    let '(early, late, duration) := measure_duration (one_event evt) [one_event evt] in
    (evt, q', out ++ [ProfileLine early late label duration])
  else
    let '(evt, q') := submit q cgf in
    (evt, q', out).

(** Submitting a sequence of labelled work units one after the other. *)
Definition submit_each (verbose : bool) (q : queue) (out : list profile_line)
    (jobs : list (string * CGF)) : queue * list profile_line :=
  foldl (λ s job, let '(_, q', out') := submit_and_profile verbose s.1 s.2 job.1 job.2 in
                  (q', out')) (q, out) jobs.
End Submit.

Arguments queue : clear implicits.

End Profiling.

(** ** Work distribution: [known_size_group<LocalSize>] *)

Module Group.

(** The arguments [invoke_f] passes to the callback: the logical item, the
    fold iteration and the calling lane ([idx.get_local_id(0)]); the lane's
    sub-group is [tid / warp_size].  A callback that declares fewer parameters
    receives a prefix of them. *)
Record call := Call { item : nat; iteration : nat; tid : nat }.

Definition invoke_f (item iteration tid : nat) : call := Call item iteration tid.

(** [distribute_for_partial_iteration(range, sg, idx, f)], on lane [tid]. *)
Definition distribute_for_partial_iteration (LocalSize range tid : nat) : list call :=
  let num_full_iterations := range / LocalSize in
  let partial_iteration_length := range `mod` LocalSize in
  if decide (tid < partial_iteration_length) then
    let iteration := num_full_iterations in
    let item := iteration * LocalSize + tid in
    [invoke_f item iteration tid]
  else [].

(** The body [distribute_for] runs on lane [tid]: the invocations of the
    callback in program order.  The overload with a compile-time [Range] has
    the same body. *)
Definition distribute_for_lane (LocalSize range tid : nat) : list call :=
  let num_full_iterations := range / LocalSize in
  ((λ iteration, invoke_f (iteration * LocalSize + tid) iteration tid)
     <$> seq 0 num_full_iterations)
  ++ distribute_for_partial_iteration LocalSize range tid.

(** [distribute_for(range, f)] on the whole group: what each of the
    [LocalSize] lanes invokes, indexed by local id. *)
Definition distribute_for (LocalSize range : nat) : list (list call) :=
  distribute_for_lane LocalSize range <$> seq 0 LocalSize.

(** Lock-step execution of the group: round [n] consists of the n-th
    invocation of every lane that has one, in the order of the lanes. *)
Definition lockstep (lanes : list (list call)) : list (list call) :=
  (λ n, omap (λ lane : list call, lane !! n) lanes) <$> seq 0 (max_list (length <$> lanes)).

(** The lanes of one round, split into the sub-groups they belong to. *)
Definition sub_groups (warp_size LocalSize : nat) (round : list call) : list (list call) :=
  (λ sg, filter (λ c, tid c / warp_size = sg) round) <$> seq 0 (LocalSize / warp_size).

(** Running a callback without collectives over [distribute_for]. *)
Definition for_each_call {S : Type} (LocalSize range : nat)
    (f : S → call → option S) (s : S) : option S :=
  foldM f s (mjoin (lockstep (distribute_for LocalSize range))).

(** Running a callback that contains a sub-group collective: all lanes of a
    sub-group go through the callback together. *)
Definition for_each_sub_group {S : Type} (warp_size LocalSize range : nat)
    (f : S → list call → option S) (s : S) : option S :=
  foldM f s (mjoin (sub_groups warp_size LocalSize <$> lockstep (distribute_for LocalSize range))).

End Group.

(** ** Group-local inclusive scan *)

Module GroupScan.
Import Group.

(** The instantiation [inclusive_scan_local_allocation<Value, Range>]: the
    primary template is an empty struct, the specialisation holds an array
    [memory] of the given length and the member [next].  Both remember the
    [Range] they were instantiated at. *)
Inductive allocation_type :=
| empty_struct (Range : nat)
| nested_struct (Range : nat) (memory_length : nat) (next : allocation_type).

(** An object of such a type. *)
Inductive local_allocation (Value : Type) :=
| lm_empty
| lm_nested (memory : list Value) (next : local_allocation Value).
Arguments lm_empty {Value}.
Arguments lm_nested {Value} memory next.

Fixpoint has_type {Value : Type} (lm : local_allocation Value) (ty : allocation_type) : Prop :=
  match lm, ty with
  | lm_empty, empty_struct _ => True
  | lm_nested memory next, nested_struct _ memory_length next_ty =>
      length memory = memory_length ∧ has_type next next_ty
  | _, _ => False
  end.

(** The [Range] of the innermost nested allocation. *)
Fixpoint terminal_range (ty : allocation_type) : nat :=
  match ty with
  | empty_struct Range => Range
  | nested_struct _ _ next => terminal_range next
  end.

(** The lengths of the [memory] arrays, outermost first. *)
Fixpoint memory_lengths (ty : allocation_type) : list nat :=
  match ty with
  | empty_struct _ => []
  | nested_struct _ memory_length next => memory_length :: memory_lengths next
  end.

Section WithWarp.
Variable warp_size : nat.

(** Template instantiation recurses on [Range]; [fuel] bounds the depth. *)
Fixpoint inclusive_scan_local_allocation_fuel (fuel Range : nat) : allocation_type :=
  if decide (Range ≤ warp_size) then empty_struct Range
  else match fuel with
       | 0 => empty_struct Range
       | S fuel' =>
           nested_struct Range (div_ceil Range warp_size)
             (inclusive_scan_local_allocation_fuel fuel' (div_ceil Range warp_size))
       end.

Definition inclusive_scan_local_allocation (Range : nat) : allocation_type :=
  inclusive_scan_local_allocation_fuel Range Range.

Context {Scalar : Type}.
Variable op : Scalar → Scalar → Scalar.
(** The literal [0] the scan pads with, as a [Scalar]. *)
Variable zero : Scalar.

(** The naive sequential inclusive scan: [out[i] = op(in[0], ..., in[i])]. *)
Fixpoint scan_from (acc : Scalar) (l : list Scalar) : list Scalar :=
  match l with
  | [] => []
  | x :: l' => op acc x :: scan_from (op acc x) l'
  end.

Definition inclusive_scan (l : list Scalar) : list Scalar :=
  match l with
  | [] => []
  | x :: l' => x :: scan_from x l'
  end.

(** [sycl::inclusive_scan_over_group(sg, x, op)] of the SYCL runtime, on the
    values the lanes of one sub-group contribute, in lane order: lane [i]
    receives the combination of the values of lanes [0..i]. *)
Definition sub_group_inclusive_scan (xs : list Scalar) : list Scalar :=
  inclusive_scan xs.

(** [item < Range ? acc[item] : 0] for every lane of a sub-group. *)
Definition padded_reads (Range : nat) (acc : list Scalar) (base : nat)
    (sg : list call) : option (list Scalar) :=
  mapM (λ c, if decide (item c < Range) then acc !! (base + item c) else Some zero) sg.

(** The callback of the base case, on one sub-group. *)
Definition base_case_callback (Range base : nat) (acc : list Scalar)
    (sg : list call) : option (list Scalar) :=
  a ← padded_reads Range acc base sg;
  let b := sub_group_inclusive_scan a in
  foldM (λ acc cb, if decide (item cb.1 < Range) then store acc (base + item cb.1) cb.2
                   else Some acc)
        acc (zip sg b).

(** The first callback of the recursive case, on one sub-group: [fine] is
    the private array of each lane, keyed by lane and index and of
    [div_ceil(Range, LocalSize)] elements per lane; [coarse] is
    [lm.memory]. *)
Definition fine_callback (LocalSize Range base : nat) (acc : list Scalar)
    (st : gmap (nat * nat) Scalar * list Scalar) (sg : list call)
    : option (gmap (nat * nat) Scalar * list Scalar) :=
  a ← padded_reads Range acc base sg;
  let b := sub_group_inclusive_scan a in
  foldM (λ st cb,
           let c := cb.1 in
           if decide (iteration c < div_ceil Range LocalSize) then
             let fine := <[(tid c, iteration c) := cb.2]> st.1 in
             if decide (item c `mod` warp_size = warp_size - 1) then
               coarse ← store st.2 (item c / warp_size) cb.2;
               Some (fine, coarse)
             else Some (fine, st.2)
           else None)
        st (zip sg b).

(** The second callback of the recursive case, on one lane. *)
Definition carry_callback (base : nat) (fine : gmap (nat * nat) Scalar)
    (coarse : list Scalar) (acc : list Scalar) (c : call) : option (list Scalar) :=
  value ← fine !! (tid c, iteration c);
  value' ← (if decide (warp_size ≤ item c) then
              carry ← coarse !! (item c / warp_size - 1);
              Some (op value carry)
            else Some value);
  store acc (base + item c) value'.

(** [inclusive_scan_over_group<Range>(grp, acc, lm, op)] for a group of
    [LocalSize] lanes; [acc] points at element [base] of the array given.
    The overload is chosen by [Range]; the type of [lm] follows [Range], so
    an [lm] without the members the recursive case uses cannot occur and is
    mapped to failure.  Returns the array and the local memory as left by
    the call. *)
Fixpoint inclusive_scan_over_group (LocalSize Range : nat)
    (lm : local_allocation Scalar) (acc : list Scalar) (base : nat)
    : option (list Scalar * local_allocation Scalar) :=
  if decide (Range ≤ warp_size) then
    acc' ← for_each_sub_group warp_size LocalSize (ceil Range warp_size)
             (base_case_callback Range base) acc;
    Some (acc', lm)
  else
    match lm with
    | lm_empty => None
    | lm_nested coarse next =>
        st ← for_each_sub_group warp_size LocalSize (ceil Range warp_size)
               (fine_callback LocalSize Range base acc) (∅, coarse);
        r ← inclusive_scan_over_group LocalSize (div_ceil Range warp_size) next st.2 0;
        acc' ← for_each_call LocalSize Range (carry_callback base st.1 r.1) acc;
        Some (acc', lm_nested r.1 r.2)
    end.
End WithWarp.

End GroupScan.

(** ** Hierarchical multi-launch scan *)

Module Hierarchical.
Import Group GroupScan Profiling.

Section WithGranularity.
Variable warp_size : nat.
(** [hierarchical_inclusive_scan_granularity] *)
Variable granularity : nat.

(** The loop of [hierarchical_inclusive_scan_allocate]; [fuel] bounds the
    number of iterations. *)
Fixpoint allocate_loop (fuel n_elems : nat) : list nat :=
  match fuel with
  | 0 => []
  | S fuel' =>
      if decide (1 < n_elems) then
        let n_elems' := div_ceil n_elems granularity in
        ceil n_elems' granularity :: allocate_loop fuel' n_elems'
      else []
  end.

(** [hierarchical_inclusive_scan_allocate<Scalar>(in_out_buffer_size)]: the
    element counts of the buffers of the chain, in order.  A buffer
    constructed from a count has unspecified contents.  The assertion on
    entry fails for a size that is no multiple of the granularity. *)
Definition hierarchical_inclusive_scan_allocate (in_out_buffer_size : nat)
    : option (list nat) :=
  if decide (in_out_buffer_size `mod` granularity = 0) then
    Some (allocate_loop in_out_buffer_size in_out_buffer_size)
  else None.

Context {Scalar : Type}.
Variable op : Scalar → Scalar → Scalar.
Variable zero : Scalar.

(** Device memory as seen by the scan: the array scanned in place and the
    chain of intermediate buffers. *)
Record memory := Memory {
  in_out_buffer : list Scalar;
  intermediate_bufs : list (list Scalar);
}.

(** A chain allocated for an array of the given size, whatever it holds. *)
Definition allocated_for (in_out_buffer_size : nat) (bufs : list (list Scalar)) : Prop :=
  hierarchical_inclusive_scan_allocate in_out_buffer_size = Some (length <$> bufs).

Definition local_size : nat := 256.

(** What the local accessor of group [g] of the reduction at level [i]
    holds when the kernel starts. *)
Variable local_memory : nat → nat → local_allocation Scalar.

(** [cgh.parallel(group_range, local_range, kernel)]: one kernel instance
    per group. *)
Definition parallel {S : Type} (group_range : nat) (kernel : nat → S → option S)
    (s : S) : option S :=
  foldM (λ s group_index, kernel group_index s) s (seq 0 group_range).

(** [i > 0 ? intermediate_bufs[i - 1] : in_out_buffer] *)
Definition big_buffer (m : memory) (i : nat) : option (list Scalar) :=
  if decide (0 < i) then intermediate_bufs m !! (i - 1) else Some (in_out_buffer m).

Definition set_big_buffer (m : memory) (i : nat) (b : list Scalar) : memory :=
  if decide (0 < i) then Memory (in_out_buffer m) (<[i - 1 := b]> (intermediate_bufs m))
  else Memory b (intermediate_bufs m).

Definition set_small_buffer (m : memory) (i : nat) (b : list Scalar) : memory :=
  Memory (in_out_buffer m) (<[i := b]> (intermediate_bufs m)).

(** [big_buffer.get_count()] on the host. *)
Definition big_count (m : memory) (i : nat) : nat :=
  length (default [] (big_buffer m i)).

(** The kernel [hierarchical_inclusive_scan_reduction_kernel], on the pair
    of arrays behind [big_acc] and [small_acc]. *)
Definition reduction_kernel (lm : local_allocation Scalar) (group_index : nat)
    (accs : list Scalar * list Scalar) : option (list Scalar * list Scalar) :=
  r ← inclusive_scan_over_group warp_size op zero local_size granularity lm
        accs.1 (group_index * granularity);
  v ← r.1 !! (group_index * granularity + (granularity - 1));
  small_acc ← store accs.2 group_index v;
  Some (r.1, small_acc).

(** The command group of the reduction at level [i].  The small buffer is
    accessed with [discard_write]: the slots no group writes hold an
    unspecified value afterwards.  This is the first access to that buffer,
    whose initial contents are unspecified as well, so the slots are left as
    they were. *)
Definition reduction_cgf (i group_range : nat) (m : memory) : option memory :=
  big ← big_buffer m i;
  small ← intermediate_bufs m !! i;
  r ← parallel group_range (λ g, reduction_kernel (local_memory i g) g) (big, small);
  Some (set_small_buffer (set_big_buffer m i r.1) i r.2).

(** The kernel [hierarchical_inclusive_scan_expansion_kernel]. *)
Definition expansion_kernel (small_acc : list Scalar) (group_index : nat)
    (big_acc : list Scalar) : option (list Scalar) :=
  small ← small_acc !! group_index;
  for_each_call local_size granularity
    (λ big c,
       let i := (group_index + 1) * granularity + item c in
       v ← big !! i; store big i (op v small))
    big_acc.

(** [div_ceil(count, granularity) - 1] in the unsigned [index_type]: for an
    empty buffer the subtraction wraps around and the launch would cover
    groups outside every buffer, which is a failure here. *)
Definition expansion_group_range (count : nat) : option nat :=
  let n := div_ceil count granularity in
  if decide (0 < n) then Some (n - 1) else None.

(** The command group of the expansion at level [ii]. *)
Definition expansion_cgf (ii count : nat) (m : memory) : option memory :=
  group_range ← expansion_group_range count;
  small ← intermediate_bufs m !! ii;
  big ← big_buffer m ii;
  big' ← parallel group_range (expansion_kernel small) big;
  Some (set_big_buffer m ii big').

(** [hierarchical_inclusive_scan(queue, in_out_buffer, intermediate_bufs, op)]
    on the host: the two loops submit one command group per level.  Of the
    buffers the host only looks at their number and their counts. *)
Definition hierarchical_inclusive_scan (verbose : bool)
    (queue : queue (memory → option memory)) (out : list profile_line) (m : memory)
    : Profiling.queue (memory → option memory) * list profile_line :=
  let size := length (intermediate_bufs m) in
  let reduced :=
    foldl (λ s i,
             let group_range := div_ceil (big_count m i) granularity in
             let label := "hierarchical_inclusive_scan reduce " +:+ pretty i in
             let '(_, q', out') :=
               submit_and_profile verbose s.1 s.2 label (reduction_cgf i group_range) in
             (q', out'))
          (queue, out) (seq 0 size) in
  foldl (λ s i,
           let ii := size - 1 - i in
           let label := "hierarchical_inclusive_scan expand " +:+ pretty ii in
           let '(_, q', out') :=
             submit_and_profile verbose s.1 s.2 label (expansion_cgf ii (big_count m ii)) in
           (q', out'))
        reduced (seq 1 (size - 1)).

(** An in-order queue: the command groups run in submission order. *)
Definition execute (cgfs : list (memory → option memory)) (m : memory) : option memory :=
  foldM (λ m cgf, cgf m) m cgfs.

(** The device memory after the command groups a call of
    [hierarchical_inclusive_scan] has submitted have run. *)
Definition scan_on_device (verbose : bool) (queue : Profiling.queue (memory → option memory))
    (out : list profile_line) (m : memory) : option memory :=
  let q' := (hierarchical_inclusive_scan verbose queue out m).1 in
  execute (drop (length (submitted queue)) (submitted q')) m.
End WithGranularity.

Arguments memory : clear implicits.
Arguments Memory {Scalar} _ _.
Arguments in_out_buffer {Scalar} _.
Arguments intermediate_bufs {Scalar} _.

End Hierarchical.

(** ** Conversion between extent types *)

Module Extent.

(** [extent_cast<Dims, U>(e)]: [v] is the default-constructed [U] the
    function starts from, [convert] the implicit conversion of the
    assignment [v[i] = e[i]] between the two component types.  Neither type
    checks its index: reading or writing a component that does not exist is
    a failure here. *)
Definition extent_cast {T U : Type} (convert : T → U) (Dims : nat)
    (v : list U) (e : list T) : option (list U) :=
  foldM (λ v i, x ← e !! i; store v i (convert x)) v (seq 0 Dims).

(** The overloads for [extent<Dims>], [sycl::range<Dims>] and
    [sycl::id<Dims>]: [Dims] is the dimension of the argument. *)
Definition extent_cast_from {T U : Type} (convert : T → U)
    (v : list U) (e : list T) : option (list U) :=
  extent_cast convert (length e) v e.

End Extent.

(** ** Notions used to state the properties *)

Module Timing.
Import Profiling.

(** The events behind one argument of [measure_duration]. *)
Definition members (e : events) : list event :=
  match e with
  | one_event evt => [evt]
  | event_vector evts => evts
  end.

(** A value of [uint64_t]. *)
Definition is_uint64 (z : Z) : Prop := (0 ≤ z ≤ UINT64_MAX)%Z.

(** An event whose two timestamps are values of [uint64_t]. *)
Definition in_range (evt : event) : Prop :=
  is_uint64 (command_start evt) ∧ is_uint64 (command_end evt).

(** The line [submit_and_profile] prints for an event. *)
Definition line_of (evt : event) (label : string) : profile_line :=
  ProfileLine (command_start evt) (command_end evt) label
    (KernelDuration (wrap64 (command_end evt - command_start evt))).

End Timing.

Module Schedule.
Import Group.

(** The invocation that handles a logical item. *)
Definition call_of_item (LocalSize i : nat) : call :=
  Call i (i / LocalSize) (i `mod` LocalSize).

(** The lanes of the sub-group that handles the [w]-th run of [warp_size]
    consecutive items. *)
Definition warp_calls (warp_size LocalSize w : nat) : list call :=
  call_of_item LocalSize <$> seq (w * warp_size) warp_size.

End Schedule.

(** [acc] with the [k] elements from [base] on replaced by [g 0 .. g (k-1)]. *)
Definition window {A : Type} (acc : list A) (base : nat) (g : nat → A) (k : nat) : list A :=
  take base acc ++ (g <$> seq 0 k) ++ drop (base + k) acc.

Module Algebra.
Section WithOp.
Context {Scalar : Type}.
Variable op : Scalar → Scalar → Scalar.

(** [op(p(a), ..., p(a + j))], combined from the left. *)
Fixpoint psum (p : nat → Scalar) (a j : nat) : Scalar :=
  match j with
  | 0 => p a
  | S j' => op (psum p a j') (p (a + j))
  end.

Variable zero : Scalar.
Variables warp_size LocalSize : nat.

(** [acc[i]] behind a pointer to element [base]. *)
Definition element (acc : list Scalar) (base i : nat) : Scalar :=
  default zero (acc !! (base + i)).

(** [item < Range ? acc[item] : 0] *)
Definition padded (Range : nat) (acc : list Scalar) (base i : nat) : Scalar :=
  if decide (i < Range) then element acc base i else zero.

(** What the sub-group scan hands to the lane of item [i]: the combination
    of the values of its sub-group up to this lane. *)
Definition warp_scan (p : nat → Scalar) (i : nat) : Scalar :=
  psum p (i / warp_size * warp_size) (i `mod` warp_size).

(** What the last lane of the [w]-th sub-group receives. *)
Definition warp_total (p : nat → Scalar) (w : nat) : Scalar :=
  psum p (w * warp_size) (warp_size - 1).

(** The private arrays [fine] of all lanes once the items below [k] have
    been handled. *)
Definition fine_upto (p : nat → Scalar) (k : nat) : gmap (nat * nat) Scalar :=
  foldl (λ fine i, <[(i `mod` LocalSize, i / LocalSize) := warp_scan p i]> fine) ∅ (seq 0 k).

(** The value the second callback of the recursive case stores at item
    [i], given the scanned coarse array. *)
Definition carried (p : nat → Scalar) (coarse : nat → Scalar) (i : nat) : Scalar :=
  if decide (warp_size ≤ i) then op (warp_scan p i) (coarse (i / warp_size - 1))
  else warp_scan p i.

(** What the expansion leaves at element [i] past the first block of
    [big]: the element combined with the carry of its block. *)
Definition expanded (granularity : nat) (big small : list Scalar) (i : nat) : Scalar :=
  op (element big granularity i) (element small 0 (i / granularity)).
End WithOp.
End Algebra.

Module Levels.
Import Hierarchical.
Section WithScalar.
Context {Scalar : Type}.

(** A command group of the scan of the chain without its first buffer,
    seen from the whole chain: the first intermediate buffer plays the part
    of the array being scanned. *)
Definition lift (cgf : memory Scalar → option (memory Scalar)) (m : memory Scalar)
    : option (memory Scalar) :=
  match intermediate_bufs m with
  | [] => None
  | b :: rest =>
      m' ← cgf (Memory b rest);
      Some (Memory (in_out_buffer m) (in_out_buffer m' :: intermediate_bufs m'))
  end.

(** The command groups [hierarchical_inclusive_scan] submits, in order. *)
Definition kernels (warp_size granularity : nat) (op : Scalar → Scalar → Scalar)
    (zero : Scalar) (local_memory : nat → nat → GroupScan.local_allocation Scalar)
    (m : memory Scalar) : list (memory Scalar → option (memory Scalar)) :=
  let size := length (intermediate_bufs m) in
  ((λ i, reduction_cgf warp_size granularity op zero local_memory i
           (div_ceil (big_count m i) granularity)) <$> seq 0 size)
  ++ ((λ i, expansion_cgf granularity op (size - 1 - i) (big_count m (size - 1 - i)))
        <$> seq 1 (size - 1)).

(** Two memories whose buffers have the same counts. *)
Definition same_counts (m m' : memory Scalar) : Prop :=
  length (in_out_buffer m) = length (in_out_buffer m')
  ∧ length <$> intermediate_bufs m = length <$> intermediate_bufs m'.
End WithScalar.

(** What the scan needs of the counts of the array ([count]) and of the
    chain: every buffer that is scanned is a positive multiple of the
    granularity, the next buffer has a slot for each of its blocks, and the
    last buffer that is scanned is a single block.  Without a chain the array
    is empty. *)
Fixpoint chain_ok (granularity count : nat) (counts : list nat) : Prop :=
  match counts with
  | [] => count = 0
  | next :: rest =>
      0 < count ∧ count `mod` granularity = 0 ∧ count / granularity ≤ next
      ∧ match rest with
        | [] => count = granularity
        | _ :: _ => chain_ok granularity next rest
        end
  end.

(** The unrounded element count [n_elems] after [k] iterations of the loop of
    [hierarchical_inclusive_scan_allocate]. *)
Definition unrounded (granularity in_out_buffer_size k : nat) : nat :=
  Nat.iter k (λ n_elems, div_ceil n_elems granularity) in_out_buffer_size.

End Levels.

(** ** Sample data *)

Module Samples.

(** The first operand that is not zero: associative, with identity [0], and
    not commutative. *)
Definition first_nonzero (a b : nat) : nat := if decide (a = 0) then b else a.

(** Local memory for a scan of four elements with a warp size of two. *)
Definition local_memory_4 (level group : nat) : GroupScan.local_allocation nat :=
  GroupScan.lm_nested [0; 0] GroupScan.lm_empty.

(** A queue without profiling and nothing submitted. *)
Definition plain_queue : Profiling.queue (Hierarchical.memory nat → option (Hierarchical.memory nat)) :=
  Profiling.Queue false [] (λ _, Profiling.Event 0 0).

End Samples.

(** * Properties *)

#[local] Arguments Nat.min : simpl never.
#[local] Arguments Nat.max : simpl never.

(** ** Arithmetic of [div_ceil] and [ceil] *)

Section Arith.
Implicit Types p q k : nat.

Lemma div_ceil_bounds p q : 0 < q → p ≤ div_ceil p q * q ∧ div_ceil p q * q < p + q.
Proof.
  intros Hq. unfold div_ceil.
  pose proof (Nat.div_mod (p + q - 1) q ltac:(lia)) as Hdm.
  pose proof (Nat.mod_upper_bound (p + q - 1) q ltac:(lia)) as Hlt.
  nia.
Qed.

Lemma div_ceil_unique p q k : 0 < q → p ≤ k * q → k * q < p + q → div_ceil p q = k.
Proof.
  intros Hq Hle Hlt. destruct (div_ceil_bounds p q Hq) as [H1 H2]. nia.
Qed.

Lemma div_ceil_mul k q : 0 < q → div_ceil (k * q) q = k.
Proof. intros Hq. apply div_ceil_unique; lia. Qed.

Lemma div_ceil_0 q : 0 < q → div_ceil 0 q = 0.
Proof. intros Hq. apply (div_ceil_mul 0 q Hq). Qed.

Lemma div_ceil_pos p q : 0 < q → 0 < p → 0 < div_ceil p q.
Proof. intros Hq Hp. destruct (div_ceil_bounds p q Hq). nia. Qed.

Lemma div_ceil_small p q : 0 < p → p ≤ q → div_ceil p q = 1.
Proof. intros Hp Hle. apply div_ceil_unique; lia. Qed.

Lemma div_ceil_lt p q : 2 ≤ q → 1 < p → div_ceil p q < p.
Proof. intros Hq Hp. destruct (div_ceil_bounds p q ltac:(lia)). nia. Qed.

Lemma div_ceil_le p q : 0 < q → div_ceil p q ≤ p.
Proof. intros Hq. destruct (div_ceil_bounds p q Hq). nia. Qed.

Lemma div_ceil_mono p p' q : 0 < q → p ≤ p' → div_ceil p q ≤ div_ceil p' q.
Proof.
  intros Hq Hle. destruct (div_ceil_bounds p q Hq), (div_ceil_bounds p' q Hq). nia.
Qed.

Lemma ceil_bounds x q : 0 < q → x ≤ ceil x q ∧ ceil x q < x + q.
Proof. apply div_ceil_bounds. Qed.

Lemma ceil_mod x q : 0 < q → ceil x q `mod` q = 0.
Proof. intros Hq. unfold ceil. apply Nat.Div0.mod_mul. Qed.

Lemma ceil_div x q : 0 < q → ceil x q / q = div_ceil x q.
Proof. intros Hq. unfold ceil. apply Nat.div_mul. lia. Qed.

Lemma div_ceil_ceil x q : 0 < q → div_ceil (ceil x q) q = div_ceil x q.
Proof. intros Hq. unfold ceil. by apply div_ceil_mul. Qed.

Lemma ceil_mul k q : 0 < q → ceil (k * q) q = k * q.
Proof. intros Hq. unfold ceil. by rewrite div_ceil_mul. Qed.

Lemma multiple_div p q : 0 < q → p `mod` q = 0 → p = p / q * q.
Proof. intros Hq Hm. pose proof (Nat.div_mod p q ltac:(lia)). lia. Qed.

Lemma div_ceil_exact p q : 0 < q → p `mod` q = 0 → div_ceil p q = p / q.
Proof.
  intros Hq Hm. rewrite (multiple_div p q Hq Hm) at 1. by apply div_ceil_mul.
Qed.

(** Quotient and remainder of [n * q + t] for [t < q]. *)
Lemma div_mod_decompose n t q : t < q → (n * q + t) / q = n ∧ (n * q + t) `mod` q = t.
Proof.
  intros Ht. split.
  - rewrite Nat.add_comm, Nat.div_add by lia. rewrite Nat.div_small; lia.
  - rewrite Nat.add_comm, Nat.Div0.mod_add. by apply Nat.mod_small.
Qed.

Lemma div_eq_iff i q k : 0 < q → i / q = k ↔ k * q ≤ i ∧ i < k * q + q.
Proof.
  intros Hq. pose proof (Nat.div_mod i q ltac:(lia)).
  pose proof (Nat.mod_upper_bound i q ltac:(lia)). split; [intros <-; lia|].
  intros [H1 H2]. nia.
Qed.
End Arith.

(** ** Generic facts on lists and folds *)

Section Lists.
Context {A B : Type}.

Lemma foldM_app (f : B → A → option B) (b : B) (l1 l2 : list A) :
  foldM f b (l1 ++ l2) = b' ← foldM f b l1; foldM f b' l2.
Proof.
  revert b. induction l1 as [|x l1 IH]; intros b; simpl; [done|].
  destruct (f b x); simpl; [apply IH | done].
Qed.

Lemma foldM_ext (f g : B → A → option B) (b : B) (l : list A) :
  (∀ b x, x ∈ l → f b x = g b x) → foldM f b l = foldM g b l.
Proof.
  revert b. induction l as [|x l IH]; intros b Hfg; simpl; [done|].
  rewrite Hfg by left. destruct (g b x); simpl; [|done].
  apply IH. intros. apply Hfg. by right.
Qed.

(** Steps that leave the state alone can be dropped. *)
Lemma foldM_filter (f : B → A → option B) (P : A → Prop) `{∀ x, Decision (P x)}
    (b : B) (l : list A) :
  (∀ b x, ¬ P x → f b x = Some b) → foldM f b l = foldM f b (filter P l).
Proof.
  intros Hskip. revert b. induction l as [|x l IH]; intros b; [done|].
  rewrite filter_cons. destruct (decide (P x)); simpl.
  - destruct (f b x); simpl; [apply IH | done].
  - rewrite Hskip by done. simpl. apply IH.
Qed.

Lemma omap_seq_below (f : nat → B) (c m : nat) :
  omap (λ t, if decide (t < c) then Some (f t) else None) (seq 0 m)
  = f <$> seq 0 (m `min` c).
Proof.
  induction m as [|m IH]; [done|].
  rewrite seq_S, omap_app, IH.
  destruct (decide (m < c)).
  - replace (S m `min` c) with (S (m `min` c)) by lia.
    rewrite seq_S, fmap_app. simpl. rewrite decide_True by done.
    by replace (m `min` c) with m by lia.
  - replace (S m `min` c) with (m `min` c) by lia.
    simpl. rewrite decide_False by done. by rewrite app_nil_r.
Qed.

Lemma omap_ext_elem (f g : A → option B) (l : list A) :
  (∀ x, x ∈ l → f x = g x) → omap f l = omap g l.
Proof.
  induction l as [|x l IH]; intros Hfg; [done|].
  change (omap f (x :: l)) with (from_option (λ y, y :: omap f l) (omap f l) (f x)).
  change (omap g (x :: l)) with (from_option (λ y, y :: omap g l) (omap g l) (g x)).
  rewrite (Hfg x) by left. rewrite IH; [done|]. intros. apply Hfg. by right.
Qed.
End Lists.

Lemma omap_fmap {A B C : Type} (f : B → option C) (g : A → B) (l : list A) :
  omap f (g <$> l) = omap (f ∘ g) l.
Proof.
  induction l as [|x l IH]; [done|]. csimpl. rewrite IH. done.
Qed.

Lemma fmap_join {A B : Type} (f : A → B) (ls : list (list A)) :
  f <$> mjoin ls = mjoin (fmap f <$> ls).
Proof.
  induction ls as [|l ls IH]; [done|]. csimpl. by rewrite fmap_app, IH.
Qed.

(** Consecutive blocks of [k] numbers, the last one cut at [w], enumerate
    [0..w-1] in order. *)
Lemma join_seq_blocks (k w m : nat) :
  mjoin ((λ n, seq (n * k) (k `min` (w - n * k))) <$> seq 0 m) = seq 0 (w `min` (m * k)).
Proof.
  induction m as [|m IH]; [by rewrite Nat.min_0_r|].
  rewrite seq_S, fmap_app, join_app, IH. csimpl. rewrite app_nil_r.
  destruct (decide (m * k ≤ w)).
  - replace (w `min` (m * k)) with (m * k) by lia.
    replace (w `min` (k + m * k)) with (m * k + k `min` (w - m * k)) by lia.
    by rewrite seq_app.
  - replace (k `min` (w - m * k)) with 0 by lia.
    rewrite app_nil_r. f_equal. lia.
Qed.

Lemma filter_seq_div (ws sg cnt : nat) :
  0 < ws →
  filter (λ t, t / ws = sg) (seq 0 cnt) = seq (sg * ws) (ws `min` (cnt - sg * ws)).
Proof.
  intros Hws. induction cnt as [|cnt IH]; [by rewrite Nat.min_0_r|].
  rewrite seq_S, filter_app, IH. simpl. rewrite filter_cons, filter_nil.
  destruct (decide (cnt / ws = sg)) as [Hd|Hd]; rewrite div_eq_iff in Hd by done.
  - replace (ws `min` (S cnt - sg * ws)) with (S (ws `min` (cnt - sg * ws))) by lia.
    rewrite seq_S. do 2 f_equal. lia.
  - rewrite app_nil_r. f_equal. lia.
Qed.

(** ** The schedule of [distribute_for] *)

Section ScheduleFacts.
Import Group.
Variables LocalSize range : nat.
Hypothesis LocalSize_pos : 0 < LocalSize.

Local Abbreviation call_of_item := (Schedule.call_of_item LocalSize).

Lemma distribute_for_lane_lookup t n :
  t < LocalSize →
  distribute_for_lane LocalSize range t !! n
  = if decide (n * LocalSize + t < range) then Some (Call (n * LocalSize + t) n t) else None.
Proof using LocalSize_pos.
  intros Ht. unfold distribute_for_lane, distribute_for_partial_iteration, invoke_f.
  pose proof (Nat.div_mod range LocalSize ltac:(lia)) as Hdm.
  pose proof (Nat.mod_upper_bound range LocalSize ltac:(lia)) as Hub.
  destruct (decide (n < range / LocalSize)) as [Hn|Hn].
  - rewrite lookup_app_l by (by rewrite length_fmap, length_seq).
    rewrite list_lookup_fmap, lookup_seq_lt by done. simpl.
    rewrite decide_True by nia. done.
  - rewrite lookup_app_r by (rewrite length_fmap, length_seq; lia).
    rewrite length_fmap, length_seq.
    destruct (decide (t < range `mod` LocalSize)) as [Hp|Hp].
    + destruct (decide (n = range / LocalSize)) as [->|Hne].
      * rewrite Nat.sub_diag. simpl. rewrite decide_True by nia. done.
      * rewrite decide_False by nia.
        destruct (n - range / LocalSize) as [|d] eqn:Hd; [lia|done].
    + rewrite decide_False by nia. done.
Qed.

Lemma distribute_for_lane_length t :
  t < LocalSize →
  length (distribute_for_lane LocalSize range t) ≤ div_ceil range LocalSize.
Proof using LocalSize_pos.
  intros Ht. destruct (decide (length (distribute_for_lane LocalSize range t)
                               ≤ div_ceil range LocalSize)) as [|Hgt]; [done|].
  destruct (lookup_lt_is_Some_2 (distribute_for_lane LocalSize range t)
              (div_ceil range LocalSize) ltac:(lia)) as [c Hc].
  rewrite distribute_for_lane_lookup in Hc by done.
  destruct (div_ceil_bounds range LocalSize LocalSize_pos).
  rewrite decide_False in Hc by lia. done.
Qed.

Lemma distribute_for_rounds :
  max_list (length <$> distribute_for LocalSize range) = div_ceil range LocalSize.
Proof using LocalSize_pos.
  apply Nat.le_antisymm.
  - destruct (decide (max_list (length <$> distribute_for LocalSize range)
                      ≤ div_ceil range LocalSize)) as [|Hgt]; [done|].
    assert (length <$> distribute_for LocalSize range ≠ []) as Hne.
    { unfold distribute_for. destruct LocalSize; [lia|done]. }
    apply max_list_elem_of in Hne.
    apply list_elem_of_fmap in Hne as (lane & Hlen & Hlane).
    apply list_elem_of_fmap in Hlane as (t & -> & Ht).
    apply elem_of_seq in Ht.
    pose proof (distribute_for_lane_length t ltac:(lia)). lia.
  - destruct (decide (div_ceil range LocalSize = 0)) as [->|Hpos]; [lia|].
    transitivity (length (distribute_for_lane LocalSize range 0)).
    + assert (is_Some (distribute_for_lane LocalSize range 0 !! (div_ceil range LocalSize - 1)))
        as Hs.
      { rewrite distribute_for_lane_lookup by done.
        destruct (div_ceil_bounds range LocalSize LocalSize_pos).
        rewrite decide_True by nia. done. }
      apply lookup_lt_is_Some_1 in Hs. lia.
    + apply max_list_elem_of_le, list_elem_of_fmap.
      eexists; split; [done|]. apply list_elem_of_fmap. exists 0. split; [done|].
      apply elem_of_seq. lia.
Qed.

(** Round [n] runs the lanes whose item lies in the range, in lane order. *)
Lemma lockstep_round n :
  omap (λ lane : list call, lane !! n) (distribute_for LocalSize range)
  = call_of_item <$> seq (n * LocalSize) (LocalSize `min` (range - n * LocalSize)).
Proof using LocalSize_pos.
  unfold distribute_for.
  rewrite <-(Nat.add_0_r (n * LocalSize)), <-fmap_add_seq, <-list_fmap_compose.
  rewrite <-(omap_seq_below (call_of_item ∘ Nat.add (n * LocalSize))).
  rewrite omap_fmap. apply omap_ext_elem. intros t Ht.
  apply elem_of_seq in Ht. simpl.
  rewrite distribute_for_lane_lookup by lia.
  destruct (div_mod_decompose n t LocalSize ltac:(lia)) as [Hd Hm].
  unfold call_of_item. simpl. rewrite Hd, Hm.
  repeat case_decide; try done; lia.
Qed.

(** In lock step the group goes through the items in increasing order. *)
Lemma lockstep_distribute_for :
  mjoin (lockstep (distribute_for LocalSize range)) = call_of_item <$> seq 0 range.
Proof using LocalSize_pos.
  unfold lockstep. rewrite distribute_for_rounds.
  transitivity (mjoin (fmap call_of_item <$>
    ((λ n, seq (n * LocalSize) (LocalSize `min` (range - n * LocalSize)))
       <$> seq 0 (div_ceil range LocalSize)))).
  { f_equal. rewrite <-list_fmap_compose. apply list_fmap_ext.
    intros. apply lockstep_round. }
  rewrite <-fmap_join, join_seq_blocks.
  destruct (div_ceil_bounds range LocalSize LocalSize_pos).
  by replace (range `min` (div_ceil range LocalSize * LocalSize)) with range by lia.
Qed.
(** *** What the lanes invoke *)

Lemma distribute_for_lane_items t i :
  t < LocalSize →
  i ∈ item <$> distribute_for_lane LocalSize range t
  ↔ ∃ n, i = n * LocalSize + t ∧ i < range.
Proof using LocalSize_pos.
  intros Ht. rewrite list_elem_of_fmap. split.
  - intros (c & -> & Hc). apply list_elem_of_lookup in Hc as [n Hn].
    rewrite distribute_for_lane_lookup in Hn by done.
    case_decide; [|done]. injection Hn as <-. by exists n.
  - intros (n & -> & Hn). exists (Call (n * LocalSize + t) n t). split; [done|].
    apply list_elem_of_lookup. exists n.
    rewrite distribute_for_lane_lookup by done. by rewrite decide_True.
Qed.

Lemma distribute_for_lane_NoDup t :
  t < LocalSize → NoDup (item <$> distribute_for_lane LocalSize range t).
Proof using LocalSize_pos.
  intros Ht. apply NoDup_alt. intros n n' i.
  rewrite !list_lookup_fmap, !distribute_for_lane_lookup by done.
  repeat case_decide; simpl; try done. intros [= <-] [= Heq]. nia.
Qed.

Lemma distribute_for_items :
  item <$> mjoin (distribute_for LocalSize range)
  = seq 0 LocalSize ≫= λ t, item <$> distribute_for_lane LocalSize range t.
Proof.
  unfold distribute_for. rewrite fmap_join, list_join_bind, !list_fmap_bind.
  done.
Qed.

Lemma distribute_for_items_elem i :
  i ∈ item <$> mjoin (distribute_for LocalSize range) ↔ i < range.
Proof using LocalSize_pos.
  rewrite distribute_for_items, list_elem_of_bind. split.
  - intros (t & Hi & Ht). apply elem_of_seq in Ht.
    apply distribute_for_lane_items in Hi as (n & _ & Hlt); [done|lia].
  - intros Hi. exists (i `mod` LocalSize).
    pose proof (Nat.mod_upper_bound i LocalSize ltac:(lia)).
    split; [|apply elem_of_seq; lia].
    apply distribute_for_lane_items; [done|]. exists (i / LocalSize).
    split; [|done]. pose proof (Nat.div_mod i LocalSize ltac:(lia)). lia.
Qed.

Lemma distribute_for_items_NoDup :
  NoDup (item <$> mjoin (distribute_for LocalSize range)).
Proof using LocalSize_pos.
  rewrite distribute_for_items. apply NoDup_bind; [| |apply NoDup_seq].
  - intros t t' i Ht Ht' Hi Hi'.
    apply elem_of_seq in Ht. apply elem_of_seq in Ht'.
    apply distribute_for_lane_items in Hi as (n & -> & _); [|lia].
    apply distribute_for_lane_items in Hi' as (n' & Heq & _); [|lia].
    assert ((n * LocalSize + t) `mod` LocalSize = (n' * LocalSize + t') `mod` LocalSize)
      as Hm by (by rewrite Heq).
    destruct (div_mod_decompose n t LocalSize ltac:(lia)) as [_ Hm1].
    destruct (div_mod_decompose n' t' LocalSize ltac:(lia)) as [_ Hm2].
    by rewrite Hm1, Hm2 in Hm.
  - intros t Ht. apply elem_of_seq in Ht. apply distribute_for_lane_NoDup. lia.
Qed.
End ScheduleFacts.

Lemma filter_fmap {A B : Type} (f : A → B) (P : B → Prop) `{∀ y, Decision (P y)}
    (l : list A) :
  filter P (f <$> l) = f <$> filter (P ∘ f) l.
Proof.
  induction l as [|x l IH]; [done|]. csimpl. rewrite !filter_cons. simpl.
  destruct (decide (P (f x))); csimpl; by rewrite IH.
Qed.

Lemma filter_ext_elem {A : Type} (P Q : A → Prop) `{∀ x, Decision (P x)}
    `{∀ x, Decision (Q x)} (l : list A) :
  (∀ x, x ∈ l → P x ↔ Q x) → filter P l = filter Q l.
Proof.
  induction l as [|x l IH]; intros HPQ; [done|]. rewrite !filter_cons.
  rewrite IH by (intros; apply HPQ; by right).
  pose proof (HPQ x ltac:(left)). repeat case_decide; tauto.
Qed.

Lemma foldM_join {A B : Type} (f : B → A → option B) (b : B) (ls : list (list A)) :
  foldM f b (mjoin ls) = foldM (λ b l, foldM f b l) b ls.
Proof.
  revert b. induction ls as [|l ls IH]; intros b; [done|]. csimpl.
  rewrite foldM_app. destruct (foldM f b l); simpl; [apply IH | done].
Qed.

Lemma foldM_guarded {A B : Type} (f : B → list A → option B) (g : nat → list A)
    (c k : nat) (b : B) :
  (∀ b, f b [] = Some b) →
  foldM f b ((λ sg, if decide (sg < c) then g sg else []) <$> seq 0 k)
  = foldM f b (g <$> seq 0 (k `min` c)).
Proof.
  intros Hnil. induction k as [|k IH]; [done|].
  rewrite seq_S, fmap_app, foldM_app, IH.
  destruct (decide (k < c)).
  - replace (S k `min` c) with (S (k `min` c)) by lia.
    rewrite seq_S, fmap_app, foldM_app. simpl. rewrite decide_True by done.
    by replace (k `min` c) with k by lia.
  - replace (S k `min` c) with (k `min` c) by lia.
    destruct (foldM f b (g <$> seq 0 (k `min` c))); simpl; [|done].
    rewrite decide_False by done. by rewrite Hnil.
Qed.

Section SubGroupSchedule.
Import Group.
Variables warp_size LocalSize range : nat.
Hypothesis warp_size_pos : 0 < warp_size.
Hypothesis LocalSize_pos : 0 < LocalSize.
Hypothesis LocalSize_warps : LocalSize `mod` warp_size = 0.
Hypothesis range_warps : range `mod` warp_size = 0.

Local Abbreviation call_of_item := (Schedule.call_of_item LocalSize).
Local Abbreviation warp_calls := (Schedule.warp_calls warp_size LocalSize).

Lemma sub_groups_round n sg :
  sg < LocalSize / warp_size →
  filter (λ c, tid c / warp_size = sg)
    (omap (λ lane : list call, lane !! n) (distribute_for LocalSize range))
  = if decide (sg < range / warp_size - n * (LocalSize / warp_size))
    then warp_calls (n * (LocalSize / warp_size) + sg) else [].
Proof using All.
  intros Hsg.
  pose proof (multiple_div LocalSize warp_size warp_size_pos LocalSize_warps) as HK.
  pose proof (multiple_div range warp_size warp_size_pos range_warps) as HW.
  set (K := LocalSize / warp_size) in *. set (W := range / warp_size) in *.
  clearbody K W.
  rewrite lockstep_round by done.
  assert (LocalSize `min` (range - n * LocalSize) = (K `min` (W - n * K)) * warp_size)
    as ->.
  { rewrite HK, HW.
    by rewrite Nat.mul_assoc, <-Nat.mul_sub_distr_r, Nat.mul_min_distr_r. }
  rewrite <-(Nat.add_0_r (n * LocalSize)), <-fmap_add_seq, <-list_fmap_compose.
  rewrite filter_fmap.
  rewrite (filter_ext_elem _ (λ t, t / warp_size = sg)).
  2:{ intros t Ht. apply elem_of_seq in Ht. simpl.
      assert (t < LocalSize) as Ht' by nia.
      destruct (div_mod_decompose n t LocalSize Ht') as [_ ->]. done. }
  rewrite filter_seq_div by done.
  unfold Schedule.warp_calls. case_decide as Hc.
  - replace (warp_size `min` (K `min` (W - n * K) * warp_size - sg * warp_size))
      with warp_size by nia.
    rewrite list_fmap_compose, fmap_add_seq. do 2 f_equal. rewrite HK. lia.
  - replace (warp_size `min` (K `min` (W - n * K) * warp_size - sg * warp_size))
      with 0 by nia.
    done.
Qed.

(** A callback with a collective meets the sub-groups in the order of the
    items they handle; sub-groups without an active lane do nothing. *)
Lemma for_each_sub_group_warps {S : Type} (f : S → list call → option S) (s : S) :
  (∀ s, f s [] = Some s) →
  for_each_sub_group warp_size LocalSize range f s
  = foldM f s (warp_calls <$> seq 0 (range / warp_size)).
Proof using All.
  intros Hnil. unfold for_each_sub_group, lockstep.
  rewrite distribute_for_rounds by done.
  pose proof (multiple_div LocalSize warp_size warp_size_pos LocalSize_warps) as HK.
  pose proof (multiple_div range warp_size warp_size_pos range_warps) as HW.
  destruct (div_ceil_bounds range LocalSize LocalSize_pos) as [HM1 HM2].
  set (K := LocalSize / warp_size) in *. set (W := range / warp_size) in *.
  set (M := div_ceil range LocalSize) in *.
  rewrite <-list_fmap_compose, foldM_join.
  transitivity (foldM (λ s l, foldM f s l) s
    ((λ n, warp_calls <$> seq (n * K) (K `min` (W - n * K))) <$> seq 0 M)).
  - generalize (seq 0 M). intros ns. revert s.
    induction ns as [|n ns IH]; intros s; [done|]. csimpl.
    assert (foldM f s (sub_groups warp_size LocalSize
              (omap (λ lane : list call, lane !! n) (distribute_for LocalSize range)))
            = foldM f s (warp_calls <$> seq (n * K) (K `min` (W - n * K)))) as ->.
    { unfold sub_groups. fold K.
      rewrite (list_fmap_ext _ (λ sg, if decide (sg < W - n * K)
                                      then warp_calls (n * K + sg) else []) (seq 0 K)).
      2:{ intros i sg Hsg. apply lookup_seq in Hsg as [-> Hi].
          apply sub_groups_round. simpl. by fold K. }
      rewrite (foldM_guarded f (λ sg, warp_calls (n * K + sg))) by done.
      by rewrite <-(Nat.add_0_r (n * K)) at 2; rewrite <-fmap_add_seq, <-list_fmap_compose. }
    destruct (foldM f s _); simpl; [apply IH | done].
  - rewrite <-foldM_join.
    replace ((λ n, warp_calls <$> seq (n * K) (K `min` (W - n * K))) <$> seq 0 M)
      with (fmap warp_calls <$> ((λ n, seq (n * K) (K `min` (W - n * K))) <$> seq 0 M))
      by (by rewrite <-list_fmap_compose).
    rewrite <-fmap_join, join_seq_blocks.
    by replace (W `min` (M * K)) with W by nia.
Qed.
End SubGroupSchedule.

(** ** Folds that follow a known sequence of states *)

Lemma foldM_steps {B X : Type} (F : B → X → option B) (st : nat → B) (xs : nat → X)
    (n : nat) :
  (∀ j, j < n → F (st j) (xs j) = Some (st (S j))) →
  foldM F (st 0) (xs <$> seq 0 n) = Some (st n).
Proof.
  intros Hstep. induction n as [|n IH]; [done|].
  rewrite seq_S, fmap_app, foldM_app, IH by (intros; apply Hstep; lia).
  simpl. rewrite Hstep by lia. done.
Qed.

Lemma mapM_fmap_seq {B X : Type} (f : X → option B) (xs : nat → X) (g : nat → B)
    (a n : nat) :
  (∀ i, a ≤ i < a + n → f (xs i) = Some (g i)) →
  mapM f (xs <$> seq a n) = Some (g <$> seq a n).
Proof.
  intros Hf. apply mapM_Some, Forall2_fmap, Forall2_same_length_lookup.
  split; [done|]. intros i x y Hx Hy.
  apply lookup_seq in Hx as [-> ?]. apply lookup_seq in Hy as [-> ?].
  apply Hf. lia.
Qed.

(** ** An array with a run of elements replaced *)

Section Window.
Context {A : Type}.
Implicit Types acc : list A.

Lemma window_0 acc base g : window acc base g 0 = acc.
Proof. unfold window. simpl. rewrite Nat.add_0_r. apply take_drop. Qed.

Lemma window_length acc base g k :
  base + k ≤ length acc → length (window acc base g k) = length acc.
Proof.
  intros. unfold window.
  rewrite !length_app, length_take, length_fmap, length_seq, length_drop. lia.
Qed.

Lemma window_lookup_done acc base g k i :
  base + k ≤ length acc → i < k → window acc base g k !! (base + i) = Some (g i).
Proof.
  intros Hk Hi. unfold window.
  rewrite lookup_app_r by (rewrite length_take; lia).
  rewrite length_take, lookup_app_l by (rewrite length_fmap, length_seq; lia).
  rewrite list_lookup_fmap, lookup_seq_lt by lia. simpl. do 2 f_equal. lia.
Qed.

Lemma window_lookup_todo acc base g k i :
  base + k ≤ length acc → k ≤ i → window acc base g k !! (base + i) = acc !! (base + i).
Proof.
  intros Hk Hi. unfold window.
  rewrite lookup_app_r by (rewrite length_take; lia).
  rewrite length_take, lookup_app_r by (rewrite length_fmap, length_seq; lia).
  rewrite length_fmap, length_seq, lookup_drop. f_equal. lia.
Qed.

Lemma window_store acc base g k :
  base + k < length acc →
  store (window acc base g k) (base + k) (g k) = Some (window acc base g (S k)).
Proof.
  intros Hk. unfold store.
  rewrite decide_True by (rewrite window_length; lia). f_equal.
  unfold window.
  rewrite insert_app_r_alt by (rewrite length_take; lia). f_equal.
  rewrite length_take.
  rewrite insert_app_r_alt by (rewrite length_fmap, length_seq; lia).
  rewrite length_fmap, length_seq, seq_S, fmap_app, <-app_assoc. f_equal.
  destruct (lookup_lt_is_Some_2 acc (base + k) Hk) as [x Hx].
  rewrite (drop_S _ x _ Hx).
  replace (base + k - base `min` length acc - k) with 0 by lia.
  simpl. f_equal. f_equal. lia.
Qed.

Lemma window_ext acc base g g' k :
  (∀ i, i < k → g i = g' i) → window acc base g k = window acc base g' k.
Proof.
  intros Hg. unfold window. do 2 f_equal. apply list_fmap_ext.
  intros i x Hx. apply lookup_seq in Hx as [-> ?]. by apply Hg.
Qed.

(** The part of the array a window covers. *)
Lemma window_take_drop acc base g k :
  base + k ≤ length acc → take k (drop base (window acc base g k)) = g <$> seq 0 k.
Proof.
  intros Hk. unfold window.
  rewrite drop_app_length' by (rewrite length_take; lia).
  rewrite take_app_length' by (rewrite length_fmap, length_seq; lia). done.
Qed.

Lemma take_drop_fmap_seq (d : A) acc base k :
  base + k ≤ length acc →
  take k (drop base acc) = (λ i, default d (acc !! (base + i))) <$> seq 0 k.
Proof.
  intros Hk. apply list_eq. intros i.
  rewrite lookup_take, lookup_drop, list_lookup_fmap.
  destruct (decide (i < k)) as [Hi|Hi].
  - rewrite lookup_seq_lt by done. simpl.
    destruct (lookup_lt_is_Some_2 acc (base + i) ltac:(lia)) as [x ->]. done.
  - rewrite lookup_seq_ge by lia. done.
Qed.

Lemma window_self (d : A) acc base k :
  base + k ≤ length acc →
  window acc base (λ i, default d (acc !! (base + i))) k = acc.
Proof.
  intros Hk. unfold window. rewrite <-take_drop_fmap_seq by done.
  rewrite <-(take_drop base acc) at 4. f_equal.
  rewrite <-(take_drop k (drop base acc)) at 2. f_equal.
  rewrite drop_drop. done.
Qed.
(** Replacing the next [n] elements after a window of [k]. *)
Lemma window_extend acc base f k out n :
  base + k + n ≤ length acc →
  window (window acc base f k) (base + k) out n
  = window acc base (λ i, if decide (i < k) then f i else out (i - k)) (k + n).
Proof.
  intros Hlen. unfold window at 1 3.
  assert (take (base + k) (window acc base f k) = take base acc ++ (f <$> seq 0 k)) as ->.
  { unfold window. rewrite app_assoc, take_app_length'; [done|].
    rewrite length_app, length_take, length_fmap, length_seq. lia. }
  assert (drop (base + k + n) (window acc base f k) = drop (base + (k + n)) acc) as ->.
  { unfold window. rewrite app_assoc, drop_app_ge
      by (rewrite length_app, length_take, length_fmap, length_seq; lia).
    rewrite length_app, length_take, length_fmap, length_seq, drop_drop. f_equal. lia. }
  rewrite <-app_assoc. f_equal. rewrite app_assoc. f_equal.
  rewrite seq_app, fmap_app. f_equal.
  - apply list_fmap_ext. intros i x Hx. apply lookup_seq in Hx as [-> ?].
    by rewrite decide_True by lia.
  - simpl. rewrite <-(Nat.add_0_r k) at 1. rewrite <-fmap_add_seq, <-list_fmap_compose.
    apply list_fmap_ext. intros i x Hx. apply lookup_seq in Hx as [-> ?]. simpl.
    rewrite decide_False by lia. f_equal. lia.
Qed.
Lemma window0_lookup_done acc g k i :
  k ≤ length acc → i < k → window acc 0 g k !! i = Some (g i).
Proof. intros. by apply (window_lookup_done acc 0 g k i). Qed.

Lemma window0_lookup_todo acc g k i :
  k ≤ length acc → k ≤ i → window acc 0 g k !! i = acc !! i.
Proof. intros. by apply (window_lookup_todo acc 0 g k i). Qed.

Lemma window0_store acc g k :
  k < length acc → store (window acc 0 g k) k (g k) = Some (window acc 0 g (S k)).
Proof. intros. by apply (window_store acc 0 g k). Qed.

Lemma window0_extend acc f k out n :
  k + n ≤ length acc →
  window (window acc 0 f k) k out n
  = window acc 0 (λ i, if decide (i < k) then f i else out (i - k)) (k + n).
Proof. intros. by apply (window_extend acc 0 f k out n). Qed.
Lemma window_lookup acc base g k j :
  base + k ≤ length acc →
  window acc base g k !! j
  = if decide (j < base) then acc !! j
    else if decide (j < base + k) then Some (g (j - base)) else acc !! j.
Proof.
  intros Hk. repeat case_decide.
  - unfold window. rewrite lookup_app_l by (rewrite length_take; lia).
    by rewrite lookup_take_lt.
  - replace j with (base + (j - base)) at 1 by lia.
    by rewrite window_lookup_done by lia.
  - replace j with (base + (j - base)) by lia.
    by rewrite window_lookup_todo by lia.
Qed.

Lemma window_all acc g : window acc 0 g (length acc) = g <$> seq 0 (length acc).
Proof.
  unfold window. simpl. by rewrite drop_all, app_nil_r.
Qed.
End Window.

Section Element.
Import Algebra.
Context {Scalar : Type}.
Variable zero : Scalar.
Local Abbreviation element := (Algebra.element zero).

Lemma element_window_todo (acc : list Scalar) base g k b i :
  base + k ≤ length acc → base + k ≤ b + i →
  element (window acc base g k) b i = element acc b i.
Proof.
  intros Hk Hi. unfold Algebra.element.
  replace (b + i) with (base + (b + i - base)) by lia.
  by rewrite window_lookup_todo by lia.
Qed.

Lemma element_window_done (acc : list Scalar) base g k i :
  base + k ≤ length acc → i < k → element (window acc base g k) base i = g i.
Proof.
  intros Hk Hi. unfold Algebra.element. by rewrite window_lookup_done.
Qed.

Lemma element_shift (acc : list Scalar) b i : element acc b i = element acc 0 (b + i).
Proof. done. Qed.
End Element.

(** ** Algebra of the inclusive scan *)

Section ScanAlgebra.
Import GroupScan Algebra.
Context {Scalar : Type}.
Variable op : Scalar → Scalar → Scalar.
Implicit Types p : nat → Scalar.

Local Abbreviation psum := (Algebra.psum op).
Local Abbreviation inclusive_scan := (GroupScan.inclusive_scan op).
Local Abbreviation scan_from := (GroupScan.scan_from op).

Lemma scan_from_seq p a k m :
  scan_from (psum p a k) (p <$> seq (a + S k) m) = psum p a <$> seq (S k) m.
Proof.
  revert k. induction m as [|m IH]; intros k; [done|]. csimpl. f_equal.
  rewrite <-(IH (S k)). by replace (a + S (S k)) with (S (a + S k)) by lia.
Qed.

(** The scan of [p(a), ..., p(a + n - 1)]. *)
Lemma inclusive_scan_seq p a n :
  inclusive_scan (p <$> seq a n) = psum p a <$> seq 0 n.
Proof.
  destruct n as [|n]; [done|]. csimpl. f_equal.
  rewrite <-scan_from_seq. by replace (a + 1) with (S a) by lia.
Qed.

Lemma psum_ext p q a j :
  (∀ i, a ≤ i ≤ a + j → p i = q i) → psum p a j = psum q a j.
Proof.
  induction j as [|j IH]; intros Hpq; simpl.
  - apply Hpq. lia.
  - rewrite IH by (intros; apply Hpq; lia). f_equal. apply Hpq. lia.
Qed.

Lemma psum_shift p a b j : psum p (a + b) j = psum (λ i, p (a + i)) b j.
Proof.
  induction j as [|j IH]; simpl; [done|]. rewrite IH. do 2 f_equal. lia.
Qed.

Lemma length_inclusive_scan (l : list Scalar) : length (inclusive_scan l) = length l.
Proof.
  destruct l as [|x l]; [done|]. simpl. f_equal.
  generalize x. induction l as [|y l IH]; intros x'; simpl; [done|]. by rewrite IH.
Qed.

Lemma inclusive_scan_elements (zero : Scalar) (l : list Scalar) :
  inclusive_scan l = psum (Algebra.element zero l 0) 0 <$> seq 0 (length l).
Proof.
  rewrite <-inclusive_scan_seq. f_equal.
  transitivity (take (length l) (drop 0 l)); [by rewrite drop_0, firstn_all|].
  by apply take_drop_fmap_seq.
Qed.

Section Assoc.
Hypothesis op_assoc : ∀ a b c, op a (op b c) = op (op a b) c.

Lemma psum_split p a j k :
  psum p a (j + S k) = op (psum p a j) (psum p (a + S j) k).
Proof using op_assoc.
  induction k as [|k IH].
  - replace (j + 1) with (S j) by lia. simpl. do 2 f_equal.
  - replace (j + S (S k)) with (S (j + S k)) by lia. simpl.
    rewrite IH, <-op_assoc. do 3 f_equal. lia.
Qed.

(** Combining the totals of the first [w + 1] runs of [ws] elements gives
    the total of the elements they cover. *)
Lemma psum_totals p ws w :
  0 < ws →
  psum (λ v, psum p (v * ws) (ws - 1)) 0 w = psum p 0 (w * ws + (ws - 1)).
Proof using op_assoc.
  intros Hws. induction w as [|w IH]; simpl; [done|].
  rewrite IH.
  replace (ws + w * ws + (ws - 1)) with (w * ws + (ws - 1) + S (ws - 1)) by lia.
  rewrite psum_split. do 2 f_equal. lia.
Qed.
(** With an associative and commutative operator the carried values
    are the prefix combinations. *)
Lemma carried_prefix ws p scanned i :
  0 < ws →
  (∀ a b, op a b = op b a) →
  (ws ≤ i → scanned (i / ws - 1) = psum (Algebra.warp_total op ws p) 0 (i / ws - 1)) →
  Algebra.carried op ws p scanned i = psum p 0 i.
Proof using op_assoc.
  intros Hws Hcomm Hsc. unfold Algebra.carried, Algebra.warp_scan.
  pose proof (Nat.div_mod i ws ltac:(lia)) as Hdm.
  pose proof (Nat.mod_upper_bound i ws ltac:(lia)) as Hub.
  case_decide as Hc.
  - rewrite Hsc by done. unfold Algebra.warp_total.
    rewrite psum_totals by done. rewrite Hcomm.
    assert (1 ≤ i / ws) by (apply Nat.div_le_lower_bound; lia).
    replace (i / ws * ws) with (0 + S ((i / ws - 1) * ws + (ws - 1))) by nia.
    rewrite <-psum_split. f_equal. nia.
  - rewrite Nat.div_small, Nat.mod_small by lia. done.
Qed.
End Assoc.
End ScanAlgebra.

Lemma zip_fmap_seq {A B : Type} (f : nat → A) (g : nat → B) (a b n : nat) :
  zip (f <$> seq a n) (g <$> seq b n) = (λ j, (f (a + j), g (b + j))) <$> seq 0 n.
Proof.
  revert a b. induction n as [|n IH]; intros a b; [done|]. csimpl.
  rewrite !Nat.add_0_r. f_equal.
  rewrite IH, <-fmap_S_seq, <-list_fmap_compose. apply list_fmap_ext.
  intros i x _. simpl. f_equal; f_equal; lia.
Qed.

(** ** The local-memory layout *)

Section Allocation.
Import GroupScan.
Variable warp_size : nat.
Hypothesis warp_size_ge_2 : 2 ≤ warp_size.

Lemma inclusive_scan_local_allocation_fuel_enough fuel fuel' Range :
  Range ≤ fuel → Range ≤ fuel' →
  inclusive_scan_local_allocation_fuel warp_size fuel Range
  = inclusive_scan_local_allocation_fuel warp_size fuel' Range.
Proof using warp_size_ge_2.
  revert fuel' Range. induction fuel as [|fuel IH]; intros fuel' Range Hf Hf'.
  - destruct fuel'; simpl; rewrite !decide_True by lia; done.
  - destruct fuel' as [|fuel']; simpl.
    + rewrite !decide_True by lia. done.
    + case_decide; [done|]. f_equal.
      pose proof (div_ceil_lt Range warp_size warp_size_ge_2 ltac:(lia)).
      apply IH; lia.
Qed.

(** Template instantiation terminates: the layout satisfies the equation
    the two declarations of the struct spell out. *)
Lemma inclusive_scan_local_allocation_unfold Range :
  inclusive_scan_local_allocation warp_size Range
  = if decide (Range ≤ warp_size) then empty_struct Range
    else nested_struct Range (div_ceil Range warp_size)
           (inclusive_scan_local_allocation warp_size (div_ceil Range warp_size)).
Proof using warp_size_ge_2.
  unfold inclusive_scan_local_allocation.
  destruct Range as [|Range]; [done|].
  simpl. case_decide; [done|]. f_equal.
  pose proof (div_ceil_lt (S Range) warp_size warp_size_ge_2 ltac:(lia)).
  apply inclusive_scan_local_allocation_fuel_enough; lia.
Qed.

Lemma terminal_range_le Range :
  terminal_range (inclusive_scan_local_allocation warp_size Range) ≤ warp_size.
Proof using warp_size_ge_2.
  induction (lt_wf Range) as [Range _ IH].
  rewrite inclusive_scan_local_allocation_unfold.
  case_decide; simpl; [done|].
  apply IH. apply div_ceil_lt; lia.
Qed.
End Allocation.

(** ** The group-local scan *)

Section GroupScanFacts.
Import Group GroupScan Algebra.
Context {Scalar : Type}.
Variable op : Scalar → Scalar → Scalar.
Variable zero : Scalar.
Variables warp_size LocalSize : nat.
Hypothesis warp_size_pos : 0 < warp_size.
Hypothesis LocalSize_pos : 0 < LocalSize.
Hypothesis LocalSize_warps : LocalSize `mod` warp_size = 0.

Local Abbreviation call_of_item := (Schedule.call_of_item LocalSize).
Local Abbreviation warp_calls := (Schedule.warp_calls warp_size LocalSize).
Local Abbreviation psum := (Algebra.psum op).
Local Abbreviation element := (Algebra.element zero).
Local Abbreviation padded := (Algebra.padded zero).
Local Abbreviation inclusive_scan := (GroupScan.inclusive_scan op).

Lemma padded_reads_warp Range acc base w :
  base + Range ≤ length acc →
  padded_reads zero Range acc base (warp_calls w)
  = Some (padded Range acc base <$> seq (w * warp_size) warp_size).
Proof.
  intros Hlen. unfold padded_reads, Schedule.warp_calls.
  apply mapM_fmap_seq. intros i Hi. simpl. unfold Algebra.padded, Algebra.element.
  case_decide; [|done].
  destruct (lookup_lt_is_Some_2 acc (base + i) ltac:(lia)) as [x ->]. done.
Qed.

Lemma inclusive_scan_over_group_base_eq Range lm acc base :
  Range ≤ warp_size →
  inclusive_scan_over_group warp_size op zero LocalSize Range lm acc base
  = acc' ← for_each_sub_group warp_size LocalSize (ceil Range warp_size)
             (base_case_callback op zero Range base) acc;
    Some (acc', lm).
Proof. intros HR. destruct lm; simpl; rewrite decide_True by done; done. Qed.

Lemma inclusive_scan_over_group_rec_eq Range coarse next acc base :
  ¬ Range ≤ warp_size →
  inclusive_scan_over_group warp_size op zero LocalSize Range (lm_nested coarse next) acc base
  = st ← for_each_sub_group warp_size LocalSize (ceil Range warp_size)
           (fine_callback warp_size op zero LocalSize Range base acc) (∅, coarse);
    r ← inclusive_scan_over_group warp_size op zero LocalSize (div_ceil Range warp_size)
          next st.2 0;
    acc' ← for_each_call LocalSize Range (carry_callback warp_size op base st.1 r.1) acc;
    Some (acc', lm_nested r.1 r.2).
Proof. intros HR. simpl. rewrite decide_False by done. done. Qed.

(** The base case scans the first [Range] elements and leaves every other
    element alone, whatever the padding value is. *)
Lemma base_case_spec Range lm acc base :
  Range ≤ warp_size → base + Range ≤ length acc →
  inclusive_scan_over_group warp_size op zero LocalSize Range lm acc base
  = Some (window acc base (psum (element acc base) 0) Range, lm).
Proof using All.
  intros HR Hlen. rewrite inclusive_scan_over_group_base_eq by done.
  rewrite for_each_sub_group_warps; [|done|done|done|by apply ceil_mod|done].
  rewrite ceil_div by done.
  destruct (decide (Range = 0)) as [->|Hpos].
  { rewrite div_ceil_0 by done. simpl. by rewrite window_0. }
  rewrite div_ceil_small by lia. simpl.
  unfold base_case_callback. rewrite padded_reads_warp by done. simpl.
  unfold sub_group_inclusive_scan. rewrite inclusive_scan_seq.
  unfold Schedule.warp_calls. rewrite zip_fmap_seq.
  set (G := psum (padded Range acc base) 0).
  rewrite <-(window_0 acc base G) at 1.
  rewrite (foldM_steps _ (λ j, window acc base G (j `min` Range))
             (λ j, (call_of_item (0 + j), G (0 + j)))).
  - simpl. do 2 f_equal. replace (warp_size `min` Range) with Range by lia.
    apply window_ext. intros i Hi. apply psum_ext. intros i' Hi'.
    unfold Algebra.padded. rewrite decide_True by lia. done.
  - intros j Hj. simpl. case_decide.
    + replace (j `min` Range) with j by lia.
      replace (S j `min` Range) with (S j) by lia.
      apply window_store. lia.
    + do 2 f_equal. lia.
Qed.

(** *** The recursive case *)

Local Abbreviation warp_scan := (Algebra.warp_scan op warp_size).
Local Abbreviation warp_total := (Algebra.warp_total op warp_size).
Local Abbreviation fine_upto := (Algebra.fine_upto op warp_size LocalSize).
Local Abbreviation carried := (Algebra.carried op warp_size).

(** Every fold iteration of the first callback has a slot in [fine]. *)
Lemma iteration_in_fine Range i :
  i < ceil Range warp_size → i / LocalSize < div_ceil Range LocalSize.
Proof.
  intros Hi. apply Nat.Div0.div_lt_upper_bound.
  pose proof (multiple_div LocalSize warp_size warp_size_pos LocalSize_warps) as HK.
  destruct (div_ceil_bounds Range LocalSize LocalSize_pos) as [H1 _].
  destruct (ceil_bounds Range warp_size warp_size_pos) as [_ H2].
  unfold ceil in *.
  set (m := div_ceil Range LocalSize) in *. set (W := div_ceil Range warp_size) in *.
  set (K := LocalSize / warp_size) in *. clearbody m W K.
  assert (W ≤ m * K) by (rewrite HK in H1; nia).
  rewrite HK. nia.
Qed.

Lemma fine_upto_S p k :
  fine_upto p (S k)
  = <[(k `mod` LocalSize, k / LocalSize) := warp_scan p k]> (fine_upto p k).
Proof. unfold Algebra.fine_upto. by rewrite seq_S, foldl_app. Qed.

Lemma fine_upto_lookup p k i :
  i < k → fine_upto p k !! (i `mod` LocalSize, i / LocalSize) = Some (warp_scan p i).
Proof.
  induction k as [|k IH]; intros Hi; [lia|]. rewrite fine_upto_S.
  destruct (decide (i = k)) as [->|Hne]; [by rewrite lookup_insert_eq|].
  rewrite lookup_insert_ne; [apply IH; lia|].
  intros [= Hm Hd]. apply Hne.
  rewrite (Nat.div_mod i LocalSize), (Nat.div_mod k LocalSize) by lia. by rewrite Hm, Hd.
Qed.

Lemma fine_callback_nil Range base acc st :
  fine_callback warp_size op zero LocalSize Range base acc st [] = Some st.
Proof. done. Qed.

(** The first callback on the [w]-th sub-group. *)
Lemma fine_callback_warp Range acc base coarse w :
  base + Range ≤ length acc →
  w < div_ceil Range warp_size →
  length coarse = div_ceil Range warp_size →
  let p := padded Range acc base in
  fine_callback warp_size op zero LocalSize Range base acc
    (fine_upto p (w * warp_size), window coarse 0 (warp_total p) w) (warp_calls w)
  = Some (fine_upto p (S w * warp_size), window coarse 0 (warp_total p) (S w)).
Proof.
  intros Hlen Hw Hcoarse p. unfold fine_callback.
  rewrite padded_reads_warp by done. fold p. clearbody p. simpl.
  unfold sub_group_inclusive_scan. rewrite inclusive_scan_seq.
  unfold Schedule.warp_calls. rewrite zip_fmap_seq.
  set (st' := λ j, (fine_upto p (w * warp_size + j),
                    window coarse 0 (warp_total p)
                      (if decide (j < warp_size) then w else S w))).
  replace (fine_upto p (w * warp_size), window coarse 0 (warp_total p) w)
    with (st' 0)
    by (unfold st'; rewrite Nat.add_0_r, decide_True by done; done).
  transitivity (Some (st' warp_size)).
  2:{ unfold st'. rewrite decide_False by lia. do 3 f_equal. lia. }
  apply (foldM_steps _ st'). intros j Hj. unfold st'. simpl.
  destruct (div_mod_decompose w j warp_size Hj) as [Hd Hm].
  rewrite decide_True.
  2:{ apply iteration_in_fine. unfold ceil. nia. }
  rewrite Hd, Hm, (decide_True _ _ Hj).
  replace (w * warp_size + S j) with (S (w * warp_size + j)) by lia.
  rewrite fine_upto_S. unfold Algebra.warp_scan. rewrite Hd, Hm.
  case_decide as Hlast.
  - rewrite decide_False by lia. rewrite Hlast.
    pose proof (window_store coarse 0 (warp_total p) w ltac:(lia)) as Hst.
    simpl in Hst. unfold Algebra.warp_total at 2 in Hst. rewrite Hst. done.
  - rewrite decide_True by lia. done.
Qed.

(** The second callback on the lane of item [i]. *)
Lemma carry_callback_item Range acc base p k (cc : list Scalar) scanned i :
  base + Range ≤ length acc → i < Range → i < k →
  div_ceil Range warp_size ≤ length cc →
  carry_callback warp_size op base (fine_upto p k)
    (window cc 0 scanned (div_ceil Range warp_size))
    (window acc base (carried p scanned) i) (call_of_item i)
  = Some (window acc base (carried p scanned) (S i)).
Proof.
  intros Hlen Hi Hk Hcc. unfold carry_callback. simpl.
  rewrite fine_upto_lookup by done. simpl.
  assert (store (window acc base (carried p scanned) i) (base + i) (carried p scanned i)
          = Some (window acc base (carried p scanned) (S i))) as Hst
    by (apply window_store; lia).
  case_decide as Hc.
  - pose proof (window_lookup_done cc 0 scanned (div_ceil Range warp_size)
                  (i / warp_size - 1) Hcc) as Hlk.
    simpl in Hlk. rewrite Hlk.
    + simpl. rewrite <-Hst. f_equal. unfold Algebra.carried. by rewrite decide_True.
    + destruct (div_ceil_bounds Range warp_size warp_size_pos) as [Hb _].
      assert (i / warp_size < div_ceil Range warp_size)
        by (apply Nat.Div0.div_lt_upper_bound; lia).
      lia.
  - simpl. rewrite <-Hst. f_equal. unfold Algebra.carried. by rewrite decide_False.
Qed.

Hypothesis warp_size_ge_2 : 2 ≤ warp_size.

(** The scan of a group succeeds on an array that holds the [Range]
    elements, and touches nothing else; what it leaves in the array is the
    inclusive scan when the operator is associative and commutative. *)
Lemma inclusive_scan_over_group_spec Range :
  ∀ lm acc base,
    has_type lm (inclusive_scan_local_allocation warp_size Range) →
    base + Range ≤ length acc →
    ∃ out lm',
      inclusive_scan_over_group warp_size op zero LocalSize Range lm acc base
      = Some (window acc base out Range, lm')
      ∧ ((∀ a b c, op a (op b c) = op (op a b) c) →
         (∀ a b, op a b = op b a) →
         ∀ i, i < Range → out i = psum (element acc base) 0 i).
Proof.
  induction (lt_wf Range) as [Range _ IH]. intros lm acc base Hty Hlen.
  destruct (decide (Range ≤ warp_size)) as [HR|HR].
  { eexists _, lm. split; [by apply base_case_spec|]. done. }
  rewrite inclusive_scan_local_allocation_unfold in Hty by done.
  rewrite decide_False in Hty by done.
  destruct lm as [|coarse next]; [done|]. destruct Hty as [Hcoarse Hnext].
  rewrite inclusive_scan_over_group_rec_eq by done.
  set (p := padded Range acc base). set (W := div_ceil Range warp_size) in *.
  destruct (div_ceil_bounds Range warp_size warp_size_pos) as [HW1 HW2]. fold W in HW1, HW2.
  (* first pass: fine values and sub-group totals *)
  rewrite for_each_sub_group_warps;
    [|done|done|done|by apply ceil_mod|by intros; apply fine_callback_nil].
  rewrite ceil_div by done. fold W.
  assert (foldM (fine_callback warp_size op zero LocalSize Range base acc) (∅, coarse)
            (warp_calls <$> seq 0 W)
          = Some (fine_upto p (W * warp_size), window coarse 0 (warp_total p) W)) as ->.
  { rewrite <-(window_0 coarse 0 (warp_total p)) at 1.
    apply (foldM_steps _ (λ w, (fine_upto p (w * warp_size),
                                window coarse 0 (warp_total p) w))).
    intros w Hw. by apply fine_callback_warp. }
  simpl.
  (* the scan of the totals *)
  destruct (IH W ltac:(apply div_ceil_lt; lia) next (window coarse 0 (warp_total p) W) 0
              Hnext ltac:(rewrite window_length; lia))
    as (scanned & next' & -> & Hscanned).
  simpl.
  (* second pass: the carries *)
  unfold for_each_call. rewrite lockstep_distribute_for by done.
  assert (foldM (carry_callback warp_size op base (fine_upto p (W * warp_size))
                   (window (window coarse 0 (warp_total p) W) 0 scanned W))
            acc (call_of_item <$> seq 0 Range)
          = Some (window acc base (carried p scanned) Range)) as ->.
  { rewrite <-(window_0 acc base (carried p scanned)) at 1.
    apply (foldM_steps _ (λ i, window acc base (carried p scanned) i)).
    intros i Hi. apply carry_callback_item; [done|done|lia|].
    rewrite window_length; lia. }
  simpl. eexists _, _. split; [done|].
  intros Hassoc Hcomm i Hi.
  rewrite (carried_prefix op Hassoc warp_size p scanned i warp_size_pos Hcomm).
  - apply psum_ext. intros i' Hi'. unfold p, Algebra.padded.
    rewrite decide_True by lia. done.
  - intros Hc.
    assert (i / warp_size < W) by (apply Nat.Div0.div_lt_upper_bound; lia).
    rewrite Hscanned by (done || lia).
    apply psum_ext. intros v Hv. unfold Algebra.element.
    pose proof (window_lookup_done coarse 0 (warp_total p) W v ltac:(lia) ltac:(lia)) as Hlk.
    simpl in Hlk. simpl. by rewrite Hlk.
Qed.
End GroupScanFacts.

(** ** The kernels of the hierarchical scan *)

Lemma local_size_pos : 0 < Hierarchical.local_size.
Proof. unfold Hierarchical.local_size. lia. Qed.

#[local] Opaque Hierarchical.local_size.

Section KernelFacts.
Import Group GroupScan Algebra Hierarchical.
Context {Scalar : Type}.
Variable op : Scalar → Scalar → Scalar.
Variable zero : Scalar.
Variables warp_size granularity : nat.
Hypothesis granularity_pos : 0 < granularity.

Local Abbreviation psum := (Algebra.psum op).
Local Abbreviation element := (Algebra.element zero).
Local Abbreviation G := granularity.

Local Abbreviation expanded := (Algebra.expanded op zero granularity).

(** One group of the expansion: every element of block [group_index + 1]
    is combined with the carry [small_acc[group_index]]. *)
Lemma expansion_kernel_spec small g big :
  (g + 2) * G ≤ length big → g < length small →
  expansion_kernel G op small g big
  = Some (window big ((g + 1) * G)
            (λ i, op (element big ((g + 1) * G) i) (element small 0 g)) G).
Proof.
  intros Hbig Hsmall. unfold expansion_kernel.
  destruct (lookup_lt_is_Some_2 small g Hsmall) as [x Hx].
  rewrite Hx. simpl. unfold Algebra.element at 2. simpl. rewrite Hx. simpl.
  unfold for_each_call. rewrite lockstep_distribute_for by apply local_size_pos.
  set (E := λ i, op (element big ((g + 1) * G) i) x).
  rewrite <-(window_0 big ((g + 1) * G) E) at 1.
  apply (foldM_steps _ (λ i, window big ((g + 1) * G) E i)).
  intros i Hi. simpl.
  rewrite window_lookup_todo by lia.
  destruct (lookup_lt_is_Some_2 big ((g + 1) * G + i) ltac:(lia)) as [y Hy].
  rewrite Hy. simpl.
  replace (op y x) with (E i) by (unfold E, Algebra.element; by rewrite Hy).
  apply window_store. lia.
Qed.

(** The whole launch of the expansion at one level. *)
Lemma expansion_launch_spec small big m :
  length big = m * G → 1 ≤ m → m - 1 ≤ length small →
  parallel (m - 1) (expansion_kernel G op small) big
  = Some (window big G (expanded big small) ((m - 1) * G)).
Proof.
  intros Hbig Hm Hsmall. unfold parallel.
  rewrite <-(list_fmap_id (seq 0 (m - 1))).
  rewrite <-(window_0 big G (expanded big small)) at 1.
  apply (foldM_steps _ (λ g, window big G (expanded big small) (g * G))).
  intros g Hg. simpl.
  rewrite expansion_kernel_spec by (rewrite ?window_length; nia).
  f_equal.
  replace ((g + 1) * G) with (G + g * G) by lia.
  rewrite window_extend by nia.
  replace (g * G + G) with (G + g * G) by lia.
  apply window_ext. intros i Hi. case_decide as Hc; [done|].
  unfold Algebra.expanded. f_equal.
  - unfold Algebra.element.
    replace (G + g * G + (i - g * G)) with (G + i) by lia.
    by rewrite window_lookup_todo by nia.
  - f_equal. symmetry. apply div_eq_iff; [done|]. lia.
Qed.
End KernelFacts.

Section ReductionFacts.
Import Group GroupScan Algebra Hierarchical.
Context {Scalar : Type}.
Variable op : Scalar → Scalar → Scalar.
Variable zero : Scalar.
Variables warp_size granularity : nat.
Hypothesis warp_size_ge_2 : 2 ≤ warp_size.
Hypothesis local_size_warps : local_size `mod` warp_size = 0.
Hypothesis granularity_pos : 0 < granularity.

Local Abbreviation psum := (Algebra.psum op).
Local Abbreviation element := (Algebra.element zero).
Local Abbreviation G := granularity.
Local Abbreviation block_scan := (Algebra.warp_scan op granularity).
Local Abbreviation block_total := (Algebra.warp_total op granularity).
Local Abbreviation layout := (inclusive_scan_local_allocation warp_size granularity).

(** One group of the reduction scans its block in place and stores the
    last element of the block in its slot of the small buffer. *)
Lemma reduction_kernel_spec lm g big small :
  has_type lm layout → (g + 1) * G ≤ length big → g < length small →
  ∃ out,
    reduction_kernel warp_size G op zero lm g (big, small)
    = Some (window big (g * G) out G, <[g := out (G - 1)]> small)
    ∧ ((∀ a b c, op a (op b c) = op (op a b) c) →
       (∀ a b, op a b = op b a) →
       ∀ i, i < G → out i = psum (element big (g * G)) 0 i).
Proof.
  intros Hty Hbig Hsmall. unfold reduction_kernel. simpl.
  destruct (inclusive_scan_over_group_spec op zero warp_size local_size
              ltac:(lia) local_size_pos local_size_warps warp_size_ge_2
              G lm big (g * G) Hty ltac:(lia))
    as (out & lm' & -> & Hout).
  simpl. rewrite window_lookup_done by lia. simpl.
  unfold store. rewrite decide_True by done. simpl.
  by exists out.
Qed.

(** The launch of the reduction never leaves the two buffers. *)
Lemma reduction_launch_ok (lms : nat → local_allocation Scalar) big small m k :
  (∀ g, has_type (lms g) layout) →
  length big = m * G → m ≤ length small → k ≤ m →
  ∃ big' small',
    parallel k (λ g, reduction_kernel warp_size G op zero (lms g) g) (big, small)
    = Some (big', small')
    ∧ length big' = length big ∧ length small' = length small.
Proof.
  intros Hty Hbig Hsmall. unfold parallel. induction k as [|k IH]; intros Hk.
  { by exists big, small. }
  destruct IH as (big1 & small1 & Hrun & Hb1 & Hs1); [lia|].
  rewrite seq_S, foldM_app, Hrun. simpl.
  destruct (reduction_kernel_spec (lms k) k big1 small1 (Hty k) ltac:(nia) ltac:(lia))
    as (out & -> & _).
  eexists _, _. split; [done|].
  rewrite window_length, length_insert by nia. done.
Qed.

Section Laws.
Hypothesis op_assoc : ∀ a b c, op a (op b c) = op (op a b) c.
Hypothesis op_comm : ∀ a b, op a b = op b a.

(** With an associative and commutative operator the launch leaves the
    scan of every block in the big buffer and the block totals in the
    small one. *)
Lemma reduction_launch_scan (lms : nat → local_allocation Scalar) big small m :
  (∀ g, has_type (lms g) layout) →
  length big = m * G → m ≤ length small →
  parallel m (λ g, reduction_kernel warp_size G op zero (lms g) g) (big, small)
  = Some (window big 0 (block_scan (element big 0)) (m * G),
          window small 0 (block_total (element big 0)) m).
Proof.
  intros Hty Hbig Hsmall. unfold parallel.
  set (p := element big 0).
  rewrite <-(list_fmap_id (seq 0 m)).
  rewrite <-(window_0 big 0 (block_scan p)) at 1.
  rewrite <-(window_0 small 0 (block_total p)) at 1.
  apply (foldM_steps _ (λ g, (window big 0 (block_scan p) (g * G),
                              window small 0 (block_total p) g))).
  intros g Hg. simpl.
  destruct (reduction_kernel_spec (lms g) g (window big 0 (block_scan p) (g * G))
              (window small 0 (block_total p) g) (Hty g)
              ltac:(rewrite window_length; nia) ltac:(rewrite window_length; lia))
    as (out & -> & Hout).
  specialize (Hout op_assoc op_comm).
  assert (∀ i, i < G → out i = psum p (g * G) i) as Hout'.
  { intros i Hi. rewrite Hout by done.
    transitivity (psum p (g * G + 0) i); [|by rewrite Nat.add_0_r].
    rewrite psum_shift. apply psum_ext. intros i' Hi'.
    rewrite element_window_todo by nia. done. }
  f_equal. f_equal.
  - rewrite window0_extend by nia.
    replace (G + g * G) with (g * G + G) by lia.
    apply window_ext. intros i Hi. case_decide as Hc; [done|].
    rewrite Hout' by lia. unfold Algebra.warp_scan.
    assert (i / G = g) as -> by (apply div_eq_iff; [done|lia]).
    f_equal. pose proof (Nat.div_mod i G ltac:(lia)) as Hdm.
    assert (i / G = g) as Hq by (apply div_eq_iff; [done|lia]). nia.
  - pose proof (window0_store small (block_total p) g ltac:(lia)) as Hst.
    unfold store in Hst.
    rewrite decide_True in Hst by (rewrite window_length; lia).
    injection Hst as <-. f_equal. rewrite Hout' by lia. done.
Qed.
End Laws.
End ReductionFacts.

(** ** Submission *)

Section SubmitFacts.
Import Profiling.
Context {CGF : Type}.
Implicit Types (q : queue CGF) (out : list profile_line).

Lemma submit_and_profile_submit verbose q out label (cgf : CGF) :
  (submit_and_profile verbose q out label cgf).1 = submit q cgf.
Proof.
  unfold submit_and_profile. destruct (verbose && enable_profiling q); done.
Qed.

Lemma submit_and_profile_silent verbose q out label (cgf : CGF) :
  verbose = false ∨ enable_profiling q = false →
  (submit_and_profile verbose q out label cgf).2 = out.
Proof.
  intros Hoff. unfold submit_and_profile.
  replace (verbose && enable_profiling q) with false; [done|].
  destruct Hoff as [-> | ->]; [done|]. by rewrite andb_false_r.
Qed.

(** A loop that submits one command group per element of [l]. *)
Lemma submit_loop (verbose : bool) (label : nat → string) (cgf : nat → CGF) l q out :
  let s := foldl (λ s i, let '(_, q', out') :=
                           submit_and_profile verbose s.1 s.2 (label i) (cgf i) in
                         (q', out')) (q, out) l in
  submitted s.1 = submitted q ++ (cgf <$> l)
  ∧ enable_profiling s.1 = enable_profiling q
  ∧ (verbose = false ∨ enable_profiling q = false → s.2 = out).
Proof.
  revert q out. induction l as [|i l IH]; intros q out; simpl.
  { by rewrite app_nil_r. }
  pose proof (submit_and_profile_submit verbose q out (label i) (cgf i)) as Hs.
  pose proof (submit_and_profile_silent verbose q out (label i) (cgf i)) as Ho.
  destruct (submit_and_profile verbose q out (label i) (cgf i)) as [[evt q'] out'].
  simpl in *. injection Hs as _ ->.
  destruct (IH (submit q (cgf i)).2 out') as (IH1 & IH2 & IH3).
  simpl in *. rewrite IH1, IH2, <-app_assoc. repeat split; [done..|].
  intros Hoff. rewrite IH3 by done. by apply Ho.
Qed.
Lemma submit_each_facts (verbose : bool) (jobs : list (string * CGF)) q out :
  submitted (submit_each verbose q out jobs).1 = submitted q ++ jobs.*2
  ∧ enable_profiling (submit_each verbose q out jobs).1 = enable_profiling q
  ∧ (verbose = false ∨ enable_profiling q = false →
     (submit_each verbose q out jobs).2 = out).
Proof.
  unfold submit_each. revert q out.
  induction jobs as [|[label cgf] jobs IH]; intros q out; simpl.
  { by rewrite app_nil_r. }
  pose proof (submit_and_profile_submit verbose q out label cgf) as Hs.
  pose proof (submit_and_profile_silent verbose q out label cgf) as Ho.
  destruct (submit_and_profile verbose q out label cgf) as [[evt q'] out'].
  simpl in *. injection Hs as _ ->.
  destruct (IH (submit q cgf).2 out') as (IH1 & IH2 & IH3).
  simpl in *. rewrite IH1, IH2, <-app_assoc. repeat split; [done..|].
  intros Hoff. rewrite IH3 by done. by apply Ho.
Qed.
End SubmitFacts.

(** ** The chain of intermediate buffers *)

Section AllocateFacts.
Import Hierarchical Levels.
Variable granularity : nat.
Hypothesis granularity_ge_2 : 2 ≤ granularity.
Local Abbreviation G := granularity.

Lemma allocate_loop_fuel fuel fuel' n_elems :
  n_elems ≤ fuel → n_elems ≤ fuel' →
  allocate_loop G fuel n_elems = allocate_loop G fuel' n_elems.
Proof.
  revert fuel' n_elems. induction fuel as [|fuel IH]; intros fuel' n Hn Hn'.
  - destruct fuel'; simpl; [done|]. by rewrite decide_False by lia.
  - destruct fuel' as [|fuel']; simpl.
    + by rewrite decide_False by lia.
    + case_decide as Hc; [|done]. f_equal.
      pose proof (div_ceil_lt n G granularity_ge_2 Hc).
      apply IH; lia.
Qed.

Lemma allocate_loop_unfold fuel n_elems :
  n_elems ≤ fuel →
  allocate_loop G fuel n_elems
  = if decide (1 < n_elems)
    then ceil (div_ceil n_elems G) G
         :: allocate_loop G (div_ceil n_elems G) (div_ceil n_elems G)
    else [].
Proof.
  intros Hn. destruct fuel as [|fuel]; simpl.
  { by rewrite decide_False by lia. }
  case_decide as Hc; [|done]. f_equal.
  pose proof (div_ceil_lt n_elems G granularity_ge_2 Hc).
  apply allocate_loop_fuel; lia.
Qed.

Lemma allocate_unfold n_elems :
  allocate_loop G n_elems n_elems
  = if decide (1 < n_elems)
    then ceil (div_ceil n_elems G) G
         :: allocate_loop G (div_ceil n_elems G) (div_ceil n_elems G)
    else [].
Proof. by apply allocate_loop_unfold. Qed.

(** The chain below a buffer that holds [n > 1] meaningful elements. *)
Lemma allocate_chain_ok_inner n :
  1 < n → chain_ok G (ceil n G) (allocate_loop G n n).
Proof.
  induction (lt_wf n) as [n _ IH]. intros Hn.
  rewrite allocate_unfold, decide_True by done.
  pose proof (div_ceil_lt n G granularity_ge_2 Hn) as Hlt.
  pose proof (div_ceil_pos n G ltac:(lia) ltac:(lia)) as Hpos.
  destruct (ceil_bounds n G ltac:(lia)).
  destruct (ceil_bounds (div_ceil n G) G ltac:(lia)).
  simpl. repeat split; [lia|by apply ceil_mod; lia|by rewrite ceil_div by lia|].
  destruct (decide (1 < div_ceil n G)) as [Hc|Hc].
  - specialize (IH _ Hlt Hc). rewrite allocate_unfold, decide_True in * by done. done.
  - rewrite allocate_unfold, decide_False by done.
    unfold ceil. replace (div_ceil n G) with 1 by lia. lia.
Qed.

(** The chain allocated for an array whose size is a multiple of the
    granularity has the counts the scan relies on. *)
Lemma allocate_chain_ok {Scalar : Type} N (bufs : list (list Scalar)) :
  allocated_for G N bufs → chain_ok G N (length <$> bufs).
Proof.
  unfold allocated_for, hierarchical_inclusive_scan_allocate.
  case_decide as Hmod; [|done]. intros [= <-].
  destruct (decide (N = 0)) as [->|Hpos]; [done|].
  pose proof (multiple_div N G ltac:(lia) Hmod) as HN.
  assert (0 < N / G) by (destruct (N / G); lia).
  assert (1 < N) by nia.
  assert (ceil N G = N) as Hc.
  { rewrite HN at 1. rewrite ceil_mul by lia. lia. }
  rewrite <-Hc at 1. by apply allocate_chain_ok_inner.
Qed.
Lemma allocate_loop_multiples fuel n_elems :
  Forall (λ count, count `mod` G = 0) (allocate_loop G fuel n_elems).
Proof.
  revert n_elems. induction fuel as [|fuel IH]; intros n; simpl; [constructor|].
  case_decide; constructor; [apply ceil_mod; lia|apply IH].
Qed.

(** The loop follows the unrounded counts until they reach one. *)
Lemma allocate_loop_counts n :
  let counts := allocate_loop G n n in
  (∀ k, k < length counts →
        1 < unrounded G n k
        ∧ counts !! k = Some (ceil (div_ceil (unrounded G n k) G) G))
  ∧ unrounded G n (length counts) ≤ 1
  ∧ (0 < n → unrounded G n (length counts) = 1).
Proof.
  induction (lt_wf n) as [n _ IH]. simpl.
  rewrite allocate_unfold. case_decide as Hc.
  - pose proof (div_ceil_lt n G granularity_ge_2 Hc) as Hlt.
    pose proof (div_ceil_pos n G ltac:(lia) ltac:(lia)) as Hpos.
    destruct (IH _ Hlt) as (IH1 & IH2 & IH3).
    assert (∀ k, unrounded G n (S k) = unrounded G (div_ceil n G) k) as Hshift.
    { intros k. unfold unrounded. by rewrite Nat.iter_succ_r. }
    simpl length. rewrite Hshift. repeat split.
    + destruct k as [|k]; [done|]. rewrite Hshift. apply IH1. simpl in *. lia.
    + destruct k as [|k]; [done|]. rewrite Hshift. simpl. apply IH1. simpl in *. lia.
    + done.
    + intros _. by apply IH3.
  - simpl. repeat split; [lia|lia|lia|]. unfold unrounded. simpl. lia.
Qed.
End AllocateFacts.

(** ** The levels of the hierarchical scan *)

Section LevelFacts.
Import Group GroupScan Algebra Hierarchical Levels.
Context {Scalar : Type}.
Variable op : Scalar → Scalar → Scalar.
Variable zero : Scalar.
Variables warp_size granularity : nat.
Hypothesis warp_size_ge_2 : 2 ≤ warp_size.
Hypothesis local_size_warps : local_size `mod` warp_size = 0.
Hypothesis granularity_pos : 0 < granularity.

Local Abbreviation psum := (Algebra.psum op).
Local Abbreviation element := (Algebra.element zero).
Local Abbreviation G := granularity.
Local Abbreviation block_scan := (Algebra.warp_scan op granularity).
Local Abbreviation block_total := (Algebra.warp_total op granularity).
Local Abbreviation expanded := (Algebra.expanded op zero granularity).
Local Abbreviation layout := (inclusive_scan_local_allocation warp_size granularity).
Local Abbreviation inclusive_scan := (GroupScan.inclusive_scan op).
Local Abbreviation reduction_cgf := (Hierarchical.reduction_cgf warp_size granularity op zero).
Local Abbreviation expansion_cgf := (Hierarchical.expansion_cgf granularity op).
Local Abbreviation kernels := (Levels.kernels warp_size granularity op zero).
Implicit Types (m : memory Scalar) (io b : list Scalar) (rest : list (list Scalar)).
Implicit Types (lmo : nat → nat → local_allocation Scalar).

(** Pointwise equal lists of command groups. *)
Local Abbreviation same_kernels :=
  (Forall2 (λ f g : memory Scalar → option (memory Scalar), ∀ m, f m = g m)).

Lemma execute_ext ks ks' m : same_kernels ks ks' → execute ks m = execute ks' m.
Proof.
  intros Hks. revert m. induction Hks as [|f g ks ks' Hfg _ IH]; intros m; [done|].
  unfold execute in *. simpl. rewrite Hfg. destruct (g m); simpl; [apply IH|done].
Qed.

Lemma execute_cons f ks m : execute (f :: ks) m = m' ← f m; execute ks m'.
Proof. done. Qed.

Lemma execute_app ks ks' m : execute (ks ++ ks') m = m' ← execute ks m; execute ks' m'.
Proof. apply foldM_app. Qed.

Lemma execute_lift ks io b rest :
  execute (lift <$> ks) (Memory io (b :: rest))
  = m' ← execute ks (Memory b rest);
    Some (Memory io (in_out_buffer m' :: intermediate_bufs m')).
Proof.
  revert b rest. induction ks as [|f ks IH]; intros b rest; [done|].
  rewrite fmap_cons, !execute_cons.
  assert (lift f (Memory io (b :: rest))
          = m' ← f (Memory b rest);
            Some (Memory io (in_out_buffer m' :: intermediate_bufs m'))) as -> by done.
  destruct (f (Memory b rest)) as [[b' rest']|]; simpl; [apply IH|done].
Qed.

Lemma big_buffer_cons io b rest i :
  big_buffer (Memory io (b :: rest)) (S i) = big_buffer (Memory b rest) i.
Proof.
  unfold big_buffer. simpl. rewrite Nat.sub_0_r. destruct i as [|i]; simpl; [done|].
  by rewrite Nat.sub_0_r.
Qed.

Lemma big_count_cons io b rest i :
  big_count (Memory io (b :: rest)) (S i) = big_count (Memory b rest) i.
Proof. unfold big_count. by rewrite big_buffer_cons. Qed.

Lemma set_big_buffer_cons io b rest i x :
  set_big_buffer (Memory io (b :: rest)) (S i) x
  = let m' := set_big_buffer (Memory b rest) i x in
    Memory io (in_out_buffer m' :: intermediate_bufs m').
Proof.
  unfold set_big_buffer. simpl. rewrite Nat.sub_0_r. destruct i as [|i]; simpl; [done|].
  by rewrite Nat.sub_0_r.
Qed.

Lemma reduction_cgf_shift lmo i c m :
  reduction_cgf lmo (S i) c m = lift (reduction_cgf (λ i, lmo (S i)) i c) m.
Proof.
  destruct m as [io [|b rest]]; unfold Hierarchical.reduction_cgf, lift; simpl.
  { unfold big_buffer. simpl. done. }
  rewrite big_buffer_cons.
  destruct (big_buffer (Memory b rest) i) as [big|]; simpl; [|done].
  destruct (rest !! i) as [small|]; simpl; [|done].
  destruct (parallel c _ (big, small)) as [[big' small']|]; simpl; [|done].
  rewrite set_big_buffer_cons. done.
Qed.

Lemma expansion_cgf_shift ii c m :
  expansion_cgf (S ii) c m = lift (expansion_cgf ii c) m.
Proof.
  destruct m as [io [|b rest]]; unfold Hierarchical.expansion_cgf, lift; simpl.
  { by destruct (expansion_group_range G c). }
  destruct (expansion_group_range G c) as [gr|]; simpl; [|done].
  destruct (rest !! ii) as [small|]; simpl; [|done].
  rewrite big_buffer_cons.
  destruct (big_buffer (Memory b rest) ii) as [big|]; simpl; [|done].
  destruct (parallel gr _ big) as [big'|]; simpl; [|done].
  rewrite set_big_buffer_cons. done.
Qed.

Lemma reduction_cgf_0 lmo c io b rest :
  reduction_cgf lmo 0 c (Memory io (b :: rest))
  = r ← parallel c (λ g, reduction_kernel warp_size G op zero (lmo 0 g) g) (io, b);
    Some (Memory r.1 (r.2 :: rest)).
Proof. done. Qed.

Lemma expansion_cgf_0 c io b rest :
  expansion_cgf 0 c (Memory io (b :: rest))
  = group_range ← expansion_group_range G c;
    big' ← parallel group_range (expansion_kernel G op b) io;
    Some (Memory big' (b :: rest)).
Proof. done. Qed.

Lemma big_count_same m m' i : same_counts m m' → big_count m i = big_count m' i.
Proof.
  intros [Hio Hbufs]. unfold big_count, big_buffer. case_decide; [|done].
  assert (∀ (bufs : list (list Scalar)) j,
            length (default [] (bufs !! j)) = default 0 ((length <$> bufs) !! j)) as Hd.
  { intros bufs j. rewrite list_lookup_fmap. by destruct (bufs !! j). }
  by rewrite !Hd, Hbufs.
Qed.

Lemma kernels_same_counts lmo m m' : same_counts m m' → kernels lmo m = kernels lmo m'.
Proof.
  intros Hsame. unfold Levels.kernels.
  assert (length (intermediate_bufs m) = length (intermediate_bufs m')) as ->.
  { destruct Hsame as [_ Hb]. apply (f_equal length) in Hb. by rewrite !length_fmap in Hb. }
  f_equal; apply list_fmap_ext; intros; by rewrite (big_count_same m m').
Qed.

(** The command groups for a chain are those for the first level around
    those for the rest of the chain. *)
Lemma kernels_cons lmo io b rest :
  same_kernels (kernels lmo (Memory io (b :: rest)))
    (reduction_cgf lmo 0 (div_ceil (length io) G)
     :: (lift <$> kernels (λ i, lmo (S i)) (Memory b rest))
     ++ match rest with
        | [] => []
        | _ :: _ => [expansion_cgf 0 (length io)]
        end).
Proof.
  unfold Levels.kernels.
  change (length (intermediate_bufs (Memory io (b :: rest)))) with (S (length rest)).
  change (length (intermediate_bufs (Memory b rest))) with (length rest).
  change (seq 0 (S (length rest))) with (0 :: seq 1 (length rest)).
  rewrite fmap_cons, <-app_comm_cons. constructor; [done|].
  replace (S (length rest) - 1) with (length rest) by lia.
  rewrite (fmap_app lift), <-app_assoc.
  apply Forall2_app.
  - rewrite <-fmap_S_seq, <-!list_fmap_compose.
    apply Forall2_fmap, Forall_Forall2_diag, Forall_forall. intros i _ m. simpl.
    by rewrite reduction_cgf_shift, big_count_cons.
  - destruct rest as [|b' rest']; [constructor|].
    change (length (b' :: rest')) with (S (length rest')).
    replace (S (length rest') - 1) with (length rest') by lia.
    rewrite seq_S, fmap_app. apply Forall2_app.
    + rewrite <-list_fmap_compose.
      apply Forall2_fmap, Forall_Forall2_diag, Forall_forall. intros i Hi m.
      apply elem_of_seq in Hi. simpl.
      replace (S (length rest') - i) with (S (length rest' - i)) by lia.
      by rewrite expansion_cgf_shift, big_count_cons.
    + constructor; [|constructor]. intros m.
      replace (S (length rest') - (1 + length rest')) with 0 by lia. done.
Qed.
(** *** Two levels combine to the scan of the whole array *)

Lemma two_level_scan io b nb :
  (∀ x y z, op x (op y z) = op (op x y) z) →
  (∀ x y, op x y = op y x) →
  1 ≤ nb → length io = nb * G → nb ≤ length b →
  let p := element io 0 in
  let io1 := window io 0 (block_scan p) (nb * G) in
  let b1 := window b 0 (block_total p) nb in
  window io1 G (expanded io1 (inclusive_scan b1)) ((nb - 1) * G) = inclusive_scan io.
Proof.
  intros Hassoc Hcomm Hm Hio Hb p io1 b1.
  assert (length io1 = nb * G) as Hio1 by (unfold io1; rewrite window_length; lia).
  assert (length b1 = length b) as Hb1 by (unfold b1; rewrite window_length; lia).
  rewrite (inclusive_scan_elements op zero io), Hio. fold p.
  apply list_eq. intros j.
  rewrite window_lookup by nia. rewrite list_lookup_fmap.
  assert (∀ j, j < nb * G → io1 !! j = Some (block_scan p j)) as Hlk1.
  { intros j' Hj'. unfold io1. by rewrite window0_lookup_done by lia. }
  destruct (decide (j < G)) as [Hj|Hj].
  - rewrite Hlk1 by nia. rewrite lookup_seq_lt by nia. simpl. f_equal.
    unfold Algebra.warp_scan. by rewrite Nat.div_small, Nat.mod_small.
  - destruct (decide (j < G + (nb - 1) * G)) as [Hj'|Hj'].
    + rewrite lookup_seq_lt by nia. simpl. f_equal.
      rewrite <-(carried_prefix op Hassoc G p (psum (block_total p) 0) j
                   granularity_pos Hcomm) by done.
      unfold Algebra.carried, Algebra.expanded. rewrite decide_True by lia.
      assert ((j - G) / G = j / G - 1) as Hq.
      { replace j with ((j - G) + 1 * G) at 2 by lia.
        rewrite Nat.div_add by lia. lia. }
      assert (j / G < nb) by (apply Nat.Div0.div_lt_upper_bound; nia).
      f_equal.
      * unfold Algebra.element. replace (G + (j - G)) with j by lia.
        by rewrite Hlk1 by nia.
      * rewrite Hq. unfold Algebra.element at 1. simpl.
        rewrite (inclusive_scan_elements op zero b1), list_lookup_fmap.
        rewrite lookup_seq_lt by lia. simpl.
        apply psum_ext. intros v Hv. unfold b1.
        by rewrite element_window_done by lia.
    + rewrite lookup_seq_ge by nia. simpl.
      apply lookup_ge_None. rewrite Hio1. nia.
Qed.
Lemma single_block_scan io :
  length io = G → window io 0 (block_scan (element io 0)) G = inclusive_scan io.
Proof.
  intros Hio. rewrite (inclusive_scan_elements op zero io).
  transitivity (window io 0 (block_scan (element io 0)) (length io));
    [by rewrite Hio|].
  rewrite window_all, Hio.
  apply list_fmap_ext. intros i j Hj. apply lookup_seq in Hj as [-> Hj].
  unfold Algebra.warp_scan. simpl. by rewrite Nat.div_small, Nat.mod_small.
Qed.

(** *** All levels *)

(** The command groups of a scan run without leaving the buffers and keep
    every count; with an associative and commutative operator, the array
    ends up holding its inclusive scan. *)
Lemma hierarchical_scan_levels rest :
  ∀ io lmo,
    chain_ok G (length io) (length <$> rest) →
    (∀ i g, has_type (lmo i g) layout) →
    ∃ io' rest',
      execute (kernels lmo (Memory io rest)) (Memory io rest) = Some (Memory io' rest')
      ∧ length io' = length io
      ∧ length <$> rest' = length <$> rest
      ∧ ((∀ x y z, op x (op y z) = op (op x y) z) →
         (∀ x y, op x y = op y x) →
         io' = inclusive_scan io).
Proof.
  induction rest as [|b rest IH]; intros io lmo Hok Hty.
  { simpl in Hok. apply nil_length_inv in Hok as ->. by exists [], []. }
  destruct Hok as (Hpos & Hmod & Hroom & Hrest).
  rewrite (execute_ext _ _ _ (kernels_cons lmo io b rest)).
  rewrite execute_cons, reduction_cgf_0.
  pose proof (multiple_div _ _ granularity_pos Hmod) as Hio.
  rewrite (div_ceil_exact _ _ granularity_pos Hmod).
  set (nb := length io / G) in *.
  assert (1 ≤ nb) by (destruct nb; lia).
  destruct (reduction_launch_ok op zero warp_size G warp_size_ge_2 local_size_warps
              granularity_pos (lmo 0) io b nb nb (Hty 0) Hio Hroom ltac:(lia))
    as (io1 & b1 & Hrun & Hio1 & Hb1).
  rewrite Hrun. simpl.
  assert ((∀ x y z, op x (op y z) = op (op x y) z) → (∀ x y, op x y = op y x) →
          io1 = window io 0 (block_scan (element io 0)) (nb * G)
          ∧ b1 = window b 0 (block_total (element io 0)) nb) as Hlaws.
  { intros Hassoc Hcomm.
    rewrite (reduction_launch_scan op zero warp_size G warp_size_ge_2 local_size_warps
               granularity_pos Hassoc Hcomm (lmo 0) io b nb (Hty 0) Hio Hroom) in Hrun.
    by injection Hrun as <- <-. }
  destruct rest as [|b' rest].
  - (* the array is a single block *)
    exists io1, [b1]. simpl in *. repeat split; [done|by rewrite Hb1|].
    intros Hassoc Hcomm. destruct (Hlaws Hassoc Hcomm) as [-> _].
    replace nb with 1 by nia. rewrite Nat.mul_1_l.
    apply single_block_scan. lia.
  - (* scan the block totals, then add the carries *)
    destruct (IH b1 (λ i, lmo (S i))) as (b2 & rest2 & Hsub & Hb2 & Hrest2 & Hlaws2).
    { by rewrite Hb1. }
    { intros i g. apply Hty. }
    rewrite execute_app, execute_lift.
    rewrite (kernels_same_counts _ (Memory b (b' :: rest)) (Memory b1 (b' :: rest)))
      by (split; simpl; [by rewrite Hb1|done]).
    rewrite Hsub. simpl.
    rewrite execute_cons, expansion_cgf_0.
    unfold expansion_group_range. rewrite (div_ceil_exact _ _ granularity_pos Hmod).
    fold nb. rewrite decide_True by lia. simpl.
    rewrite (expansion_launch_spec op zero G granularity_pos b2 io1 nb)
      by (rewrite ?Hio1, ?Hb2, ?Hb1; lia).
    cbn [mbind option_bind]. eexists _, _. split; [done|].
    rewrite window_length by (rewrite Hio1; nia).
    repeat split; [done|by rewrite !fmap_cons, Hb2, Hb1, Hrest2|].
    intros Hassoc Hcomm. destruct (Hlaws Hassoc Hcomm) as [-> ->].
    rewrite (Hlaws2 Hassoc Hcomm).
    by apply two_level_scan.
Qed.
(** *** The host function *)

Lemma hierarchical_inclusive_scan_submits lmo verbose
    (q : Profiling.queue (memory Scalar → option (memory Scalar))) out m :
  let r := hierarchical_inclusive_scan warp_size G op zero lmo verbose q out m in
  Profiling.submitted r.1 = Profiling.submitted q ++ kernels lmo m
  ∧ (verbose = false ∨ Profiling.enable_profiling q = false → r.2 = out).
Proof.
  unfold hierarchical_inclusive_scan, Levels.kernels. cbv zeta.
  set (size := length (intermediate_bufs m)).
  destruct (submit_loop verbose
              (λ i, "hierarchical_inclusive_scan reduce " +:+ pretty i)
              (λ i, reduction_cgf lmo i (div_ceil (big_count m i) G))
              (seq 0 size) q out) as (H1 & H2 & H3).
  cbv beta zeta in H1, H2, H3.
  match type of H1 with Profiling.submitted (?s).1 = _ => remember s as s1 eqn:Hs1 end.
  clear Hs1. destruct s1 as [q1 out1].
  destruct (submit_loop verbose
              (λ i, "hierarchical_inclusive_scan expand " +:+ pretty (size - 1 - i))
              (λ i, expansion_cgf (size - 1 - i) (big_count m (size - 1 - i)))
              (seq 1 (size - 1)) q1 out1) as (K1 & K2 & K3).
  cbv beta zeta in K1, K2, K3. simpl in H1, H2, H3.
  split.
  - rewrite K1, H1, app_assoc. done.
  - intros Hoff. rewrite K3 by (rewrite H2; done). by apply H3.
Qed.

Lemma scan_on_device_kernels lmo verbose
    (q : Profiling.queue (memory Scalar → option (memory Scalar))) out m :
  scan_on_device warp_size G op zero lmo verbose q out m = execute (kernels lmo m) m.
Proof.
  unfold scan_on_device.
  destruct (hierarchical_inclusive_scan_submits lmo verbose q out m) as [-> _].
  by rewrite drop_app_length.
Qed.
(** The buffers of a level of a well-formed chain. *)
Lemma chain_ok_level rest :
  ∀ io i,
    chain_ok G (length io) (length <$> rest) → i < length rest →
    ∃ big small,
      big_buffer (Memory io rest) i = Some big ∧ rest !! i = Some small
      ∧ 0 < length big ∧ length big `mod` G = 0 ∧ length big / G ≤ length small.
Proof using Type.
  clear warp_size_ge_2 local_size_warps granularity_pos.
  induction rest as [|b rest IH]; intros io i Hok Hi; [simpl in Hi; lia|].
  destruct Hok as (Hpos & Hmod & Hroom & Hrest).
  destruct i as [|i]; [by exists io, b|].
  rewrite big_buffer_cons. simpl in Hi.
  destruct rest as [|b' rest]; [simpl in Hi; lia|].
  destruct (IH b i) as (big & small & ? & ? & ?); [done|simpl in *; lia|].
  by exists big, small.
Qed.
(** The scan of an array with the chain allocated for it. *)
Lemma scan_on_device_spec lmo verbose
    (q : Profiling.queue (memory Scalar → option (memory Scalar))) out io rest :
  2 ≤ G →
  (∀ i g, has_type (lmo i g) layout) →
  allocated_for G (length io) rest →
  ∃ io' rest',
    scan_on_device warp_size G op zero lmo verbose q out (Memory io rest)
    = Some (Memory io' rest')
    ∧ length io' = length io
    ∧ length <$> rest' = length <$> rest
    ∧ ((∀ x y z, op x (op y z) = op (op x y) z) →
       (∀ x y, op x y = op y x) →
       io' = inclusive_scan io).
Proof.
  intros HG Hty Halloc. rewrite scan_on_device_kernels.
  apply hierarchical_scan_levels; [|done].
  by apply allocate_chain_ok.
Qed.
End LevelFacts.

(** * The claims of the specification *)

(** ** Timing and submission *)

(** C10: on an empty vector of events the earliest start is [UINT64_MAX], the
    latest end is [0], and [measure_duration] reports exactly these two
    together with their difference in [uint64_t], which wraps around to a
    duration of one nanosecond. *)
Theorem measure_duration_empty_vector :
  Profiling.earliest_event_start (Profiling.event_vector []) = Profiling.UINT64_MAX
  ∧ Profiling.latest_event_end (Profiling.event_vector []) = 0%Z
  ∧ Profiling.measure_duration (Profiling.event_vector []) []
    = (Profiling.UINT64_MAX, 0%Z, Profiling.KernelDuration 1)
  ∧ Profiling.UINT64_MAX = 18446744073709551615%Z
  ∧ Profiling.wrap64 (0 - Profiling.UINT64_MAX) = 1%Z.
Proof. repeat split. Qed.

(** C8: in every mode [submit_and_profile] hands the given command group to
    the queue exactly once and returns the event of that submission; with
    [verbose()] false or a queue without profiling it writes nothing to the
    diagnostic stream, however many command groups are submitted. *)
Theorem submit_and_profile_observational {CGF : Type} (verbose : bool)
    (q : Profiling.queue CGF) (out : list Profiling.profile_line)
    (label : string) (cgf : CGF) (jobs : list (string * CGF)) :
  (Profiling.submit_and_profile verbose q out label cgf).1 = Profiling.submit q cgf
  ∧ Profiling.submitted (Profiling.submit_and_profile verbose q out label cgf).1.2
    = Profiling.submitted q ++ [cgf]
  ∧ Profiling.submitted (Profiling.submit_each verbose q out jobs).1
    = Profiling.submitted q ++ jobs.*2
  ∧ (verbose = false ∨ Profiling.enable_profiling q = false →
     (Profiling.submit_and_profile verbose q out label cgf).2 = out
     ∧ (Profiling.submit_each verbose q out jobs).2 = out).
Proof.
  destruct (submit_each_facts verbose jobs q out) as (H1 & _ & H3).
  split; [apply submit_and_profile_submit|].
  split; [by rewrite submit_and_profile_submit|].
  split; [done|]. intros Hoff. split; [by apply submit_and_profile_silent|by apply H3].
Qed.

Lemma submit_and_profile_observational_witness :
  (Profiling.submit_each false
     (Profiling.Queue true [7] (λ n, Profiling.Event (Z.of_nat n) (Z.of_nat n + 5)))
     [] [("reduce 0", 1); ("reduce 1", 2); ("expand 0", 3)]).2 = [].
Proof.
  apply (submit_and_profile_observational false
           (Profiling.Queue true [7] (λ n, Profiling.Event (Z.of_nat n) (Z.of_nat n + 5)))
           [] "label" 0 [("reduce 0", 1); ("reduce 1", 2); ("expand 0", 3)]).
  left. reflexivity.
Defined.

(** ** Work distribution *)

(** C4: on a group of [LocalSize] lanes, lane [t] invokes the callback for
    the items [t, t + LocalSize, ...] of the [R / LocalSize] full iterations
    and, when [t < R mod LocalSize], for one item of the partial iteration;
    over the whole group every item below [R] is handed out exactly once and
    no other item ever. *)
Theorem distribute_for_exactly_once (LocalSize R : nat) :
  0 < LocalSize →
  length (Group.distribute_for LocalSize R) = LocalSize
  ∧ (∀ t, t < LocalSize →
       Group.item <$> Group.distribute_for_lane LocalSize R t
       = ((λ k, k * LocalSize + t) <$> seq 0 (R / LocalSize))
         ++ (if decide (t < R `mod` LocalSize) then [R / LocalSize * LocalSize + t] else []))
  ∧ Group.item <$> mjoin (Group.distribute_for LocalSize R) ≡ₚ seq 0 R
  ∧ NoDup (Group.item <$> mjoin (Group.distribute_for LocalSize R))
  ∧ (∀ i, i ∈ Group.item <$> mjoin (Group.distribute_for LocalSize R) ↔ i < R).
Proof.
  intros Hpos. split; [|split; [|split; [|split]]].
  - unfold Group.distribute_for. by rewrite length_fmap, length_seq.
  - intros t Ht. unfold Group.distribute_for_lane, Group.distribute_for_partial_iteration.
    rewrite fmap_app, <-list_fmap_compose. f_equal. by case_decide.
  - apply NoDup_Permutation; [by apply distribute_for_items_NoDup|apply NoDup_seq|].
    intros i. rewrite distribute_for_items_elem by done. rewrite elem_of_seq. lia.
  - by apply distribute_for_items_NoDup.
  - intros i. by apply distribute_for_items_elem.
Qed.

Lemma distribute_for_exactly_once_witness :
  Group.item <$> mjoin (Group.distribute_for 4 10) ≡ₚ seq 0 10.
Proof.
  apply (distribute_for_exactly_once 4 10). lia.
Defined.

(** ** The chain of intermediate buffers *)

(** C5: for a size that is a multiple of the granularity the allocation
    returns a chain; with [n_0 = N] and [n_(k+1) = div_ceil(n_k, G)] the
    unrounded counts, buffer [k] of the chain has [ceil(n_(k+1), G)] elements,
    every [n_k] before the end of the chain exceeds one, and the chain ends
    at the first count that does not, which is one for a non-empty array. *)
Theorem hierarchical_inclusive_scan_allocate_counts (G N : nat) :
  2 ≤ G → N `mod` G = 0 →
  ∃ counts,
    Hierarchical.hierarchical_inclusive_scan_allocate G N = Some counts
    ∧ (∀ k, k < length counts →
         1 < Levels.unrounded G N k
         ∧ counts !! k = Some (ceil (div_ceil (Levels.unrounded G N k) G) G))
    ∧ Levels.unrounded G N (length counts) ≤ 1
    ∧ (0 < N → Levels.unrounded G N (length counts) = 1)
    ∧ Forall (λ count, count `mod` G = 0) counts.
Proof.
  intros HG Hmod. unfold Hierarchical.hierarchical_inclusive_scan_allocate.
  rewrite decide_True by done. eexists. split; [done|].
  destruct (allocate_loop_counts G HG N) as (H1 & H2 & H3).
  repeat split; [apply H1; done|apply H1; done|done|done|].
  apply allocate_loop_multiples. lia.
Qed.

Lemma hierarchical_inclusive_scan_allocate_counts_witness :
  ∃ counts,
    Hierarchical.hierarchical_inclusive_scan_allocate 4 68 = Some counts
    ∧ (∀ k, k < length counts →
         1 < Levels.unrounded 4 68 k
         ∧ counts !! k = Some (ceil (div_ceil (Levels.unrounded 4 68 k) 4) 4))
    ∧ Levels.unrounded 4 68 (length counts) ≤ 1
    ∧ (0 < 68 → Levels.unrounded 4 68 (length counts) = 1)
    ∧ Forall (λ count, count `mod` 4 = 0) counts.
Proof.
  apply (hierarchical_inclusive_scan_allocate_counts 4 68); [lia|reflexivity].
Defined.

(** ** Local memory of the group scan *)

(** C7: [inclusive_scan_local_allocation<Value, Range>] is the empty struct
    for [Range <= warp_size]; otherwise it holds an array of exactly
    [div_ceil(Range, warp_size)] elements and the allocation for a scan of
    that many elements.  The innermost allocation is for a range of at most
    [warp_size].  The layout is the same for every element type. *)
Theorem inclusive_scan_local_allocation_layout (warp_size Range : nat) :
  2 ≤ warp_size →
  (Range ≤ warp_size →
     GroupScan.inclusive_scan_local_allocation warp_size Range = GroupScan.empty_struct Range)
  ∧ (warp_size < Range →
     GroupScan.inclusive_scan_local_allocation warp_size Range
     = GroupScan.nested_struct Range (div_ceil Range warp_size)
         (GroupScan.inclusive_scan_local_allocation warp_size (div_ceil Range warp_size)))
  ∧ GroupScan.terminal_range (GroupScan.inclusive_scan_local_allocation warp_size Range)
    ≤ warp_size
  ∧ (∀ (Value : Type) (lm : GroupScan.local_allocation Value),
       GroupScan.has_type lm (GroupScan.inclusive_scan_local_allocation warp_size Range) →
       (Range ≤ warp_size → lm = GroupScan.lm_empty)
       ∧ (warp_size < Range →
          ∃ memory next,
            lm = GroupScan.lm_nested memory next
            ∧ length memory = div_ceil Range warp_size
            ∧ GroupScan.has_type next
                (GroupScan.inclusive_scan_local_allocation warp_size
                   (div_ceil Range warp_size)))).
Proof.
  intros Hws. pose proof (inclusive_scan_local_allocation_unfold warp_size Hws Range) as Heq.
  split; [|split; [|split]].
  - intros HR. by rewrite Heq, decide_True.
  - intros HR. by rewrite Heq, decide_False by lia.
  - by apply terminal_range_le.
  - intros Value lm Hty. rewrite Heq in Hty. split; intros HR.
    + rewrite decide_True in Hty by done. by destruct lm.
    + rewrite decide_False in Hty by lia. destruct lm as [|memory next]; [done|].
      destruct Hty as [Hlen Hnext]. by exists memory, next.
Qed.

Lemma inclusive_scan_local_allocation_layout_witness :
  GroupScan.inclusive_scan_local_allocation 32 512
  = GroupScan.nested_struct 512 16 (GroupScan.inclusive_scan_local_allocation 32 16)
  ∧ GroupScan.inclusive_scan_local_allocation 32 16 = GroupScan.empty_struct 16.
Proof.
  split.
  - apply (inclusive_scan_local_allocation_layout 32 512); lia.
  - apply (inclusive_scan_local_allocation_layout 32 16); lia.
Defined.

(** ** The group-local scan *)

(** C3: for [Range <= warp_size] the scan of a group replaces the first
    [Range] elements behind the accessor by the sequential inclusive scan of
    exactly those elements and changes nothing else; the value used for the
    padding lanes has no influence on the outcome. *)
Theorem inclusive_scan_over_group_base_case {Scalar : Type}
    (op : Scalar → Scalar → Scalar) (zero : Scalar) (warp_size LocalSize Range : nat)
    (lm : GroupScan.local_allocation Scalar) (acc : list Scalar) (base : nat) :
  0 < warp_size → 0 < LocalSize → LocalSize `mod` warp_size = 0 →
  Range ≤ warp_size → base + Range ≤ length acc →
  GroupScan.inclusive_scan_over_group warp_size op zero LocalSize Range lm acc base
  = Some (take base acc
          ++ GroupScan.inclusive_scan op (take Range (drop base acc))
          ++ drop (base + Range) acc,
          lm)
  ∧ ∀ padding,
      GroupScan.inclusive_scan_over_group warp_size op padding LocalSize Range lm acc base
      = GroupScan.inclusive_scan_over_group warp_size op zero LocalSize Range lm acc base.
Proof.
  intros Hws HLS Hmod HR Hlen.
  assert (∀ z, GroupScan.inclusive_scan_over_group warp_size op z LocalSize Range lm acc base
               = Some (take base acc
                       ++ GroupScan.inclusive_scan op (take Range (drop base acc))
                       ++ drop (base + Range) acc, lm)) as Hall.
  { intros z. rewrite (base_case_spec op z warp_size LocalSize Hws HLS Hmod) by done.
    unfold window. do 3 f_equal.
    rewrite (take_drop_fmap_seq z acc base Range) by done.
    by rewrite inclusive_scan_seq. }
  split; [apply Hall|]. intros padding. by rewrite !Hall.
Qed.

Lemma inclusive_scan_over_group_base_case_witness :
  GroupScan.inclusive_scan_over_group 4 Nat.add 0 8 3 GroupScan.lm_empty [9; 1; 2; 3; 7] 1
  = Some ([9] ++ GroupScan.inclusive_scan Nat.add [1; 2; 3] ++ [7], GroupScan.lm_empty).
Proof.
  apply (inclusive_scan_over_group_base_case Nat.add 0 4 8 3 GroupScan.lm_empty
           [9; 1; 2; 3; 7] 1); [lia|lia|reflexivity|lia|simpl; lia].
Defined.

(** ** The expansion phase *)

(** C2: the expansion at a level runs to the end and writes to the big
    buffer of that level only: in the memory it leaves, the big buffer (the
    array itself at level 0, the intermediate buffer [ii - 1] above) has its
    first block as it was and every element [big[j]] of a later block
    replaced by [op(big[j], small[j / G - 1])], the element combined with the
    carry read from the small buffer at the index of the preceding block;
    every other buffer, the small buffer among them, is unchanged. *)
Theorem expansion_adds_carry {Scalar : Type} (op : Scalar → Scalar → Scalar)
    (G ii : nat) (m : Hierarchical.memory Scalar) (big small : list Scalar) (blocks : nat) :
  0 < G →
  Hierarchical.big_buffer m ii = Some big →
  Hierarchical.intermediate_bufs m !! ii = Some small →
  length big = blocks * G → 1 ≤ blocks → blocks - 1 ≤ length small →
  ∃ m' big',
    Hierarchical.expansion_cgf G op ii (length big) m = Some m'
    ∧ Hierarchical.big_buffer m' ii = Some big'
    ∧ (if decide (0 < ii)
       then Hierarchical.intermediate_bufs m' !! (ii - 1) = Some big'
            ∧ Hierarchical.in_out_buffer m' = Hierarchical.in_out_buffer m
       else Hierarchical.in_out_buffer m' = big')
    ∧ length (Hierarchical.intermediate_bufs m')
      = length (Hierarchical.intermediate_bufs m)
    ∧ (∀ k, k + 1 ≠ ii →
         Hierarchical.intermediate_bufs m' !! k = Hierarchical.intermediate_bufs m !! k)
    ∧ length big' = length big
    ∧ ∀ j, j < length big →
        big' !! j
        = if decide (j < G) then big !! j
          else x ← big !! j; carry ← small !! (j / G - 1); Some (op x carry).
Proof.
  intros HG Hbig Hsmall Hlen Hblocks Hroom.
  destruct big as [|zero big0] eqn:Hb; [simpl in Hlen; nia|]. rewrite <-Hb in *. clear Hb.
  unfold Hierarchical.expansion_cgf, Hierarchical.expansion_group_range.
  rewrite Hlen, div_ceil_mul, decide_True by lia. simpl.
  rewrite Hsmall, Hbig. simpl.
  rewrite (expansion_launch_spec op zero G HG small big blocks) by done. simpl.
  set (big' := window big G (Algebra.expanded op zero G big small) ((blocks - 1) * G)).
  exists (Hierarchical.set_big_buffer m ii big'), big'.
  split; [done|].
  assert (Hierarchical.big_buffer (Hierarchical.set_big_buffer m ii big') ii = Some big'
          ∧ (if decide (0 < ii)
             then Hierarchical.intermediate_bufs (Hierarchical.set_big_buffer m ii big')
                    !! (ii - 1) = Some big'
                  ∧ Hierarchical.in_out_buffer (Hierarchical.set_big_buffer m ii big')
                    = Hierarchical.in_out_buffer m
             else Hierarchical.in_out_buffer (Hierarchical.set_big_buffer m ii big') = big')
          ∧ length (Hierarchical.intermediate_bufs (Hierarchical.set_big_buffer m ii big'))
            = length (Hierarchical.intermediate_bufs m)
          ∧ (∀ k, k + 1 ≠ ii →
               Hierarchical.intermediate_bufs (Hierarchical.set_big_buffer m ii big') !! k
               = Hierarchical.intermediate_bufs m !! k)) as (H1 & H2 & H3 & H4).
  { unfold Hierarchical.big_buffer, Hierarchical.set_big_buffer in *.
    destruct (decide (0 < ii)) as [Hii|Hii]; simpl.
    - pose proof (lookup_lt_Some _ _ _ Hbig) as Hlt.
      rewrite list_lookup_insert_eq by done. rewrite length_insert.
      repeat split; try done.
      intros k Hk. apply list_lookup_insert_ne. lia.
    - repeat split; done. }
  split; [done|]. split; [done|]. split; [done|]. split; [done|].
  clear H1 H2 H3 H4.
  split; [unfold big'; rewrite window_length; nia|].
  intros j Hj. unfold big'. rewrite window_lookup by nia.
  case_decide as Hc; [done|]. rewrite decide_True by nia.
  destruct (lookup_lt_is_Some_2 big j ltac:(lia)) as [x Hx].
  assert (j / G < blocks) by (apply Nat.Div0.div_lt_upper_bound; nia).
  assert (1 ≤ j / G) by (apply Nat.div_le_lower_bound; lia).
  destruct (lookup_lt_is_Some_2 small (j / G - 1) ltac:(lia)) as [c Hcarry].
  rewrite Hx, Hcarry. simpl. f_equal. unfold Algebra.expanded, Algebra.element.
  replace (G + (j - G)) with j by lia. rewrite Hx. simpl.
  replace ((j - G) / G) with (j / G - 1); [by rewrite Hcarry|].
  replace j with ((j - G) + 1 * G) at 1 by lia. rewrite Nat.div_add by lia. lia.
Qed.

Lemma expansion_adds_carry_witness :
  Hierarchical.expansion_cgf 2 Nat.add 0 (length [1; 3; 3; 7; 5; 11])
    (Hierarchical.Memory [1; 3; 3; 7; 5; 11] [[3; 10; 21; 99]])
  = Some (Hierarchical.Memory [1; 3; 6; 10; 15; 21] [[3; 10; 21; 99]])
  ∧ Hierarchical.expansion_cgf 2 Nat.add 1 (length [1; 3; 3; 7; 5; 11])
      (Hierarchical.Memory [7; 7] [[1; 3; 3; 7; 5; 11]; [3; 10; 21; 99]])
    = Some (Hierarchical.Memory [7; 7] [[1; 3; 6; 10; 15; 21]; [3; 10; 21; 99]])
  ∧ (∃ m' big',
       Hierarchical.expansion_cgf 2 Nat.add 0 (length [1; 3; 3; 7; 5; 11])
         (Hierarchical.Memory [1; 3; 3; 7; 5; 11] [[3; 10; 21; 99]])
       = Some m'
       ∧ Hierarchical.big_buffer m' 0 = Some big'
       ∧ Hierarchical.in_out_buffer m' = big'
       ∧ big' !! 3 = Some (7 + 3))
  ∧ (∃ m' big',
       Hierarchical.expansion_cgf 2 Nat.add 1 (length [1; 3; 3; 7; 5; 11])
         (Hierarchical.Memory [7; 7] [[1; 3; 3; 7; 5; 11]; [3; 10; 21; 99]])
       = Some m'
       ∧ Hierarchical.intermediate_bufs m' !! 0 = Some big'
       ∧ Hierarchical.in_out_buffer m' = [7; 7]
       ∧ Hierarchical.intermediate_bufs m' !! 1 = Some [3; 10; 21; 99]
       ∧ big' !! 3 = Some (7 + 3)).
Proof.
  split; [vm_compute; reflexivity|]. split; [vm_compute; reflexivity|]. split.
  - destruct (expansion_adds_carry Nat.add 2 0
                (Hierarchical.Memory [1; 3; 3; 7; 5; 11] [[3; 10; 21; 99]])
                [1; 3; 3; 7; 5; 11] [3; 10; 21; 99] 3)
      as (m' & big' & H1 & H2 & H3 & _ & _ & _ & H7);
      [lia|reflexivity|reflexivity|reflexivity|lia|simpl; lia|].
    exists m', big'. split; [exact H1|]. split; [exact H2|]. split; [exact H3|].
    apply (H7 3). simpl. lia.
  - destruct (expansion_adds_carry Nat.add 2 1
                (Hierarchical.Memory [7; 7] [[1; 3; 3; 7; 5; 11]; [3; 10; 21; 99]])
                [1; 3; 3; 7; 5; 11] [3; 10; 21; 99] 3)
      as (m' & big' & H1 & _ & [H3 H4] & _ & H6 & _ & H7);
      [lia|reflexivity|reflexivity|reflexivity|lia|simpl; lia|].
    exists m', big'. split; [exact H1|]. split; [exact H3|]. split; [exact H4|].
    split; [apply (H6 1); lia|]. apply (H7 3). simpl. lia.
Defined.

(** ** The hierarchical scan *)

(** C1, as the code has it: for an array whose size is a multiple of the
    granularity, the chain allocated for it, and an operator that is
    associative and commutative, the command groups submitted by
    [hierarchical_inclusive_scan] leave in the array its naive sequential
    inclusive scan, [op(input[0], ..., input[i])] at every index [i]; no
    property of the padding value is used. *)
Theorem hierarchical_inclusive_scan_correct {Scalar : Type}
    (op : Scalar → Scalar → Scalar) (zero : Scalar) (warp_size G : nat)
    (local_memory : nat → nat → GroupScan.local_allocation Scalar) (verbose : bool)
    (q : Profiling.queue (Hierarchical.memory Scalar → option (Hierarchical.memory Scalar)))
    (out : list Profiling.profile_line) (input : list Scalar) (bufs : list (list Scalar)) :
  2 ≤ warp_size → Hierarchical.local_size `mod` warp_size = 0 → 2 ≤ G →
  (∀ a b c, op a (op b c) = op (op a b) c) →
  (∀ a b, op a b = op b a) →
  (∀ i g, GroupScan.has_type (local_memory i g)
            (GroupScan.inclusive_scan_local_allocation warp_size G)) →
  Hierarchical.allocated_for G (length input) bufs →
  ∃ bufs',
    Hierarchical.scan_on_device warp_size G op zero local_memory verbose q out
      (Hierarchical.Memory input bufs)
    = Some (Hierarchical.Memory (GroupScan.inclusive_scan op input) bufs')
    ∧ length <$> bufs' = length <$> bufs
    ∧ (∀ i, i < length input →
         GroupScan.inclusive_scan op input !! i
         = Some (Algebra.psum op (Algebra.element zero input 0) 0 i))
    ∧ ((∀ a, op zero a = a) →
       GroupScan.scan_from op zero input = GroupScan.inclusive_scan op input).
Proof.
  intros Hws Hls HG Hassoc Hcomm Hty Halloc.
  destruct (scan_on_device_spec op zero warp_size G Hws Hls ltac:(lia) local_memory
              verbose q out input bufs HG Hty Halloc)
    as (io' & bufs' & Hrun & _ & Hcounts & Hscan).
  rewrite (Hscan Hassoc Hcomm) in Hrun. exists bufs'.
  split; [done|]. split; [done|]. split.
  - intros i Hi.
    rewrite (inclusive_scan_elements op zero input), list_lookup_fmap.
    by rewrite lookup_seq_lt.
  - intros Hid. destruct input as [|x input]; [done|]. simpl. by rewrite Hid.
Qed.

Lemma hierarchical_inclusive_scan_correct_witness :
  ∃ bufs',
    Hierarchical.scan_on_device 2 4 Nat.add 0 Samples.local_memory_4 false
      Samples.plain_queue [] (Hierarchical.Memory [1; 2; 3; 4; 5; 6; 7; 8]
                                [[0; 0; 0; 0]; [0; 0; 0; 0]])
    = Some (Hierarchical.Memory (GroupScan.inclusive_scan Nat.add [1; 2; 3; 4; 5; 6; 7; 8])
              bufs')
    ∧ length <$> bufs' = length <$> [[0; 0; 0; 0]; [0; 0; 0; 0]]
    ∧ (∀ i, i < length [1; 2; 3; 4; 5; 6; 7; 8] →
         GroupScan.inclusive_scan Nat.add [1; 2; 3; 4; 5; 6; 7; 8] !! i
         = Some (Algebra.psum Nat.add (Algebra.element 0 [1; 2; 3; 4; 5; 6; 7; 8] 0) 0 i))
    ∧ ((∀ a, 0 + a = a) →
       GroupScan.scan_from Nat.add 0 [1; 2; 3; 4; 5; 6; 7; 8]
       = GroupScan.inclusive_scan Nat.add [1; 2; 3; 4; 5; 6; 7; 8]).
Proof.
  apply (hierarchical_inclusive_scan_correct Nat.add 0 2 4 Samples.local_memory_4 false
           Samples.plain_queue [] [1; 2; 3; 4; 5; 6; 7; 8] [[0; 0; 0; 0]; [0; 0; 0; 0]]).
  - lia.
  - vm_compute. reflexivity.
  - lia.
  - intros a b c. lia.
  - intros a b. lia.
  - intros i g. vm_compute. split; reflexivity.
  - vm_compute. reflexivity.
Defined.

(** C1, as stated, fails: [first_nonzero] is associative and has the identity
    [0], yet on [1..8] with a granularity of four the scan leaves
    [1; 1; 3; 3; 5; 5; 7; 7] where the sequential scan has [1] everywhere. *)
Lemma hierarchical_inclusive_scan_needs_commutativity :
  (∀ a b c, Samples.first_nonzero a (Samples.first_nonzero b c)
            = Samples.first_nonzero (Samples.first_nonzero a b) c)
  ∧ (∀ a, Samples.first_nonzero 0 a = a ∧ Samples.first_nonzero a 0 = a)
  ∧ Hierarchical.allocated_for 4 8 [[0; 0; 0; 0]; [0; 0; 0; 0]]
  ∧ Hierarchical.in_out_buffer
      <$> Hierarchical.scan_on_device 2 4 Samples.first_nonzero 0 Samples.local_memory_4
            false Samples.plain_queue []
            (Hierarchical.Memory [1; 2; 3; 4; 5; 6; 7; 8] [[0; 0; 0; 0]; [0; 0; 0; 0]])
    = Some [1; 1; 3; 3; 5; 5; 7; 7]
  ∧ GroupScan.inclusive_scan Samples.first_nonzero [1; 2; 3; 4; 5; 6; 7; 8]
    = [1; 1; 1; 1; 1; 1; 1; 1]
  ∧ ¬ (∀ (op : nat → nat → nat) (input : list nat) (bufs : list (list nat)),
         (∀ a b c, op a (op b c) = op (op a b) c) →
         (∀ a, op 0 a = a ∧ op a 0 = a) →
         Hierarchical.allocated_for 4 (length input) bufs →
         Hierarchical.in_out_buffer
           <$> Hierarchical.scan_on_device 2 4 op 0 Samples.local_memory_4 false
                 Samples.plain_queue [] (Hierarchical.Memory input bufs)
         = Some (GroupScan.inclusive_scan op input)).
Proof.
  assert (∀ a b c, Samples.first_nonzero a (Samples.first_nonzero b c)
                   = Samples.first_nonzero (Samples.first_nonzero a b) c) as Hassoc.
  { intros a b c. unfold Samples.first_nonzero. repeat case_decide; lia. }
  assert (∀ a, Samples.first_nonzero 0 a = a ∧ Samples.first_nonzero a 0 = a) as Hid.
  { intros a. unfold Samples.first_nonzero. split; repeat case_decide; lia. }
  split; [done|]. split; [done|]. split; [by vm_compute|].
  split; [by vm_compute|]. split; [by vm_compute|].
  intros Hclaim.
  specialize (Hclaim Samples.first_nonzero [1; 2; 3; 4; 5; 6; 7; 8]
                [[0; 0; 0; 0]; [0; 0; 0; 0]] Hassoc Hid ltac:(by vm_compute)).
  vm_compute in Hclaim. discriminate Hclaim.
Qed.

(** C6, as the code has it: for an array of exactly one block the chain
    consists of one intermediate buffer of [G] elements, a single reduction
    is submitted, and with an associative and commutative operator it leaves
    the inclusive scan of the block in the array. *)
Theorem single_block_scan_chain {Scalar : Type}
    (op : Scalar → Scalar → Scalar) (zero : Scalar) (warp_size G : nat)
    (local_memory : nat → nat → GroupScan.local_allocation Scalar) (verbose : bool)
    (q : Profiling.queue (Hierarchical.memory Scalar → option (Hierarchical.memory Scalar)))
    (out : list Profiling.profile_line) (input b : list Scalar) :
  2 ≤ warp_size → Hierarchical.local_size `mod` warp_size = 0 → 2 ≤ G →
  (∀ a b c, op a (op b c) = op (op a b) c) →
  (∀ a b, op a b = op b a) →
  (∀ i g, GroupScan.has_type (local_memory i g)
            (GroupScan.inclusive_scan_local_allocation warp_size G)) →
  length input = G → length b = G →
  Hierarchical.hierarchical_inclusive_scan_allocate G G = Some [G]
  ∧ length (Profiling.submitted
              (Hierarchical.hierarchical_inclusive_scan warp_size G op zero local_memory
                 verbose q out (Hierarchical.Memory input [b])).1)
    = S (length (Profiling.submitted q))
  ∧ ∃ b',
      Hierarchical.scan_on_device warp_size G op zero local_memory verbose q out
        (Hierarchical.Memory input [b])
      = Some (Hierarchical.Memory (GroupScan.inclusive_scan op input) [b'])
      ∧ length b' = G.
Proof.
  intros Hws Hls HG Hassoc Hcomm Hty Hinput Hb.
  assert (Hierarchical.hierarchical_inclusive_scan_allocate G G = Some [G]) as Halloc.
  { unfold Hierarchical.hierarchical_inclusive_scan_allocate.
    rewrite decide_True by (apply Nat.Div0.mod_same).
    rewrite (allocate_unfold G HG G), decide_True by lia.
    rewrite (div_ceil_small G G) by lia.
    rewrite (allocate_unfold G HG 1), decide_False by lia.
    unfold ceil. rewrite (div_ceil_small 1 G) by lia. do 2 f_equal. lia. }
  split; [done|]. split.
  - destruct (hierarchical_inclusive_scan_submits op zero warp_size G local_memory verbose q
                out (Hierarchical.Memory input [b])) as [-> _].
    rewrite length_app. unfold Levels.kernels. simpl. lia.
  - destruct (scan_on_device_spec op zero warp_size G Hws Hls ltac:(lia) local_memory
                verbose q out input [b] HG Hty)
      as (io' & bufs' & Hrun & _ & Hcounts & Hscan).
    { unfold Hierarchical.allocated_for. rewrite Hinput, Halloc. simpl. by rewrite Hb. }
    rewrite (Hscan Hassoc Hcomm) in Hrun.
    destruct bufs' as [|b' [|? ?]]; try done.
    exists b'. split; [done|]. injection Hcounts as ->. done.
Qed.

Lemma single_block_scan_chain_witness :
  Hierarchical.hierarchical_inclusive_scan_allocate 4 4 = Some [4]
  ∧ length (Profiling.submitted
              (Hierarchical.hierarchical_inclusive_scan 2 4 Nat.add 0 Samples.local_memory_4
                 false Samples.plain_queue []
                 (Hierarchical.Memory [1; 2; 3; 4] [[0; 0; 0; 0]])).1)
    = S (length (Profiling.submitted Samples.plain_queue))
  ∧ ∃ b',
      Hierarchical.scan_on_device 2 4 Nat.add 0 Samples.local_memory_4 false
        Samples.plain_queue [] (Hierarchical.Memory [1; 2; 3; 4] [[0; 0; 0; 0]])
      = Some (Hierarchical.Memory (GroupScan.inclusive_scan Nat.add [1; 2; 3; 4]) [b'])
      ∧ length b' = 4.
Proof.
  apply (single_block_scan_chain Nat.add 0 2 4 Samples.local_memory_4 false
           Samples.plain_queue [] [1; 2; 3; 4] [0; 0; 0; 0]).
  - lia.
  - vm_compute. reflexivity.
  - lia.
  - intros a b c. lia.
  - intros a b. lia.
  - intros i g. vm_compute. split; reflexivity.
  - reflexivity.
  - reflexivity.
Defined.

(** C6, as stated, fails: the chain for a single block is not empty, and
    with an empty chain nothing would be submitted and the block would stay
    as it was.  The scan of the single block is the sequential one only for a
    commutative operator: with [first_nonzero] the block [1; 2; 3; 4] ends as
    [1; 1; 3; 3]. *)
Lemma single_block_chain_is_not_empty :
  Hierarchical.hierarchical_inclusive_scan_allocate 4 4 = Some [4]
  ∧ Hierarchical.hierarchical_inclusive_scan_allocate 4 4 ≠ Some []
  ∧ Hierarchical.hierarchical_inclusive_scan_allocate 512 512 = Some [512]
  ∧ Hierarchical.scan_on_device 2 4 Nat.add 0 Samples.local_memory_4 false
      Samples.plain_queue [] (Hierarchical.Memory [1; 2; 3; 4] [])
    = Some (Hierarchical.Memory [1; 2; 3; 4] [])
  ∧ Hierarchical.scan_on_device 2 4 Samples.first_nonzero 0 Samples.local_memory_4 false
      Samples.plain_queue [] (Hierarchical.Memory [1; 2; 3; 4] [[0; 0; 0; 0]])
    = Some (Hierarchical.Memory [1; 1; 3; 3] [[3; 0; 0; 0]])
  ∧ GroupScan.inclusive_scan Samples.first_nonzero [1; 2; 3; 4] = [1; 1; 1; 1].
Proof.
  split; [by vm_compute|]. split; [by vm_compute|]. split; [by vm_compute|].
  split; [by vm_compute|]. split; by vm_compute.
Qed.

(** C9: for an array whose size is a multiple of the granularity and the
    chain allocated for it, every access of the reduction and expansion
    kernels lies within its buffer, whatever the operator: the command groups
    run to the end with every access checked and keep all counts; every
    buffer is a multiple of the granularity; at each level the reduction
    launches exactly [size / G] groups, each with its block, the read of the
    last element of the block and its slot of the small buffer in range; and
    the expansion launches [size / G - 1] groups, each with its shifted block
    and its carry in range. *)
Theorem hierarchical_scan_in_bounds {Scalar : Type}
    (op : Scalar → Scalar → Scalar) (zero : Scalar) (warp_size G : nat)
    (local_memory : nat → nat → GroupScan.local_allocation Scalar) (verbose : bool)
    (q : Profiling.queue (Hierarchical.memory Scalar → option (Hierarchical.memory Scalar)))
    (out : list Profiling.profile_line) (input : list Scalar) (bufs : list (list Scalar)) :
  2 ≤ warp_size → Hierarchical.local_size `mod` warp_size = 0 → 2 ≤ G →
  (∀ i g, GroupScan.has_type (local_memory i g)
            (GroupScan.inclusive_scan_local_allocation warp_size G)) →
  Hierarchical.allocated_for G (length input) bufs →
  (∃ m',
     Hierarchical.scan_on_device warp_size G op zero local_memory verbose q out
       (Hierarchical.Memory input bufs) = Some m'
     ∧ Levels.same_counts m' (Hierarchical.Memory input bufs))
  ∧ length input `mod` G = 0
  ∧ Forall (λ b, length b `mod` G = 0) bufs
  ∧ ∀ i, i < length bufs →
      ∃ big small,
        Hierarchical.big_buffer (Hierarchical.Memory input bufs) i = Some big
        ∧ bufs !! i = Some small
        ∧ length big `mod` G = 0
        ∧ div_ceil (length big) G = length big / G
        ∧ (∀ g, g < length big / G →
             g * G + G ≤ length big ∧ g * G + (G - 1) < length big ∧ g < length small)
        ∧ Hierarchical.expansion_group_range G (length big) = Some (length big / G - 1)
        ∧ (∀ g, g < length big / G - 1 →
             (g + 1) * G + G ≤ length big ∧ g < length small).
Proof.
  intros Hws Hls HG Hty Halloc.
  pose proof (allocate_chain_ok G HG (length input) bufs Halloc) as Hok.
  split; [|split; [|split]].
  - destruct (scan_on_device_spec op zero warp_size G Hws Hls ltac:(lia) local_memory
                verbose q out input bufs HG Hty Halloc)
      as (io' & bufs' & Hrun & Hio & Hcounts & _).
    eexists. split; [done|]. by split.
  - unfold Hierarchical.allocated_for, Hierarchical.hierarchical_inclusive_scan_allocate
      in Halloc. by case_decide.
  - unfold Hierarchical.allocated_for, Hierarchical.hierarchical_inclusive_scan_allocate
      in Halloc. case_decide; [|done]. injection Halloc as Halloc.
    pose proof (allocate_loop_multiples G HG (length input) (length input)) as Hm.
    rewrite Halloc in Hm. by apply Forall_fmap in Hm.
  - intros i Hi.
    destruct (chain_ok_level G bufs input i Hok Hi)
      as (big & small & Hbig & Hsmall & Hpos & Hmod & Hroom).
    exists big, small.
    pose proof (multiple_div (length big) G ltac:(lia) Hmod) as Hlen.
    assert (0 < length big / G) by (destruct (length big / G); lia).
    repeat split; try done.
    + apply div_ceil_exact; [lia|done].
    + nia.
    + nia.
    + lia.
    + unfold Hierarchical.expansion_group_range.
      rewrite div_ceil_exact by (done || lia). by rewrite decide_True.
    + nia.
    + lia.
Qed.

Lemma hierarchical_scan_in_bounds_witness :
  ∃ m',
    Hierarchical.scan_on_device 2 4 Samples.first_nonzero 0 Samples.local_memory_4 false
      Samples.plain_queue []
      (Hierarchical.Memory [1; 2; 3; 4; 5; 6; 7; 8] [[0; 0; 0; 0]; [0; 0; 0; 0]]) = Some m'
    ∧ Levels.same_counts m'
        (Hierarchical.Memory [1; 2; 3; 4; 5; 6; 7; 8] [[0; 0; 0; 0]; [0; 0; 0; 0]]).
Proof.
  apply (hierarchical_scan_in_bounds Samples.first_nonzero 0 2 4 Samples.local_memory_4
           false Samples.plain_queue [] [1; 2; 3; 4; 5; 6; 7; 8]
           [[0; 0; 0; 0]; [0; 0; 0; 0]]).
  - lia.
  - vm_compute. reflexivity.
  - lia.
  - intros i g. vm_compute. split; reflexivity.
  - vm_compute. reflexivity.
Defined.

(** * Further properties of the code *)

(** ** Timing *)

Section TimingFacts.
Import Profiling Timing.

Lemma foldl_min_le {A} (f : A → Z) (l : list A) (a : Z) :
  (foldl (λ s x, Z.min s (f x)) a l ≤ a)%Z
  ∧ ∀ x, x ∈ l → (foldl (λ s x, Z.min s (f x)) a l ≤ f x)%Z.
Proof.
revert a. induction l as [|y l IH]; intros a; simpl.
- split; [lia|]. intros x Hx. by apply elem_of_nil in Hx.
- destruct (IH (Z.min a (f y))) as [H1 H2]. split; [lia|].
  intros x Hx. apply elem_of_cons in Hx as [->|Hx]; [lia|]. by apply H2.
Qed.

Lemma foldl_min_ge {A} (f : A → Z) (l : list A) (a lo : Z) :
  (lo ≤ a)%Z → (∀ x, x ∈ l → (lo ≤ f x)%Z) →
  (lo ≤ foldl (λ s x, Z.min s (f x)) a l)%Z.
Proof.
revert a. induction l as [|y l IH]; intros a Ha Hl; simpl; [done|].
apply IH.
- specialize (Hl y ltac:(left)). lia.
- intros x Hx. apply Hl. by right.
Qed.

Lemma foldl_max_ge {A} (f : A → Z) (l : list A) (a : Z) :
  (a ≤ foldl (λ s x, Z.max s (f x)) a l)%Z
  ∧ ∀ x, x ∈ l → (f x ≤ foldl (λ s x, Z.max s (f x)) a l)%Z.
Proof.
revert a. induction l as [|y l IH]; intros a; simpl.
- split; [lia|]. intros x Hx. by apply elem_of_nil in Hx.
- destruct (IH (Z.max a (f y))) as [H1 H2]. split; [lia|].
  intros x Hx. apply elem_of_cons in Hx as [->|Hx]; [lia|]. by apply H2.
Qed.

Lemma foldl_max_le {A} (f : A → Z) (l : list A) (a hi : Z) :
  (a ≤ hi)%Z → (∀ x, x ∈ l → (f x ≤ hi)%Z) →
  (foldl (λ s x, Z.max s (f x)) a l ≤ hi)%Z.
Proof.
revert a. induction l as [|y l IH]; intros a Ha Hl; simpl; [done|].
apply IH.
- specialize (Hl y ltac:(left)). lia.
- intros x Hx. apply Hl. by right.
Qed.

Lemma earliest_event_start_facts (e : events) :
  Forall in_range (members e) →
  is_uint64 (earliest_event_start e)
  ∧ ∀ x, x ∈ members e → (earliest_event_start e ≤ command_start x)%Z.
Proof.
intros Hr. rewrite Forall_forall in Hr. destruct e as [evt|evts]; simpl in *.
- split; [apply (Hr evt); by left|].
  intros x Hx. apply list_elem_of_singleton in Hx as ->. lia.
- destruct (foldl_min_le command_start evts UINT64_MAX) as [H1 H2].
  split; [|done]. split; [|done].
  apply foldl_min_ge; [unfold UINT64_MAX; lia|].
  intros x Hx. by destruct (Hr x Hx) as [[? ?] _].
Qed.

Lemma latest_event_end_facts (e : events) :
  Forall in_range (members e) →
  is_uint64 (latest_event_end e)
  ∧ ∀ x, x ∈ members e → (command_end x ≤ latest_event_end e)%Z.
Proof.
intros Hr. rewrite Forall_forall in Hr. destruct e as [evt|evts]; simpl in *.
- split; [apply (Hr evt); by left|].
  intros x Hx. apply list_elem_of_singleton in Hx as ->. lia.
- destruct (foldl_max_ge command_end evts 0) as [H1 H2].
  split; [|done]. split; [done|].
  apply foldl_max_le; [unfold UINT64_MAX; lia|].
  intros x Hx. by destruct (Hr x Hx) as [_ [? ?]].
Qed.

Lemma foldl_min_fmap {A} (f : A → Z) (l : list A) (a : Z) :
  foldl Z.min a (f <$> l) = foldl (λ s x, Z.min s (f x)) a l.
Proof. revert a. induction l as [|y l IH]; intros a; csimpl; [done|]. by rewrite IH. Qed.

Lemma foldl_max_fmap {A} (f : A → Z) (l : list A) (a : Z) :
  foldl Z.max a (f <$> l) = foldl (λ s x, Z.max s (f x)) a l.
Proof. revert a. induction l as [|y l IH]; intros a; csimpl; [done|]. by rewrite IH. Qed.
End TimingFacts.

(** [measure_duration] on events whose timestamps are values of [uint64_t]:
    the start reported is at most the start of every event handed in, the end
    reported is at least the end of every event, both are values of
    [uint64_t] again, and as soon as one of the events ends no earlier than it
    starts the duration is the plain difference of the two, without
    wrap-around. *)
Theorem measure_duration_bounds (e : Profiling.events) (es : list Profiling.events) :
  Forall Timing.in_range (mjoin (Timing.members <$> e :: es)) →
  let r := Profiling.measure_duration e es in
  (∀ x, x ∈ mjoin (Timing.members <$> e :: es) →
     (r.1.1 ≤ Profiling.command_start x ∧ Profiling.command_end x ≤ r.1.2)%Z)
  ∧ Timing.is_uint64 r.1.1 ∧ Timing.is_uint64 r.1.2
  ∧ ((∃ x, x ∈ mjoin (Timing.members <$> e :: es)
           ∧ (Profiling.command_start x ≤ Profiling.command_end x)%Z) →
     Profiling.count r.2 = (r.1.2 - r.1.1)%Z).
Proof.
intros Hr.
assert (Hall : ∀ e', e' ∈ e :: es → Forall Timing.in_range (Timing.members e')).
{ intros e' He'. rewrite Forall_forall in Hr |- *. intros x Hx. apply Hr.
  apply list_elem_of_join. exists (Timing.members e'). split; [done|].
  by apply list_elem_of_fmap_2. }
assert (He : Forall Timing.in_range (Timing.members e)) by (apply Hall; left).
assert (Hes : ∀ e', e' ∈ es → Forall Timing.in_range (Timing.members e'))
  by (intros; apply Hall; by right).
cbv zeta. unfold Profiling.measure_duration. simpl fst. simpl snd.
rewrite foldl_min_fmap, foldl_max_fmap.
destruct (foldl_min_le Profiling.earliest_event_start es (Profiling.earliest_event_start e))
  as [Hmin1 Hmin2].
destruct (foldl_max_ge Profiling.latest_event_end es (Profiling.latest_event_end e))
  as [Hmax1 Hmax2].
destruct (earliest_event_start_facts e He) as [[He1 He2] He3].
destruct (latest_event_end_facts e He) as [[Hl1 Hl2] Hl3].
assert (Hearly : (0 ≤ foldl (λ s x, Z.min s (Profiling.earliest_event_start x))
                        (Profiling.earliest_event_start e) es)%Z).
{ apply foldl_min_ge; [done|].
  intros e' He'. by destruct (earliest_event_start_facts e' (Hes e' He')) as [[? ?] _]. }
assert (Hlate : (foldl (λ s x, Z.max s (Profiling.latest_event_end x))
                   (Profiling.latest_event_end e) es ≤ Profiling.UINT64_MAX)%Z).
{ apply foldl_max_le; [done|].
  intros e' He'. by destruct (latest_event_end_facts e' (Hes e' He')) as [[? ?] _]. }
set (early := foldl _ _ es) in *. set (late := foldl _ (Profiling.latest_event_end e) es) in *.
assert (Hbound : ∀ x, x ∈ mjoin (Timing.members <$> e :: es) →
   (early ≤ Profiling.command_start x ∧ Profiling.command_end x ≤ late)%Z).
{ intros x Hx. apply list_elem_of_join in Hx as (l & Hxl & Hl).
  apply list_elem_of_fmap in Hl as (e' & -> & He').
  apply elem_of_cons in He' as [->|He'].
  - specialize (He3 x Hxl). specialize (Hl3 x Hxl). lia.
  - destruct (earliest_event_start_facts e' (Hes e' He')) as [_ H3].
    destruct (latest_event_end_facts e' (Hes e' He')) as [_ H4].
    specialize (H3 x Hxl). specialize (H4 x Hxl).
    specialize (Hmin2 e' He'). specialize (Hmax2 e' He'). lia. }
split; [done|]. split; [split; lia|]. split; [split; lia|].
intros (x & Hx & Hle). destruct (Hbound x Hx) as [H1 H2].
unfold Profiling.wrap64. apply Z.mod_small.
unfold Profiling.UINT64_MAX in *. lia.
Qed.

Lemma measure_duration_bounds_witness :
  let e := Profiling.one_event (Profiling.Event 40 70) in
  let es := [Profiling.event_vector [Profiling.Event 10 20; Profiling.Event 30 90];
             Profiling.event_vector []] in
  Profiling.measure_duration e es = (10%Z, 90%Z, Profiling.KernelDuration 80)
  ∧ Timing.is_uint64 (Profiling.measure_duration e es).1.1.
Proof.
intros e es. split; [reflexivity|].
apply (measure_duration_bounds e es).
simpl. rewrite !Forall_cons, Forall_nil.
unfold Timing.in_range, Timing.is_uint64, Profiling.UINT64_MAX. simpl. lia.
Defined.

(** ** Submission with profiling *)

Section ProfiledSubmission.
Import Profiling Timing.
Context {CGF : Type}.

Lemma submit_and_profile_line (q : queue CGF) out label (cgf : CGF) :
  enable_profiling q = true →
  submit_and_profile true q out label cgf
  = (runtime_event q (length (submitted q)),
     Queue (enable_profiling q) (submitted q ++ [cgf]) (runtime_event q),
     out ++ [line_of (runtime_event q (length (submitted q))) label]).
Proof.
intros Hp. unfold submit_and_profile. rewrite Hp. simpl.
unfold measure_duration. simpl.
rewrite Z.min_id, Z.max_id, ?Hp. done.
Qed.

Lemma submit_loop_lines (label : nat → string) (cgf : nat → CGF) (l : list nat)
    (q : queue CGF) out :
  enable_profiling q = true →
  let s := foldl (λ s i, let '(_, q', out') :=
                           submit_and_profile true s.1 s.2 (label i) (cgf i) in
                         (q', out')) (q, out) l in
  s.2 = out ++ imap (λ n i, line_of (runtime_event q (length (submitted q) + n)) (label i)) l
  ∧ runtime_event s.1 = runtime_event q.
Proof.
revert q out. induction l as [|i l IH]; intros q out Hp; simpl.
- by rewrite app_nil_r.
- rewrite (submit_and_profile_line q out _ _ Hp). simpl.
  destruct (IH (Queue (enable_profiling q) (submitted q ++ [cgf i]) (runtime_event q))
              (out ++ [line_of (runtime_event q (length (submitted q))) (label i)]) Hp)
    as [H1 H2].
  simpl in H1, H2. rewrite H1, H2. split; [|done].
  rewrite <-app_assoc. f_equal. simpl. rewrite Nat.add_0_r. f_equal.
  apply imap_ext. intros n x _. simpl. rewrite length_app. simpl.
  do 2 f_equal. lia.
Qed.
End ProfiledSubmission.

(** With [verbose()] on and a queue created with [enable_profiling], a
    sequence of submissions prints exactly one line per work unit, in the
    order of submission: the line of the n-th unit carries its label, the two
    timestamps of the event the queue returned for it, and their difference
    modulo [2^64] as the duration. *)
Theorem submit_each_profile_lines {CGF : Type} (q : Profiling.queue CGF)
    (out : list Profiling.profile_line) (jobs : list (string * CGF)) :
  Profiling.enable_profiling q = true →
  (Profiling.submit_each true q out jobs).2
  = out ++ imap (λ n job,
                   Timing.line_of
                     (Profiling.runtime_event q (length (Profiling.submitted q) + n))
                     job.1) jobs.
Proof.
revert q out. induction jobs as [|job jobs IH]; intros q out Hp.
- simpl. by rewrite app_nil_r.
- unfold Profiling.submit_each in *. simpl.
  rewrite (submit_and_profile_line q out _ _ Hp).
  rewrite IH by done. simpl.
  rewrite <-app_assoc. f_equal. simpl. rewrite Nat.add_0_r. f_equal.
  apply imap_ext. intros n x _. simpl. rewrite length_app. simpl.
  do 2 f_equal. lia.
Qed.

Lemma submit_each_profile_lines_witness :
  (Profiling.submit_each true
     (Profiling.Queue true [7] (λ n, Profiling.Event (Z.of_nat n) (Z.of_nat (10 * n)))) []
     [("a", 8); ("b", 9)]).2
  = [Profiling.ProfileLine 1 10 "a" (Profiling.KernelDuration 9);
     Profiling.ProfileLine 2 20 "b" (Profiling.KernelDuration 18)].
Proof.
rewrite (submit_each_profile_lines
           (Profiling.Queue true [7] (λ n, Profiling.Event (Z.of_nat n) (Z.of_nat (10 * n))))
           [] [("a", 8); ("b", 9)]); reflexivity.
Defined.

(** ** The vector overloads of the timing helpers *)

Lemma foldl_min_attained {A} (f : A → Z) (l : list A) (a : Z) :
  foldl (λ s x, Z.min s (f x)) a l = a
  ∨ ∃ x, x ∈ l ∧ foldl (λ s x, Z.min s (f x)) a l = f x.
Proof.
revert a. induction l as [|y l IH]; intros a; simpl; [by left|].
destruct (IH (Z.min a (f y))) as [->|(x & Hx & ->)].
- destruct (Z.min_spec a (f y)) as [[_ ->]|[_ ->]]; [by left|].
  right. exists y. split; [left|done].
- right. exists x. split; [by right|done].
Qed.

Lemma foldl_max_attained {A} (f : A → Z) (l : list A) (a : Z) :
  foldl (λ s x, Z.max s (f x)) a l = a
  ∨ ∃ x, x ∈ l ∧ foldl (λ s x, Z.max s (f x)) a l = f x.
Proof.
revert a. induction l as [|y l IH]; intros a; simpl; [by left|].
destruct (IH (Z.max a (f y))) as [->|(x & Hx & ->)].
- destruct (Z.max_spec a (f y)) as [[_ ->]|[_ ->]]; [|by left].
  right. exists y. split; [left|done].
- right. exists x. split; [by right|done].
Qed.

(** The overloads of [earliest_event_start] and [latest_event_end] for a
    vector of events, on a vector that is not empty and whose timestamps are
    values of [uint64_t]: the first returns the smallest start and the second
    the largest end found in the vector, so the initial values [UINT64_MAX]
    and [0] of the two loops only show for the empty vector. *)
Theorem event_vector_extremes (evts : list Profiling.event) :
  Forall Timing.in_range evts → evts ≠ [] →
  (∃ x, x ∈ evts
        ∧ Profiling.earliest_event_start (Profiling.event_vector evts)
          = Profiling.command_start x)
  ∧ (∃ y, y ∈ evts
          ∧ Profiling.latest_event_end (Profiling.event_vector evts)
            = Profiling.command_end y)
  ∧ ∀ z, z ∈ evts →
      (Profiling.earliest_event_start (Profiling.event_vector evts)
       ≤ Profiling.command_start z
       ∧ Profiling.command_end z
         ≤ Profiling.latest_event_end (Profiling.event_vector evts))%Z.
Proof.
intros Hr Hne. rewrite Forall_forall in Hr. simpl.
destruct (foldl_min_le Profiling.command_start evts Profiling.UINT64_MAX) as [Hm1 Hm2].
destruct (foldl_max_ge Profiling.command_end evts 0) as [HM1 HM2].
destruct evts as [|e0 rest] eqn:Hevts; [done|]. rewrite <-Hevts in *.
assert (e0 ∈ evts) as He0 by (rewrite Hevts; left).
destruct (Hr e0 He0) as [[Hs1 Hs2] [He1 He2]].
split; [|split].
- destruct (foldl_min_attained Profiling.command_start evts Profiling.UINT64_MAX)
    as [Heq|Hex]; [|done].
  exists e0. split; [done|]. specialize (Hm2 e0 He0). lia.
- destruct (foldl_max_attained Profiling.command_end evts 0) as [Heq|Hex]; [|done].
  exists e0. split; [done|]. specialize (HM2 e0 He0). lia.
- intros z Hz. split; [by apply Hm2|by apply HM2].
Qed.

Lemma event_vector_extremes_witness :
  Profiling.earliest_event_start
    (Profiling.event_vector [Profiling.Event 30 90; Profiling.Event 10 20]) = 10%Z
  ∧ ∃ y, y ∈ [Profiling.Event 30 90; Profiling.Event 10 20]
         ∧ Profiling.latest_event_end
             (Profiling.event_vector [Profiling.Event 30 90; Profiling.Event 10 20])
           = Profiling.command_end y.
Proof.
split; [reflexivity|].
apply (event_vector_extremes [Profiling.Event 30 90; Profiling.Event 10 20]);
  [|discriminate].
rewrite !Forall_cons, Forall_nil.
unfold Timing.in_range, Timing.is_uint64, Profiling.UINT64_MAX. simpl. lia.
Defined.

(** ** The command groups the host submits *)

Lemma fmap_seq_down {A} (f : nat → A) (n : nat) :
  (λ i, f (n - i)) <$> seq 1 n = f <$> reverse (seq 0 n).
Proof.
apply list_eq. intros i. rewrite !list_lookup_fmap.
destruct (decide (i < n)) as [Hi|Hi].
- rewrite reverse_lookup by (rewrite length_seq; lia).
  rewrite length_seq, !lookup_seq_lt by lia. done.
- rewrite !lookup_ge_None_2; [done| |].
  + rewrite length_reverse, length_seq. lia.
  + rewrite length_seq. lia.
Qed.

Section HostFacts.
Import Profiling Timing Hierarchical.
Context {Scalar : Type}.
Variables (op : Scalar → Scalar → Scalar) (zero : Scalar).
Variables (warp_size G : nat).
Variable lmo : nat → nat → GroupScan.local_allocation Scalar.

Lemma kernels_descending (m : memory Scalar) :
  Levels.kernels warp_size G op zero lmo m
  = ((λ i, reduction_cgf warp_size G op zero lmo i (div_ceil (big_count m i) G))
       <$> seq 0 (length (intermediate_bufs m)))
    ++ ((λ ii, expansion_cgf G op ii (big_count m ii))
          <$> reverse (seq 0 (length (intermediate_bufs m) - 1))).
Proof.
unfold Levels.kernels. cbv zeta. f_equal.
by rewrite <-(fmap_seq_down (λ ii, expansion_cgf G op ii (big_count m ii))).
Qed.

Lemma hierarchical_inclusive_scan_lines
    (q : queue (memory Scalar → option (memory Scalar))) out m :
  enable_profiling q = true →
  (hierarchical_inclusive_scan warp_size G op zero lmo true q out m).2
  = out ++ imap (λ n label, line_of (runtime_event q (length (submitted q) + n)) label)
             (((λ i, "hierarchical_inclusive_scan reduce " +:+ pretty i)
                 <$> seq 0 (length (intermediate_bufs m)))
              ++ ((λ ii, "hierarchical_inclusive_scan expand " +:+ pretty ii)
                    <$> reverse (seq 0 (length (intermediate_bufs m) - 1)))).
Proof.
intros Hp. unfold hierarchical_inclusive_scan. cbv zeta.
set (size := length (intermediate_bufs m)).
pose proof (submit_loop true
              (λ i, "hierarchical_inclusive_scan reduce " +:+ pretty i)
              (λ i, reduction_cgf warp_size G op zero lmo i (div_ceil (big_count m i) G))
              (seq 0 size) q out) as (H1 & H2 & _).
pose proof (submit_loop_lines
              (λ i, "hierarchical_inclusive_scan reduce " +:+ pretty i)
              (λ i, reduction_cgf warp_size G op zero lmo i (div_ceil (big_count m i) G))
              (seq 0 size) q out Hp) as (H3 & H4).
cbv beta zeta in H1, H2, H3, H4.
match type of H1 with submitted (?s).1 = _ => remember s as s1 eqn:Hs1 end.
clear Hs1. destruct s1 as [q1 out1]. simpl in H1, H2, H3, H4.
pose proof (submit_loop_lines
              (λ i, "hierarchical_inclusive_scan expand " +:+ pretty (size - 1 - i))
              (λ i, expansion_cgf G op (size - 1 - i) (big_count m (size - 1 - i)))
              (seq 1 (size - 1)) q1 out1 ltac:(congruence)) as (K3 & _).
cbv beta zeta in K3. rewrite K3, H3, H4, H1.
rewrite <-app_assoc. f_equal. rewrite imap_app. f_equal.
- by rewrite imap_fmap.
- rewrite <-(fmap_seq_down (λ ii, "hierarchical_inclusive_scan expand " +:+ pretty ii)).
  rewrite !imap_fmap. apply imap_ext. intros n i _. simpl.
  rewrite !length_app, !length_fmap, !length_seq. do 2 f_equal. lia.
Qed.
End HostFacts.

(** The host side of [hierarchical_inclusive_scan] with a chain of [size]
    intermediate buffers: it submits the reductions of the levels
    [0, 1, ..., size - 1] followed by the expansions of the levels
    [size - 2, ..., 0], which is [2 * size - 1] command groups and none for
    the empty chain.  With [verbose()] on and a profiling queue it prints one
    line per command group, in the same order, labelled with the phase and
    the level and carrying the timestamps of the event of that submission. *)
Theorem hierarchical_inclusive_scan_launches {Scalar : Type}
    (op : Scalar → Scalar → Scalar) (zero : Scalar) (warp_size granularity : nat)
    (local_memory : nat → nat → GroupScan.local_allocation Scalar) (verbose : bool)
    (q : Profiling.queue (Hierarchical.memory Scalar → option (Hierarchical.memory Scalar)))
    (out : list Profiling.profile_line) (m : Hierarchical.memory Scalar) :
  let size := length (Hierarchical.intermediate_bufs m) in
  let r := Hierarchical.hierarchical_inclusive_scan warp_size granularity op zero
             local_memory verbose q out m in
  Profiling.submitted r.1
  = Profiling.submitted q
    ++ ((λ i, Hierarchical.reduction_cgf warp_size granularity op zero local_memory i
                (div_ceil (Hierarchical.big_count m i) granularity)) <$> seq 0 size)
    ++ ((λ ii, Hierarchical.expansion_cgf granularity op ii (Hierarchical.big_count m ii))
          <$> reverse (seq 0 (size - 1)))
  ∧ length (Profiling.submitted r.1) = length (Profiling.submitted q) + (2 * size - 1)
  ∧ (verbose = true → Profiling.enable_profiling q = true →
     r.2 = out ++ imap (λ n label,
                          Timing.line_of
                            (Profiling.runtime_event q (length (Profiling.submitted q) + n))
                            label)
                    (((λ i, "hierarchical_inclusive_scan reduce " +:+ pretty i)
                        <$> seq 0 size)
                     ++ ((λ ii, "hierarchical_inclusive_scan expand " +:+ pretty ii)
                           <$> reverse (seq 0 (size - 1))))).
Proof.
intros size r.
destruct (hierarchical_inclusive_scan_submits op zero warp_size granularity
            local_memory verbose q out m) as [H1 _].
fold r in H1. rewrite kernels_descending in H1. fold size in H1.
split; [done|]. split.
- rewrite H1, !length_app, !length_fmap, length_seq, length_reverse, length_seq. lia.
- intros -> Hp. subst r. by rewrite hierarchical_inclusive_scan_lines.
Qed.

Lemma hierarchical_inclusive_scan_launches_witness :
  Profiling.line_label
    <$> (Hierarchical.hierarchical_inclusive_scan 2 4 Nat.add 0 Samples.local_memory_4 true
           (Profiling.Queue true [] (λ n, Profiling.Event 0 (Z.of_nat n))) []
           (Hierarchical.Memory [1; 2; 3; 4; 5; 6; 7; 8] [[0; 0; 0; 0]; [0; 0; 0; 0]])).2
  = ["hierarchical_inclusive_scan reduce 0"; "hierarchical_inclusive_scan reduce 1";
     "hierarchical_inclusive_scan expand 0"].
Proof.
rewrite (proj2 (proj2 (hierarchical_inclusive_scan_launches Nat.add 0 2 4
           Samples.local_memory_4 true
           (Profiling.Queue true [] (λ n, Profiling.Event 0 (Z.of_nat n))) []
           (Hierarchical.Memory [1; 2; 3; 4; 5; 6; 7; 8] [[0; 0; 0; 0]; [0; 0; 0; 0]]))));
  reflexivity.
Defined.

(** The memory the scan leaves on the device does not depend on the
    instrumentation: whether [verbose()] is on, whether the queue profiles,
    what was submitted to it before and which events it reports make no
    difference to the command groups that run. *)
Theorem scan_on_device_unobserved {Scalar : Type}
    (op : Scalar → Scalar → Scalar) (zero : Scalar) (warp_size granularity : nat)
    (local_memory : nat → nat → GroupScan.local_allocation Scalar)
    (verbose verbose' : bool)
    (q q' : Profiling.queue (Hierarchical.memory Scalar → option (Hierarchical.memory Scalar)))
    (out out' : list Profiling.profile_line) (m : Hierarchical.memory Scalar) :
  Hierarchical.scan_on_device warp_size granularity op zero local_memory verbose q out m
  = Hierarchical.scan_on_device warp_size granularity op zero local_memory verbose' q' out' m.
Proof. by rewrite !scan_on_device_kernels. Qed.

(** ** The group scan at any [Range] *)

Section FoldFacts.
Context {A B : Type}.
Variable P : B → Prop.
Variable f : B → A → option B.
Hypothesis step : ∀ s x s', P s → f s x = Some s' → P s'.

Lemma foldM_invariant l s s' : P s → foldM f s l = Some s' → P s'.
Proof.
revert s. induction l as [|x l IH]; intros s Hs; simpl.
- by intros [= <-].
- destruct (f s x) as [s1|] eqn:Hx; simpl; [|done]. apply IH. by eapply step.
Qed.

Lemma foldM_fails l x0 s :
  P s → x0 ∈ l → (∀ s, P s → f s x0 = None) → foldM f s l = None.
Proof.
intros Hs Hin Hfail. revert s Hs. induction l as [|x l IH]; intros s Hs.
- by apply elem_of_nil in Hin.
- simpl. apply elem_of_cons in Hin as [<-|Hin].
  + by rewrite Hfail.
  + destruct (f s x) as [s1|] eqn:Hx; simpl; [|done]. apply IH; [done|]. by eapply step.
Qed.
End FoldFacts.

Lemma store_length {A} (a : list A) i v a' : store a i v = Some a' → length a' = length a.
Proof. unfold store. case_decide; [|done]. intros [= <-]. apply length_insert. Qed.

Section GroupScanFrame.
Import Group GroupScan.
Context {Scalar : Type}.
Variable op : Scalar → Scalar → Scalar.
Variable zero : Scalar.
Variables warp_size LocalSize : nat.

Lemma base_case_callback_length Range base acc sg acc' :
  base_case_callback op zero Range base acc sg = Some acc' → length acc' = length acc.
Proof.
unfold base_case_callback.
destruct (padded_reads zero Range acc base sg) as [a|]; simpl; [|done].
apply (foldM_invariant (λ x, length x = length acc)); [|done].
intros s x s' Hs. case_decide.
- intros Hst. apply store_length in Hst. congruence.
- by intros [= <-].
Qed.

Lemma fine_callback_length Range base acc st sg st' :
  fine_callback warp_size op zero LocalSize Range base acc st sg = Some st' →
  length st'.2 = length st.2.
Proof.
unfold fine_callback.
destruct (padded_reads zero Range acc base sg) as [a|]; simpl; [|done].
apply (foldM_invariant (λ x, length x.2 = length st.2)); [|done].
intros s x s' Hs. simpl. case_decide; [|done]. case_decide.
- destruct (store s.2 _ _) as [c|] eqn:Hst; simpl; [|done].
  intros [= <-]. simpl. apply store_length in Hst. congruence.
- by intros [= <-].
Qed.

Lemma carry_callback_length base fine coarse acc c acc' :
  carry_callback warp_size op base fine coarse acc c = Some acc' →
  length acc' = length acc.
Proof.
unfold carry_callback.
destruct (fine !! _); simpl; [|done].
destruct (if decide (warp_size ≤ item c) then _ else _); simpl; [|done].
apply store_length.
Qed.

(** Whatever the call does, it keeps the size of the array and the layout of
    the local memory. *)
Lemma inclusive_scan_over_group_preserves lm :
  ∀ Range acc base acc' lm',
    inclusive_scan_over_group warp_size op zero LocalSize Range lm acc base
    = Some (acc', lm') →
    length acc' = length acc ∧ ∀ ty, has_type lm ty → has_type lm' ty.
Proof.
induction lm as [|coarse next IH]; intros Range acc base acc' lm'.
- simpl. case_decide; [|done].
  destruct (for_each_sub_group _ _ _ _ _) as [a|] eqn:Ha; simpl; [|done].
  intros [= <- <-]. split; [|done].
  apply (foldM_invariant (λ x, length x = length acc) _
           (λ s x s' Hs Hx, eq_trans (base_case_callback_length _ _ _ _ _ Hx) Hs)
           _ _ _ eq_refl Ha).
- destruct (decide (Range ≤ warp_size)) as [HR|HR].
  + rewrite inclusive_scan_over_group_base_eq by done.
    destruct (for_each_sub_group _ _ _ _ _) as [a|] eqn:Ha; simpl; [|done].
    intros [= <- <-]. split; [|done].
    apply (foldM_invariant (λ x, length x = length acc) _
             (λ s x s' Hs Hx, eq_trans (base_case_callback_length _ _ _ _ _ Hx) Hs)
             _ _ _ eq_refl Ha).
  + rewrite inclusive_scan_over_group_rec_eq by done.
    destruct (for_each_sub_group _ _ _ _ _) as [st|] eqn:Hst; simpl; [|done].
    destruct (inclusive_scan_over_group _ _ _ _ _ next _ _) as [r|] eqn:Hr; simpl; [|done].
    destruct (for_each_call _ _ _ _) as [a|] eqn:Ha; simpl; [|done].
    intros [= <- <-]. destruct r as [r1 r2]. apply IH in Hr as [Hr1 Hr2]. split.
    * apply (foldM_invariant (λ x, length x = length acc) _
               (λ s x s' Hs Hx, eq_trans (carry_callback_length _ _ _ _ _ _ Hx) Hs)
               _ _ _ eq_refl Ha).
    * intros [R|R len ty]; simpl; [done|]. intros [Hlen Hty]. split; [|by apply Hr2].
      simpl in Hr1. rewrite Hr1, <-Hlen.
      apply (foldM_invariant (λ x, length x.2 = length coarse) _
               (λ s x s' Hs Hx,
                  eq_trans (fine_callback_length _ _ _ _ _ _ Hx) Hs)
               _ (∅, coarse) st eq_refl Hst).
Qed.

Hypothesis warp_size_pos : 0 < warp_size.

(** The sub-group of the last element reads it. *)
Lemma padded_reads_outside Range acc base :
  0 < Range → length acc < base + Range →
  padded_reads zero Range acc base
    (Schedule.warp_calls warp_size LocalSize (div_ceil Range warp_size - 1))
  = None.
Proof.
intros HR Hlen. unfold padded_reads. apply mapM_None, Exists_exists.
exists (Schedule.call_of_item LocalSize (Range - 1)). split.
- unfold Schedule.warp_calls. apply list_elem_of_fmap_2, elem_of_seq.
  destruct (div_ceil_bounds Range warp_size warp_size_pos) as [H1 H2].
  pose proof (div_ceil_pos Range warp_size warp_size_pos HR).
  set (W := div_ceil Range warp_size) in *. clearbody W. nia.
- simpl. rewrite decide_True by lia. apply lookup_ge_None_2. lia.
Qed.

Lemma last_warp_scheduled Range :
  0 < Range →
  Schedule.warp_calls warp_size LocalSize (div_ceil Range warp_size - 1)
  ∈ Schedule.warp_calls warp_size LocalSize <$> seq 0 (div_ceil Range warp_size).
Proof.
intros HR. apply list_elem_of_fmap_2, elem_of_seq.
pose proof (div_ceil_pos Range warp_size warp_size_pos HR). lia.
Qed.

Hypothesis LocalSize_pos : 0 < LocalSize.
Hypothesis LocalSize_warps : LocalSize `mod` warp_size = 0.

Lemma inclusive_scan_over_group_outside Range lm acc base :
  0 < Range → length acc < base + Range →
  inclusive_scan_over_group warp_size op zero LocalSize Range lm acc base = None.
Proof.
intros HR Hlen. destruct (decide (Range ≤ warp_size)) as [Hle|Hle].
- rewrite inclusive_scan_over_group_base_eq by done.
  rewrite for_each_sub_group_warps; [|done|done|done|by apply ceil_mod|done].
  rewrite ceil_div by done.
  rewrite (foldM_fails (λ x, length x = length acc) _
             (λ s x s' Hs Hx, eq_trans (base_case_callback_length _ _ _ _ _ Hx) Hs)
             _ _ acc eq_refl (last_warp_scheduled Range HR));
    [done|].
  intros s Hs. unfold base_case_callback. rewrite padded_reads_outside; [done|done|lia].
- destruct lm as [|coarse next]; [simpl; by rewrite decide_False|].
  rewrite inclusive_scan_over_group_rec_eq by done.
  rewrite for_each_sub_group_warps; [|done|done|done|by apply ceil_mod|done].
  rewrite ceil_div by done.
  rewrite (foldM_fails (λ _, True) _ (λ _ _ _ _ _, I) _ _ _ I (last_warp_scheduled Range HR));
    [done|].
  intros s _. unfold fine_callback. by rewrite padded_reads_outside.
Qed.
End GroupScanFrame.

(** [inclusive_scan_over_group] at any [Range], whatever the operator: with
    local memory of the layout of this [Range] and the [Range] elements behind
    the accessor inside the array, the call runs to the end, writes only to
    those [Range] elements (the array keeps its size, the elements before and
    after the run are unchanged) and hands the local memory back in the same
    layout. *)
Theorem inclusive_scan_over_group_in_place {Scalar : Type}
    (op : Scalar → Scalar → Scalar) (zero : Scalar) (warp_size LocalSize Range : nat)
    (lm : GroupScan.local_allocation Scalar) (acc : list Scalar) (base : nat) :
  2 ≤ warp_size → 0 < LocalSize → LocalSize `mod` warp_size = 0 →
  GroupScan.has_type lm (GroupScan.inclusive_scan_local_allocation warp_size Range) →
  base + Range ≤ length acc →
  ∃ acc' lm',
    GroupScan.inclusive_scan_over_group warp_size op zero LocalSize Range lm acc base
    = Some (acc', lm')
    ∧ length acc' = length acc
    ∧ take base acc' = take base acc
    ∧ drop (base + Range) acc' = drop (base + Range) acc
    ∧ GroupScan.has_type lm' (GroupScan.inclusive_scan_local_allocation warp_size Range).
Proof.
intros Hws HLS Hmod Hty Hlen.
destruct (inclusive_scan_over_group_spec op zero warp_size LocalSize ltac:(lia) HLS Hmod Hws
            Range lm acc base Hty Hlen) as (out & lm' & Heq & _).
exists (window acc base out Range), lm'. split; [done|].
destruct (inclusive_scan_over_group_preserves op zero warp_size LocalSize lm _ _ _ _ _ Heq)
  as [H1 H2].
split; [done|]. split; [|split; [|by apply H2]].
- unfold window. apply take_app_length'. rewrite length_take. lia.
- unfold window. rewrite app_assoc. apply drop_app_length'.
  rewrite length_app, length_take, length_fmap, length_seq. lia.
Qed.

Lemma inclusive_scan_over_group_in_place_witness :
  ∃ acc' lm',
    GroupScan.inclusive_scan_over_group 2 Nat.sub 0 4 5
      (GroupScan.lm_nested [0; 0; 0] (GroupScan.lm_nested [0; 0] GroupScan.lm_empty))
      [9; 1; 2; 3; 4; 5; 7] 1
    = Some (acc', lm')
    ∧ length acc' = 7.
Proof.
destruct (inclusive_scan_over_group_in_place Nat.sub 0 2 4 5
            (GroupScan.lm_nested [0; 0; 0] (GroupScan.lm_nested [0; 0] GroupScan.lm_empty))
            [9; 1; 2; 3; 4; 5; 7] 1)
  as (acc' & lm' & H1 & H2 & _);
  [lia|lia|reflexivity|vm_compute; tauto|simpl; lia|].
exists acc', lm'. split; [exact H1|exact H2].
Defined.

(** [inclusive_scan_over_group] at any [Range], for an associative and
    commutative operator: the [Range] elements behind the accessor are
    replaced by their sequential inclusive scan, also when [Range] exceeds the
    warp size and the scan goes through the nested local memory.  The array
    that results depends neither on the padding value, nor on what the local
    memory held, nor on the size of the group. *)
Theorem inclusive_scan_over_group_sequential {Scalar : Type}
    (op : Scalar → Scalar → Scalar) (zero : Scalar) (warp_size LocalSize Range : nat)
    (lm : GroupScan.local_allocation Scalar) (acc : list Scalar) (base : nat) :
  2 ≤ warp_size → 0 < LocalSize → LocalSize `mod` warp_size = 0 →
  (∀ a b c, op a (op b c) = op (op a b) c) → (∀ a b, op a b = op b a) →
  GroupScan.has_type lm (GroupScan.inclusive_scan_local_allocation warp_size Range) →
  base + Range ≤ length acc →
  fst <$> GroupScan.inclusive_scan_over_group warp_size op zero LocalSize Range lm acc base
  = Some (take base acc
          ++ GroupScan.inclusive_scan op (take Range (drop base acc))
          ++ drop (base + Range) acc).
Proof.
intros Hws HLS Hmod Hassoc Hcomm Hty Hlen.
destruct (inclusive_scan_over_group_spec op zero warp_size LocalSize ltac:(lia) HLS Hmod Hws
            Range lm acc base Hty Hlen) as (out & lm' & -> & Hout).
simpl. f_equal.
rewrite (window_ext acc base out (Algebra.psum op (Algebra.element zero acc base) 0))
  by (intros; by apply Hout).
unfold window. do 2 f_equal.
rewrite (take_drop_fmap_seq zero acc base Range) by done.
by rewrite inclusive_scan_seq.
Qed.

Lemma inclusive_scan_over_group_sequential_witness :
  fst <$> GroupScan.inclusive_scan_over_group 2 Nat.add 0 4 5
            (GroupScan.lm_nested [0; 0; 0] (GroupScan.lm_nested [0; 0] GroupScan.lm_empty))
            [9; 1; 2; 3; 4; 5; 7] 1
  = Some [9; 1; 3; 6; 10; 15; 7].
Proof.
rewrite (inclusive_scan_over_group_sequential Nat.add 0 2 4 5
           (GroupScan.lm_nested [0; 0; 0] (GroupScan.lm_nested [0; 0] GroupScan.lm_empty))
           [9; 1; 2; 3; 4; 5; 7] 1);
  [reflexivity|lia|lia|reflexivity|intros; lia|intros; lia|vm_compute; tauto|simpl; lia].
Defined.

(** The accesses of [inclusive_scan_over_group] are exactly the [Range]
    elements behind the accessor: given local memory of the right layout, the
    call stays inside the array if and only if [Range] is zero or the run
    [acc[0 .. Range - 1]] lies inside it.  The element [acc[Range - 1]] is
    always read, so a run that sticks out of the array is an access out of
    bounds. *)
Theorem inclusive_scan_over_group_bounds {Scalar : Type}
    (op : Scalar → Scalar → Scalar) (zero : Scalar) (warp_size LocalSize Range : nat)
    (lm : GroupScan.local_allocation Scalar) (acc : list Scalar) (base : nat) :
  2 ≤ warp_size → 0 < LocalSize → LocalSize `mod` warp_size = 0 →
  GroupScan.has_type lm (GroupScan.inclusive_scan_local_allocation warp_size Range) →
  is_Some (GroupScan.inclusive_scan_over_group warp_size op zero LocalSize Range lm acc base)
  ↔ Range = 0 ∨ base + Range ≤ length acc.
Proof.
intros Hws HLS Hmod Hty. split.
- intros [r Hr]. destruct (decide (Range = 0)) as [|HR]; [by left|right].
  destruct (decide (base + Range ≤ length acc)) as [|Hout]; [done|].
  rewrite (inclusive_scan_over_group_outside op zero warp_size LocalSize) in Hr;
    [done|lia|done|done|lia|lia].
- intros [->|Hlen].
  + rewrite inclusive_scan_over_group_base_eq by lia.
    rewrite for_each_sub_group_warps; [|lia|done|done|apply ceil_mod; lia|done].
    rewrite ceil_div, div_ceil_0 by lia. by eexists.
  + destruct (inclusive_scan_over_group_spec op zero warp_size LocalSize ltac:(lia) HLS Hmod
                Hws Range lm acc base Hty Hlen) as (out & lm' & -> & _).
    by eexists.
Qed.

Lemma inclusive_scan_over_group_bounds_witness :
  GroupScan.inclusive_scan_over_group 2 Nat.add 0 4 5
    (GroupScan.lm_nested [0; 0; 0] (GroupScan.lm_nested [0; 0] GroupScan.lm_empty))
    [9; 1; 2; 3; 4; 5; 7] 3
  = None.
Proof.
apply eq_None_not_Some. intros Hsome.
apply (inclusive_scan_over_group_bounds Nat.add 0 2 4 5
         (GroupScan.lm_nested [0; 0; 0] (GroupScan.lm_nested [0; 0] GroupScan.lm_empty))
         [9; 1; 2; 3; 4; 5; 7] 3) in Hsome;
  [simpl in Hsome; lia|lia|lia|reflexivity|vm_compute; tauto].
Defined.

(** ** The reduction phase *)

Section ReductionPhase.
Import Group GroupScan Algebra Hierarchical.
Context {Scalar : Type}.
Variable op : Scalar → Scalar → Scalar.
Variable zero : Scalar.
Variables warp_size G : nat.
Hypothesis warp_size_pos : 0 < warp_size.
Hypothesis local_size_warps : local_size `mod` warp_size = 0.
Hypothesis granularity_pos : 0 < G.

Lemma reduction_kernel_length lm g accs accs' :
  reduction_kernel warp_size G op zero lm g accs = Some accs' →
  length accs'.1 = length accs.1.
Proof using Type.
unfold reduction_kernel.
destruct (inclusive_scan_over_group _ _ _ _ _ _ _ _) as [r|] eqn:Hr; simpl; [|done].
destruct (r.1 !! _); simpl; [|done].
destruct (store _ _ _); simpl; [|done].
intros [= <-]. simpl. destruct r as [r1 r2].
by destruct (inclusive_scan_over_group_preserves _ _ _ _ _ _ _ _ _ _ Hr).
Qed.

(** A launch over a buffer that ends inside a block fails in the group of
    that block. *)
Lemma reduction_launch_outside (lms : nat → local_allocation Scalar) big small :
  length big `mod` G ≠ 0 →
  parallel (div_ceil (length big) G)
    (λ g, reduction_kernel warp_size G op zero (lms g) g) (big, small)
  = None.
Proof using All.
intros Hmod. unfold parallel.
assert (0 < length big) as Hpos.
{ destruct (length big); [|lia]. by rewrite Nat.Div0.mod_0_l in Hmod. }
destruct (div_ceil_bounds (length big) G granularity_pos) as [H1 H2].
pose proof (div_ceil_pos (length big) G granularity_pos Hpos) as H3.
assert (length big ≠ div_ceil (length big) G * G) as H4.
{ intros Heq. apply Hmod. rewrite Heq. apply Nat.Div0.mod_mul. }
apply (foldM_fails (λ s : list Scalar * list Scalar, length s.1 = length big)
         _ (λ s x s' Hs Hx, eq_trans (reduction_kernel_length _ _ _ _ Hx) Hs)
         _ (div_ceil (length big) G - 1)); [done|apply elem_of_seq; lia|].
intros s Hs. unfold reduction_kernel.
rewrite (inclusive_scan_over_group_outside op zero warp_size local_size
           warp_size_pos local_size_pos local_size_warps); [done|done|].
rewrite Hs. set (W := div_ceil (length big) G) in *. clearbody W. nia.
Qed.
End ReductionPhase.

(** The hint at the assertion of [hierarchical_inclusive_scan_allocate] is
    accurate: [hierarchical_inclusive_scan] itself does not check the size of
    the array, and on an array whose size is no multiple of the granularity
    the reduction of level 0 accesses the array out of bounds in its last
    group, whatever chain of buffers it is given (as long as there is one, so
    that a command group is submitted at all). *)
Theorem hierarchical_inclusive_scan_overruns {Scalar : Type}
    (op : Scalar → Scalar → Scalar) (zero : Scalar) (warp_size granularity : nat)
    (local_memory : nat → nat → GroupScan.local_allocation Scalar) (verbose : bool)
    (q : Profiling.queue (Hierarchical.memory Scalar → option (Hierarchical.memory Scalar)))
    (out : list Profiling.profile_line) (in_out : list Scalar) (bufs : list (list Scalar)) :
  0 < warp_size → Hierarchical.local_size `mod` warp_size = 0 → 0 < granularity →
  length in_out `mod` granularity ≠ 0 → bufs ≠ [] →
  Hierarchical.scan_on_device warp_size granularity op zero local_memory verbose q out
    (Hierarchical.Memory in_out bufs)
  = None.
Proof.
intros Hws Hls HG Hmod Hbufs. rewrite scan_on_device_kernels.
destruct bufs as [|b rest]; [done|].
unfold Levels.kernels.
change (length (Hierarchical.intermediate_bufs (Hierarchical.Memory in_out (b :: rest))))
  with (S (length rest)).
change (seq 0 (S (length rest))) with (0 :: seq 1 (length rest)).
rewrite fmap_cons, <-app_comm_cons, execute_cons.
change (Hierarchical.big_count (Hierarchical.Memory in_out (b :: rest)) 0)
  with (length in_out).
rewrite reduction_cgf_0.
by rewrite (reduction_launch_outside op zero warp_size granularity Hws Hls HG).
Qed.

Lemma hierarchical_inclusive_scan_overruns_witness :
  Hierarchical.scan_on_device 2 4 Nat.add 0 Samples.local_memory_4 false
    Samples.plain_queue [] (Hierarchical.Memory [1; 2; 3; 4; 5; 6] [[0; 0; 0; 0]])
  = None.
Proof.
apply (hierarchical_inclusive_scan_overruns Nat.add 0 2 4 Samples.local_memory_4 false
         Samples.plain_queue [] [1; 2; 3; 4; 5; 6] [[0; 0; 0; 0]]);
  [lia|vm_compute; reflexivity|lia|simpl; lia|discriminate].
Defined.

(** The reduction command group at any level, for an associative and
    commutative operator: every block of [granularity] elements of the big
    buffer is replaced by its own inclusive scan, the last element of the
    scanned block [g] (the combination of the whole block) is stored in slot
    [g] of the small buffer.  No buffer changes its size. *)
Theorem reduction_scans_blocks {Scalar : Type} (op : Scalar → Scalar → Scalar)
    (zero : Scalar) (warp_size granularity : nat)
    (local_memory : nat → nat → GroupScan.local_allocation Scalar)
    (i : nat) (m : Hierarchical.memory Scalar) (big small : list Scalar) (blocks : nat) :
  2 ≤ warp_size → Hierarchical.local_size `mod` warp_size = 0 → 0 < granularity →
  (∀ a b c, op a (op b c) = op (op a b) c) → (∀ a b, op a b = op b a) →
  (∀ g, GroupScan.has_type (local_memory i g)
          (GroupScan.inclusive_scan_local_allocation warp_size granularity)) →
  Hierarchical.big_buffer m i = Some big →
  Hierarchical.intermediate_bufs m !! i = Some small →
  length big = blocks * granularity → blocks ≤ length small →
  ∃ big' small',
    Hierarchical.reduction_cgf warp_size granularity op zero local_memory i
      (div_ceil (length big) granularity) m
    = Some (Hierarchical.set_small_buffer (Hierarchical.set_big_buffer m i big') i small')
    ∧ length big' = length big ∧ length small' = length small
    ∧ (∀ g, g < blocks →
         take granularity (drop (g * granularity) big')
         = GroupScan.inclusive_scan op (take granularity (drop (g * granularity) big))
         ∧ small' !! g = big' !! (g * granularity + (granularity - 1))).
Proof.
intros Hws Hls HG Hassoc Hcomm Hty Hbig Hsmall Hlen Hblocks.
set (p := Algebra.element zero big 0).
exists (window big 0 (Algebra.warp_scan op granularity p) (blocks * granularity)),
       (window small 0 (Algebra.warp_total op granularity p) blocks).
assert (∀ g k, g < blocks → k < granularity →
          Algebra.warp_scan op granularity p (g * granularity + k)
          = Algebra.psum op (Algebra.element zero big (g * granularity)) 0 k) as Hscan.
{ intros g k Hg Hk. unfold Algebra.warp_scan.
  rewrite Nat.div_add_l, Nat.div_small, Nat.add_0_r by lia.
  rewrite Nat.add_comm, Nat.Div0.mod_add, Nat.mod_small by lia.
  transitivity (Algebra.psum op p (g * granularity + 0) k); [by rewrite Nat.add_0_r|].
  by rewrite psum_shift. }
split; [|split; [|split]].
- unfold Hierarchical.reduction_cgf. rewrite Hbig, Hsmall. simpl.
  rewrite Hlen, div_ceil_mul by done.
  rewrite (reduction_launch_scan op zero warp_size granularity Hws Hls HG Hassoc Hcomm
             (local_memory i) big small blocks (Hty) Hlen Hblocks). done.
- apply window_length. lia.
- apply window_length. lia.
- intros g Hg. assert (g * granularity + granularity ≤ blocks * granularity) by nia. split.
  + rewrite (take_drop_fmap_seq zero _ (g * granularity) granularity)
      by (rewrite window_length; lia).
    rewrite (take_drop_fmap_seq zero big (g * granularity) granularity) by lia.
    rewrite inclusive_scan_seq. apply list_fmap_ext. intros j k Hk.
    apply lookup_seq in Hk as [-> Hk]. simpl in Hk |- *.
    rewrite window0_lookup_done by lia. simpl. by apply Hscan.
  + rewrite !window0_lookup_done by lia. f_equal.
    rewrite Hscan by lia. unfold Algebra.warp_total.
    transitivity (Algebra.psum op p (g * granularity + 0) (granularity - 1));
      [by rewrite Nat.add_0_r|].
    by rewrite psum_shift.
Qed.

Lemma reduction_scans_blocks_witness :
  Hierarchical.reduction_cgf 2 4 Nat.add 0 Samples.local_memory_4 0
    (div_ceil 8 4) (Hierarchical.Memory [1; 2; 3; 4; 5; 6; 7; 8] [[9; 9; 9; 9]])
  = Some (Hierarchical.Memory [1; 3; 6; 10; 5; 11; 18; 26] [[10; 26; 9; 9]])
  ∧ ∃ big' small',
      Hierarchical.reduction_cgf 2 4 Nat.add 0 Samples.local_memory_4 0
        (div_ceil 8 4) (Hierarchical.Memory [1; 2; 3; 4; 5; 6; 7; 8] [[9; 9; 9; 9]])
      = Some (Hierarchical.set_small_buffer
                (Hierarchical.set_big_buffer
                   (Hierarchical.Memory [1; 2; 3; 4; 5; 6; 7; 8] [[9; 9; 9; 9]]) 0 big')
                0 small')
      ∧ length big' = 8.
Proof.
split; [vm_compute; reflexivity|].
destruct (reduction_scans_blocks Nat.add 0 2 4 Samples.local_memory_4 0
            (Hierarchical.Memory [1; 2; 3; 4; 5; 6; 7; 8] [[9; 9; 9; 9]])
            [1; 2; 3; 4; 5; 6; 7; 8] [9; 9; 9; 9] 2)
  as (big' & small' & H1 & H2 & _);
  [lia|vm_compute; reflexivity|lia|intros; lia|intros; lia|intros; vm_compute; tauto
  |reflexivity|reflexivity|reflexivity|simpl; lia|].
exists big', small'. split; [exact H1|exact H2].
Defined.

(** ** Closed forms of the two layouts *)

Section Powers.

Lemma pow_pos (a k : nat) : 0 < a → 0 < a ^ k.
Proof. intros Ha. pose proof (Nat.pow_nonzero a k ltac:(lia)). lia. Qed.

Lemma div_ceil_1 n : div_ceil n 1 = n.
Proof. apply div_ceil_unique; lia. Qed.

Lemma div_ceil_div_ceil n a b :
  0 < a → 0 < b → div_ceil (div_ceil n a) b = div_ceil n (a * b).
Proof.
intros Ha Hb. symmetry. apply div_ceil_unique; [lia| |].
- destruct (div_ceil_bounds n a Ha) as [H1 _].
  destruct (div_ceil_bounds (div_ceil n a) b Hb) as [H2 _].
  set (x := div_ceil n a) in *. set (y := div_ceil x b) in *. clearbody x y. nia.
- destruct (div_ceil_bounds n a Ha) as [_ H1].
  destruct (div_ceil_bounds (div_ceil n a) b Hb) as [_ H2].
  set (x := div_ceil n a) in *. set (y := div_ceil x b) in *. clearbody x y.
  assert (y * b ≤ x + b - 1) as H3 by lia.
  assert (y * b * a ≤ (x + b - 1) * a) as H4 by (apply Nat.mul_le_mono_r; lia).
  nia.
Qed.

Lemma div_ceil_le_1 n q : 0 < q → div_ceil n q ≤ 1 ↔ n ≤ q.
Proof.
intros Hq. destruct (div_ceil_bounds n q Hq) as [H1 H2].
set (d := div_ceil n q) in *. clearbody d. split; intros; nia.
Qed.

Lemma unrounded_pow G N k : 0 < G → Levels.unrounded G N k = div_ceil N (G ^ k).
Proof.
intros HG. unfold Levels.unrounded. induction k as [|k IH].
- simpl Nat.iter. by rewrite Nat.pow_0_r, div_ceil_1.
- simpl Nat.iter. rewrite IH, div_ceil_div_ceil; [|apply pow_pos; lia|done].
  f_equal. rewrite Nat.pow_succ_r'. lia.
Qed.
End Powers.

(** The chain of [hierarchical_inclusive_scan_allocate] in closed form:
    buffer [k] has [div_ceil(N, G^(k+1))] elements rounded up to a multiple
    of [G], and the number of buffers is the least [L] with [N <= G^L], the
    logarithm of [N] to the base [G] rounded up; the scan then takes
    [2 * L - 1] kernel launches. *)
Theorem hierarchical_inclusive_scan_allocate_depth (granularity N : nat)
    (counts : list nat) :
  2 ≤ granularity →
  Hierarchical.hierarchical_inclusive_scan_allocate granularity N = Some counts →
  (∀ k, k < length counts →
     counts !! k = Some (ceil (div_ceil N (granularity ^ S k)) granularity))
  ∧ N ≤ granularity ^ length counts
  ∧ (∀ k, k < length counts → granularity ^ k < N).
Proof.
intros HG. unfold Hierarchical.hierarchical_inclusive_scan_allocate.
case_decide as Hmod; [|done]. intros [= <-].
destruct (allocate_loop_counts granularity HG N) as (H1 & H2 & _).
cbv zeta in H1, H2. set (counts := Hierarchical.allocate_loop granularity N N) in *.
assert (∀ k, 0 < granularity ^ k) as Hpow by (intros; apply pow_pos; lia).
split; [|split].
- intros k Hk. destruct (H1 k Hk) as [_ ->].
  rewrite unrounded_pow, div_ceil_div_ceil by (done || lia).
  do 3 f_equal. simpl. lia.
- rewrite unrounded_pow in H2 by lia. by apply (div_ceil_le_1 N _ (Hpow _)) in H2.
- intros k Hk. destruct (H1 k Hk) as [Hgt _].
  rewrite unrounded_pow in Hgt by lia.
  destruct (decide (N ≤ granularity ^ k)) as [Hle|]; [|lia].
  apply (div_ceil_le_1 N _ (Hpow k)) in Hle. lia.
Qed.

Lemma hierarchical_inclusive_scan_allocate_depth_witness :
  Hierarchical.hierarchical_inclusive_scan_allocate 4 64 = Some [16; 4; 4]
  ∧ 64 ≤ 4 ^ 3 ∧ 4 ^ 2 < 64.
Proof.
destruct (hierarchical_inclusive_scan_allocate_depth 4 64 [16; 4; 4]) as (_ & H1 & H2);
  [lia|reflexivity|].
split; [reflexivity|]. split; [exact H1|]. apply (H2 2). simpl. lia.
Defined.

(** The shape of the chain of [hierarchical_inclusive_scan_allocate]: every
    buffer is a multiple of the granularity and holds at least one block, no
    buffer is larger than the one before it or than the array, and the last
    buffer of a chain is exactly one block. *)
Theorem hierarchical_inclusive_scan_allocate_shape (granularity N : nat)
    (counts : list nat) :
  2 ≤ granularity →
  Hierarchical.hierarchical_inclusive_scan_allocate granularity N = Some counts →
  (∀ k c, counts !! k = Some c →
     granularity ≤ c ∧ c `mod` granularity = 0 ∧ c ≤ N
     ∧ ∀ c', counts !! S k = Some c' → c' ≤ c)
  ∧ (counts ≠ [] → last counts = Some granularity).
Proof.
intros HG. unfold Hierarchical.hierarchical_inclusive_scan_allocate.
case_decide as Hmod; [|done]. intros [= <-].
destruct (allocate_loop_counts granularity HG N) as (H1 & H2 & H3).
cbv zeta in H1, H2, H3. set (counts := Hierarchical.allocate_loop granularity N N) in *.
assert (∀ k, Levels.unrounded granularity N (S k)
             = div_ceil (Levels.unrounded granularity N k) granularity) as Hstep by done.
assert (∀ k, Levels.unrounded granularity N k ≤ N) as Hle.
{ induction k as [|k IH]; [done|]. rewrite Hstep.
  pose proof (div_ceil_le (Levels.unrounded granularity N k) granularity ltac:(lia)). lia. }
split.
- intros k c Hc. pose proof (lookup_lt_Some _ _ _ Hc) as Hk.
  destruct (H1 k Hk) as [Hgt Hk']. rewrite Hk' in Hc. injection Hc as <-.
  rewrite <-Hstep.
  assert (0 < Levels.unrounded granularity N (S k)) as Hpos
    by (rewrite Hstep; apply div_ceil_pos; lia).
  destruct (ceil_bounds (Levels.unrounded granularity N (S k)) granularity ltac:(lia))
    as [Hc1 Hc2].
  pose proof (ceil_mod (Levels.unrounded granularity N (S k)) granularity ltac:(lia)) as Hc3.
  split; [|split; [done|split]].
  + unfold ceil in *.
    pose proof (div_ceil_pos _ granularity ltac:(lia) Hpos). nia.
  + assert (N `mod` granularity = 0 → 1 < N →
            ceil (div_ceil N granularity) granularity ≤ N) as Hfirst.
    { intros Hm HN. pose proof (multiple_div N granularity ltac:(lia) Hm) as HNm.
      rewrite div_ceil_exact by (done || lia).
      destruct (ceil_bounds (N / granularity) granularity ltac:(lia)) as [_ Hb].
      pose proof (ceil_mod (N / granularity) granularity ltac:(lia)) as Hcm.
      unfold ceil in *. set (d := div_ceil (N / granularity) granularity) in *.
      set (m := N / granularity) in *. clearbody d m.
      assert (0 < m) by lia. nia. }
    destruct k as [|k].
    * apply Hfirst; [done|]. exact Hgt.
    * transitivity (ceil (div_ceil N granularity) granularity).
      -- unfold ceil. apply Nat.mul_le_mono_r, div_ceil_mono; [lia|].
         rewrite Hstep. apply div_ceil_mono; [lia|]. apply Hle.
      -- apply Hfirst; [done|]. destruct (H1 0 ltac:(lia)) as [H0 _]. exact H0.
  + intros c' Hc'. pose proof (lookup_lt_Some _ _ _ Hc') as Hk2.
    destruct (H1 (S k) Hk2) as [_ Hk3]. rewrite Hk3 in Hc'. injection Hc' as <-.
    rewrite <-Hstep. unfold ceil. apply Nat.mul_le_mono_r, div_ceil_mono; [lia|].
    apply div_ceil_le. lia.
- intros Hne. rewrite last_lookup.
  destruct counts as [|c0 rest] eqn:Hcounts; [done|]. simpl length in *. simpl pred.
  destruct (H1 (length rest) ltac:(lia)) as [Hgt ->].
  pose proof (Hle (length rest)) as HleN.
  rewrite <-Hstep, H3 by lia. f_equal. unfold ceil. rewrite div_ceil_small by lia. lia.
Qed.

Lemma hierarchical_inclusive_scan_allocate_shape_witness :
  Hierarchical.hierarchical_inclusive_scan_allocate 4 64 = Some [16; 4; 4]
  ∧ last [16; 4; 4] = Some 4.
Proof.
split; [reflexivity|].
apply (hierarchical_inclusive_scan_allocate_shape 4 64 [16; 4; 4]);
  [lia|reflexivity|discriminate].
Defined.

(** The nested local memory of the group scan in closed form: the array of
    nesting level [k] has [div_ceil(Range, warp_size^(k+1))] elements, the
    innermost scan runs over [div_ceil(Range, warp_size^d)] elements, and the
    nesting depth [d] is the least one with [Range <= warp_size^(d+1)]: no
    level is allocated that the scan does not need. *)
Theorem inclusive_scan_local_allocation_depth (warp_size Range : nat) :
  2 ≤ warp_size →
  let ty := GroupScan.inclusive_scan_local_allocation warp_size Range in
  let lengths := GroupScan.memory_lengths ty in
  (∀ k, k < length lengths → lengths !! k = Some (div_ceil Range (warp_size ^ S k)))
  ∧ GroupScan.terminal_range ty = div_ceil Range (warp_size ^ length lengths)
  ∧ Range ≤ warp_size ^ S (length lengths)
  ∧ (∀ k, k < length lengths → warp_size ^ S k < Range).
Proof.
intros Hws. cbv zeta. induction (lt_wf Range) as [Range _ IH].
rewrite (inclusive_scan_local_allocation_unfold warp_size Hws Range).
case_decide as HR.
- cbn [GroupScan.memory_lengths GroupScan.terminal_range length].
  rewrite Nat.pow_0_r, Nat.pow_1_r, div_ceil_1.
  split; [intros; lia|]. split; [done|]. split; [lia|]. intros; lia.
- pose proof (div_ceil_lt Range warp_size Hws ltac:(lia)) as Hlt.
  destruct (IH _ Hlt) as (H1 & H2 & H3 & H4).
  destruct (div_ceil_bounds Range warp_size ltac:(lia)) as [Hb1 Hb2].
  simpl GroupScan.memory_lengths. simpl GroupScan.terminal_range. simpl length.
  set (lengths := GroupScan.memory_lengths _) in *.
  set (R' := div_ceil Range warp_size) in *.
  assert (∀ k, 0 < warp_size ^ k) as Hpow by (intros; apply pow_pos; lia).
  assert (∀ k, div_ceil R' (warp_size ^ k) = div_ceil Range (warp_size ^ S k)) as Hdd.
  { intros k. unfold R'. rewrite div_ceil_div_ceil by (done || lia). done. }
  split; [|split; [|split]].
  + intros [|k] Hk; simpl lookup.
    * by rewrite Nat.pow_1_r.
    * rewrite H1 by lia. by rewrite Hdd.
  + by rewrite H2, Hdd.
  + pose proof (Hpow (S (length lengths))).
    replace (warp_size ^ S (S (length lengths)))
      with (warp_size ^ S (length lengths) * warp_size) by (simpl; lia).
    clearbody R'. nia.
  + intros [|k] Hk.
    * rewrite Nat.pow_1_r. lia.
    * specialize (H4 k ltac:(lia)).
      replace (warp_size ^ S (S k)) with (warp_size ^ S k * warp_size) by (simpl; lia).
      clearbody R'. nia.
Qed.

Lemma inclusive_scan_local_allocation_depth_witness :
  GroupScan.memory_lengths (GroupScan.inclusive_scan_local_allocation 32 2048) = [64; 2]
  ∧ GroupScan.terminal_range (GroupScan.inclusive_scan_local_allocation 32 2048)
    = div_ceil 2048 (32 ^ 2).
Proof.
split; [vm_compute; reflexivity|].
apply (inclusive_scan_local_allocation_depth 32 2048). lia.
Defined.

(** ** The arguments [distribute_for] hands to the callback *)

(** What a callback of [distribute_for] can rely on: the lane with local id
    [t] makes its [n]-th invocation with the arguments [item = n * LocalSize +
    t], [iteration = n] and its own id, the item is below [range] and the
    iteration below [div_ceil(range, LocalSize)], so that an array of that
    many slots per lane indexed by the iteration never overflows; item [i] is
    handled by lane [i mod LocalSize] in its iteration [i / LocalSize]; and
    the lanes are balanced, each making [range / LocalSize] invocations or
    one more. *)
Theorem distribute_for_arguments (LocalSize range : nat) :
  0 < LocalSize →
  length (Group.distribute_for LocalSize range) = LocalSize
  ∧ (∀ t lane n c,
       Group.distribute_for LocalSize range !! t = Some lane → lane !! n = Some c →
       Group.tid c = t ∧ Group.iteration c = n ∧ Group.item c = n * LocalSize + t
       ∧ Group.item c < range ∧ Group.iteration c < div_ceil range LocalSize)
  ∧ (∀ i, i < range →
       ∃ lane, Group.distribute_for LocalSize range !! (i `mod` LocalSize) = Some lane
               ∧ lane !! (i / LocalSize)
                 = Some (Group.Call i (i / LocalSize) (i `mod` LocalSize)))
  ∧ (∀ t lane, Group.distribute_for LocalSize range !! t = Some lane →
       range / LocalSize ≤ length lane ≤ range / LocalSize + 1
       ∧ length lane ≤ div_ceil range LocalSize).
Proof.
intros HLS.
assert (∀ t lane, Group.distribute_for LocalSize range !! t = Some lane →
          t < LocalSize ∧ lane = Group.distribute_for_lane LocalSize range t) as Hlane.
{ intros t lane Ht. unfold Group.distribute_for in Ht.
  rewrite list_lookup_fmap in Ht.
  destruct (seq 0 LocalSize !! t) as [t'|] eqn:Hs; [|done].
  apply lookup_seq in Hs as [-> Hs]. simpl in Ht. injection Ht as <-. done. }
split; [|split; [|split]].
- unfold Group.distribute_for. by rewrite length_fmap, length_seq.
- intros t lane n c Ht Hc. destruct (Hlane t lane Ht) as [Hlt ->].
  rewrite distribute_for_lane_lookup in Hc by done.
  case_decide as Hin; [|done]. injection Hc as <-. simpl.
  repeat split; try done.
  destruct (div_ceil_bounds range LocalSize HLS) as [H1 _].
  set (d := div_ceil range LocalSize) in *. clearbody d. nia.
- intros i Hi. exists (Group.distribute_for_lane LocalSize range (i `mod` LocalSize)).
  pose proof (Nat.mod_upper_bound i LocalSize ltac:(lia)) as Hm.
  pose proof (Nat.div_mod i LocalSize ltac:(lia)) as Hdm. split.
  + unfold Group.distribute_for. rewrite list_lookup_fmap, lookup_seq_lt by done. done.
  + rewrite distribute_for_lane_lookup by done.
    rewrite decide_True by lia. do 2 f_equal. lia.
- intros t lane Ht. destruct (Hlane t lane Ht) as [Hlt ->]. split.
  + unfold Group.distribute_for_lane, Group.distribute_for_partial_iteration.
    rewrite length_app, length_fmap, length_seq. case_decide; simpl; lia.
  + by apply distribute_for_lane_length.
Qed.

Lemma distribute_for_arguments_witness :
  Group.distribute_for 4 10
  = [[Group.Call 0 0 0; Group.Call 4 1 0; Group.Call 8 2 0];
     [Group.Call 1 0 1; Group.Call 5 1 1; Group.Call 9 2 1];
     [Group.Call 2 0 2; Group.Call 6 1 2];
     [Group.Call 3 0 3; Group.Call 7 1 3]]
  ∧ length (Group.distribute_for 4 10) = 4.
Proof.
split; [reflexivity|]. apply (distribute_for_arguments 4 10). lia.
Defined.

(** ** Conversion between extent types *)

Section ExtentFacts.
Import Extent.
Context {T U : Type}.
Variable convert : T → U.

Lemma extent_cast_step (v : list U) (e : list T) j :
  j < length e → j < length v →
  (x ← e !! j; store ((convert <$> take j e) ++ drop j v) j (convert x))
  = Some ((convert <$> take (S j) e) ++ drop (S j) v).
Proof.
intros He Hv.
destruct (lookup_lt_is_Some_2 e j He) as [x Hx].
destruct (lookup_lt_is_Some_2 v j Hv) as [y Hy].
rewrite Hx. simpl. unfold store.
rewrite decide_True
  by (rewrite length_app, length_fmap, length_take, length_drop; lia).
f_equal. rewrite (take_S_r e j x Hx), fmap_app, <-app_assoc. simpl.
rewrite insert_app_r_alt by (rewrite length_fmap, length_take; lia).
rewrite length_fmap, length_take.
replace (j - j `min` length e) with 0 by lia.
by rewrite (drop_S v y j Hy).
Qed.

Lemma extent_cast_length Dims (v : list U) (e : list T) v' :
  extent_cast convert Dims v e = Some v' → length v' = length v.
Proof.
unfold extent_cast.
apply (foldM_invariant (λ x, length x = length v)); [|done].
intros s i s' Hs. destruct (e !! i); simpl; [|done].
intros Hst. apply store_length in Hst. congruence.
Qed.

Lemma extent_cast_inside Dims (v : list U) (e : list T) :
  Dims ≤ length e → Dims ≤ length v →
  extent_cast convert Dims v e = Some ((convert <$> take Dims e) ++ drop Dims v).
Proof.
intros He Hv. unfold extent_cast.
rewrite <-(list_fmap_id (seq 0 Dims)).
pose proof (foldM_steps (λ v i, x ← e !! i; store v i (convert x))
              (λ j, (convert <$> take j e) ++ drop j v) id Dims) as Hsteps.
apply Hsteps. intros j Hj. apply extent_cast_step; lia.
Qed.

Lemma extent_cast_outside Dims (v : list U) (e : list T) :
  ¬ (Dims ≤ length e ∧ Dims ≤ length v) → extent_cast convert Dims v e = None.
Proof.
intros Hout. unfold extent_cast.
assert (∀ (s : list U) (i : nat) (s' : list U),
          length s = length v →
          (x ← e !! i; store s i (convert x)) = Some s' →
          length s' = length v) as Hstep.
{ intros s i s' Hs. destruct (e !! i); simpl; [|done].
  intros Hst. apply store_length in Hst. congruence. }
apply (foldM_fails (λ x : list U, length x = length v) _ Hstep
         _ (length e `min` length v)); [done|apply elem_of_seq; lia|].
intros s Hs. destruct (decide (length e ≤ length v)) as [Hle|Hle].
- rewrite lookup_ge_None_2 by lia. done.
- destruct (e !! _); simpl; [|done]. unfold store. rewrite decide_False by lia. done.
Qed.
End ExtentFacts.

(** [extent_cast] is a plain copy of components: the first [Dims]
    components of the result are those of the argument, converted, and the
    components of the default-constructed result beyond [Dims] are left as
    they are.  It accesses a component that does not exist exactly when [Dims]
    exceeds the dimension of the argument or of the result type.  Casting to
    another type and back returns the original extent whenever the conversion
    of the components does not lose information. *)
Theorem extent_cast_copies {T U : Type} (convert : T → U) (Dims : nat)
    (v : list U) (e : list T) :
  (Dims ≤ length e → Dims ≤ length v →
   Extent.extent_cast convert Dims v e = Some ((convert <$> take Dims e) ++ drop Dims v))
  ∧ (is_Some (Extent.extent_cast convert Dims v e) ↔ Dims ≤ length e ∧ Dims ≤ length v)
  ∧ (∀ (back : U → T) (w : list T),
       length v = length e → length w = length e →
       (∀ x, x ∈ e → back (convert x) = x) →
       Extent.extent_cast_from convert v e ≫= Extent.extent_cast_from back w = Some e).
Proof.
split; [apply extent_cast_inside|]. split.
- split.
  + intros Hsome. destruct (decide (Dims ≤ length e ∧ Dims ≤ length v)) as [|Hout]; [done|].
    rewrite extent_cast_outside in Hsome by done. by destruct Hsome.
  + intros [He Hv]. rewrite extent_cast_inside by done. by eexists.
- intros back w Hv Hw Hback. unfold Extent.extent_cast_from.
  rewrite extent_cast_inside by lia. simpl.
  assert ((convert <$> take (length e) e) ++ drop (length e) v = convert <$> e) as ->.
  { rewrite firstn_all, <-Hv, drop_all. apply app_nil_r. }
  rewrite length_fmap.
  rewrite extent_cast_inside by (rewrite ?length_fmap; lia).
  rewrite <-(length_fmap convert e) at 1. rewrite firstn_all.
  rewrite <-Hw, drop_all, app_nil_r. f_equal.
  rewrite <-list_fmap_compose. rewrite <-(list_fmap_id e) at 2.
  apply list_fmap_ext. intros i x Hx. simpl. apply Hback. by eapply list_elem_of_lookup_2.
Qed.

Lemma extent_cast_copies_witness :
  Extent.extent_cast Z.of_nat 2 [0%Z; 0%Z; 0%Z] [5; 6] = Some [5%Z; 6%Z; 0%Z]
  ∧ Extent.extent_cast Z.of_nat 3 [0%Z; 0%Z; 0%Z] [5; 6] = None
  ∧ Extent.extent_cast_from Z.of_nat [0%Z; 0%Z] [5; 6]
      ≫= Extent.extent_cast_from Z.to_nat [0; 0] = Some [5; 6].
Proof.
split; [|split].
- apply (extent_cast_copies Z.of_nat 2 [0%Z; 0%Z; 0%Z] [5; 6]); simpl; lia.
- reflexivity.
- apply (extent_cast_copies Z.of_nat 2 [0%Z; 0%Z] [5; 6]); [reflexivity|reflexivity|].
  intros x _. apply Nat2Z.id.
Defined.
